(** * bertprompt: the constraint checker, the single-token proposer, the
      revision loop, the encoder and the scorer of [bertprompt/lm.py],
      embedded in Rocq.

    Python values are modelled as follows.
    - [str] is [string]; a Python list is a [list]; a tuple is a pair or a list.
    - a likelihood or a perplexity (a Python float) is a rational [Q]; the
      proposer and the revision loop use only the comparisons [<] and [==] of
      the source, never float arithmetic; the scorer's quotients and sums are
      those of [Q].
    - an exception is a value of [exn]; fallible code returns [result].
    - the masked language model and its tokenizer are opaque: they enter as
      Section variables. *)

From Stdlib Require Import String Ascii List Bool Arith ZArith QArith Lia.
From Stdlib Require Import Permutation Sorted.
Import ListNotations.

Local Open Scope string_scope.
Local Open Scope list_scope.
Local Open Scope nat_scope.

Set Implicit Arguments.

(* ================================================================== *)
(** ** Exceptions and fallible computations *)

Inductive exn : Type :=
| ValueError_no_valid_sentence (vocab : list string) (prompt : string)
    (* 'no valid sentence found: ({})\n- current prompt: {}' *)
| ValueError (msg : string)
| TypeError
| IndexError
| KeyError
| AssertionError (msg : string)
| EOFError
| OutsideRegexFragment
    (* not a Python exception: a vocabulary term leaves the modelled fragment
       of [re] *)
| OutOfFuel.
    (* not a Python exception: the fuel of a [while True] loop ran out *)

Inductive result (A : Type) : Type :=
| Ok (a : A)
| Raise (e : exn).

Arguments Ok {A} a.
Arguments Raise {A} e.

Definition bind {A B} (m : result A) (f : A -> result B) : result B :=
  match m with
  | Ok a => f a
  | Raise e => Raise e
  end.

Notation "x <- m ;; k" := (bind m (fun x => k))
  (at level 61, m at next level, right associativity).

Fixpoint mapM {A B} (f : A -> result B) (l : list A) : result (list B) :=
  match l with
  | [] => Ok []
  | a :: t => b <- f a ;; bs <- mapM f t ;; Ok (b :: bs)
  end.

(** [filterM p l]: [list(filter(p, l))] for a predicate that may raise. *)
Fixpoint filterM {A} (p : A -> result bool) (l : list A) : result (list A) :=
  match l with
  | [] => Ok []
  | a :: t => b <- p a ;; r <- filterM p t ;; Ok (if b then a :: r else r)
  end.

(** [l[n]] for a non-negative index. *)
Definition index {A} (l : list A) (n : nat) : result A :=
  match nth_error l n with
  | Some a => Ok a
  | None => Raise IndexError
  end.

(** [l[-1]]. *)
Definition last_item {A} (l : list A) : result A :=
  match rev l with
  | a :: _ => Ok a
  | [] => Raise IndexError
  end.

(* ================================================================== *)
(** ** Python's [re] on the fragment the vocabulary terms can exercise

    [check_vocab] and [decode_topk] hand the vocabulary terms to [re.findall]
    unescaped.  The model covers patterns built from literal characters, [.],
    bracketed character sets without ranges or negation, the word boundary
    [\b] and top-level alternation [|]; [compile] answers [None] on anything
    else.  Strings are ASCII. *)

Module PyRe.

Inductive atom : Type :=
| Lit (c : ascii)
| AnyChar
| CharSet (cs : list ascii)
| WordBoundary.

(** An alternation of sequences of atoms, in source order. *)
Definition regex : Type := list (list atom).

Definition is_special (c : ascii) : bool :=
  existsb (Ascii.eqb c) (list_ascii_of_string ".^$*+?{}[]\|()").

(** One left-to-right pass.  [cls] is [Some cs] while inside a bracketed set
    ([cs] reversed), [cur] is the current alternative (reversed), [alts] the
    finished alternatives (reversed). *)
Fixpoint compile_aux (s : list ascii) (cls : option (list ascii))
         (cur : list atom) (alts : list (list atom)) : option regex :=
  match s with
  | [] =>
      match cls with
      | None => Some (rev (rev cur :: alts))
      | Some _ => None
      end
  | c :: t =>
      match cls with
      | Some cs =>
          if Ascii.eqb c "]" then
            match cs with
            | [] => None
            | _ => compile_aux t None (CharSet (rev cs) :: cur) alts
            end
          else if existsb (Ascii.eqb c) (list_ascii_of_string "\-^[") then None
          else compile_aux t (Some (c :: cs)) cur alts
      | None =>
          if Ascii.eqb c "|" then compile_aux t None [] (rev cur :: alts)
          else if Ascii.eqb c "[" then compile_aux t (Some []) cur alts
          else if Ascii.eqb c "." then compile_aux t None (AnyChar :: cur) alts
          else if Ascii.eqb c "\" then
            match t with
            | c' :: t' =>
                if Ascii.eqb c' "b"
                then compile_aux t' None (WordBoundary :: cur) alts
                else None
            | [] => None
            end
          else if is_special c then None
          else compile_aux t None (Lit c :: cur) alts
      end
  end.

Definition compile (pattern : string) : option regex :=
  compile_aux (list_ascii_of_string pattern) None [] [].

(** [\w] on ASCII text: letters, digits and the underscore.  On a [str]
    Python also counts the letters and digits beyond ASCII as word characters,
    so what involves [\b] is read of Python on ASCII text only (see
    [ascii_text]). *)
Definition is_word (c : ascii) : bool :=
  let n := nat_of_ascii c in
  ((48 <=? n) && (n <=? 57)) || ((65 <=? n) && (n <=? 90))
  || ((97 <=? n) && (n <=? 122)) || (n =? 95).

Definition is_word_opt (c : option ascii) : bool :=
  match c with
  | Some c => is_word c
  | None => false
  end.

Definition newline : ascii := ascii_of_nat 10.

(** Match a sequence of atoms at a position given by the character before it
    ([prev]) and the rest of the subject ([s]); the answer is the matched text
    and what follows it. *)
Fixpoint match_seq (atoms : list atom) (prev : option ascii) (s : list ascii)
  : option (list ascii * list ascii) :=
  match atoms with
  | [] => Some ([], s)
  | WordBoundary :: r =>
      if xorb (is_word_opt prev) (is_word_opt (hd_error s))
      then match_seq r prev s
      else None
  | a :: r =>
      match s with
      | [] => None
      | c :: t =>
          let ok := match a with
                    | Lit x => Ascii.eqb c x
                    | AnyChar => negb (Ascii.eqb c newline)
                    | CharSet cs => existsb (Ascii.eqb c) cs
                    | WordBoundary => false
                    end in
          if ok then
            match match_seq r (Some c) t with
            | Some (m, rest) => Some (c :: m, rest)
            | None => None
            end
          else None
      end
  end.

(** The first alternative that matches here; with [must_advance] an empty
    match is refused and the next alternative is tried. *)
Fixpoint match_here (r : regex) (must_advance : bool) (prev : option ascii)
         (s : list ascii) : option (list ascii) :=
  match r with
  | [] => None
  | alt :: r' =>
      match match_seq alt prev s with
      | Some (m, _) =>
          if must_advance && (length m =? 0)%nat
          then match_here r' must_advance prev s
          else Some m
      | None => match_here r' must_advance prev s
      end
  end.

(** The scan of [findall].  [skip] counts the characters of the last match
    still to be stepped over.  After an empty match at a position the search
    is repeated there with [must_advance] set, as [sre] does, before moving
    on. *)
Fixpoint scan (r : regex) (prev : option ascii) (s : list ascii) (skip : nat)
  : list (list ascii) :=
  match skip with
  | S k =>
      match s with
      | [] => []
      | c :: t => scan r (Some c) t k
      end
  | O =>
      let step (k : nat) : list (list ascii) :=
        match s with
        | [] => []
        | c :: t => scan r (Some c) t k
        end in
      match match_here r false prev s with
      | None => step 0
      | Some [] =>
          [] :: match match_here r true prev s with
                | Some m => m :: match s with
                                 | [] => []
                                 | c :: t => scan r (Some c) t (length m - 1)
                                 end
                | None => step 0
                end
      | Some m => m :: step (length m - 1)
      end
  end.

(** [re.findall(pattern, sentence)] for a pattern without groups. *)
Definition findall (pattern sentence : string) : option (list string) :=
  match compile pattern with
  | Some r =>
      Some (map string_of_list_ascii
                (scan r None (list_ascii_of_string sentence) 0))
  | None => None
  end.

End PyRe.

(* ================================================================== *)
(** ** String helpers: [in], [str.replace(old, '')] *)

(** [old in s]. *)
Fixpoint contains (old s : string) : bool :=
  String.prefix old s ||
  match s with
  | EmptyString => false
  | String _ t => contains old t
  end.

(** One pass of [s.replace(old, '')], left to right, over non-overlapping
    occurrences; [skip] counts the characters of the occurrence being
    dropped. *)
Fixpoint remove_all_aux (old s : string) (skip : nat) : string :=
  match s with
  | EmptyString => EmptyString
  | String c t =>
      match skip with
      | S k => remove_all_aux old t k
      | O =>
          if String.prefix old s
          then remove_all_aux old t (String.length old - 1)
          else String c (remove_all_aux old t 0)
      end
  end.

Definition remove_all (old s : string) : string :=
  match old with
  | EmptyString => s
  | _ => remove_all_aux old s 0
  end.

(* ================================================================== *)
(** ** The constraint checker ([check_vocab] and the test in [decode_topk])

    A regular-expression function answers [None] when a vocabulary term
    leaves the modelled fragment of [re]. *)

(** [check_vocab(sentence, vocab)], lm.py lines 332-337. *)
Definition check_vocab (sentence : string) (vocab : list string) : option bool :=
  match PyRe.findall (String.concat "|" vocab) sentence with
  | Some vocab_in =>
      let vocab_in_unique := nodup string_dec vocab_in in
      Some ((length vocab_in_unique =? length vocab_in)
            && (length vocab_in =? length vocab))
  | None => None
  end.

(** [r'\b{}\b'.format(x)]. *)
Definition word_pattern (x : string) : string := "\b" ++ x ++ "\b".

(** [all(map(lambda x: len(re.findall(pat(x), sentence)), v))]: [all] stops at
    the first term without a match. *)
Fixpoint all_found (pat : string -> string) (v : list string) (sentence : string)
  : option bool :=
  match v with
  | [] => Some true
  | x :: t =>
      match PyRe.findall (pat x) sentence with
      | None => None
      | Some m => if length m =? 0 then Some false else all_found pat t sentence
      end
  end.

(** The test of [decode_topk] (lines 383-394) on the decoded sentence with the
    mask tokens removed, for the vocabulary [v] of the candidate:
    [Some true] when [decode_topk] goes on to return the sentence,
    [Some false] when it returns [None]. *)
Definition admissible (allow_subword : bool) (v : list string)
           (decoded_no_mask : string) : option bool :=
  match all_found (if allow_subword then (fun x => x) else word_pattern)
                  v decoded_no_mask with
  | None => None
  | Some false => Some false
  | Some true => check_vocab decoded_no_mask v
  end.

(** *** The rule in the words of the specification, on literal terms

    "every term in the vocabulary must occur as a whole-word match in the
    sentence, each term exactly once across the whole sentence, and the count
    of all whole-word vocabulary occurrences found must equal both the number
    of matches and the vocabulary size". *)

Definition chars (s : string) : list ascii := list_ascii_of_string s.

(** [w] stands at the head of [s]. *)
Fixpoint is_prefix (w s : list ascii) : bool :=
  match w, s with
  | [], _ => true
  | a :: w', b :: s' => Ascii.eqb b a && is_prefix w' s'
  | _ :: _, [] => false
  end.

(** The last character of [w], or [prev] when [w] is empty. *)
Fixpoint last_char (prev : option ascii) (w : list ascii) : option ascii :=
  match w with
  | [] => prev
  | c :: t => last_char (Some c) t
  end.

(** [w] stands at the head of [s] with a word boundary on either side;
    [prev] is the character before [s]. *)
Definition whole_word_here (w : list ascii) (prev : option ascii) (s : list ascii)
  : bool :=
  xorb (PyRe.is_word_opt prev) (PyRe.is_word_opt (hd_error s))
  && is_prefix w s
  && xorb (PyRe.is_word_opt (last_char prev w))
          (PyRe.is_word_opt (hd_error (skipn (length w) s))).

(** The number of positions of [s] where [w] stands as a whole word. *)
Fixpoint whole_word_count (w : list ascii) (prev : option ascii) (s : list ascii)
  : nat :=
  (if whole_word_here w prev s then 1 else 0) +
  match s with
  | [] => 0
  | c :: t => whole_word_count w (Some c) t
  end.

(** The specification's rule: each term once as a whole word, and no more
    whole-word occurrences of terms than the vocabulary has terms. *)
Definition spec_strict_admissible (sentence : string) (vocab : list string) : bool :=
  forallb (fun w => whole_word_count (chars w) None (chars sentence) =? 1) vocab
  && (list_sum (map (fun w => whole_word_count (chars w) None (chars sentence))
                    vocab)
      =? length vocab).

(** *** What the code counts, on literal terms

    The first term of the vocabulary, in its order, that stands at the head
    of [s]. *)
Fixpoint first_term (v : list (list ascii)) (s : list ascii) : option (list ascii) :=
  match v with
  | [] => None
  | w :: v' => if is_prefix w s then Some w else first_term v' s
  end.

(** The occurrences of vocabulary terms met when reading [s] from left to
    right, inside longer words too, a term being skipped over once met;
    [skip] counts the characters still to skip. *)
Fixpoint occurrences (v : list (list ascii)) (s : list ascii) (skip : nat)
  : list (list ascii) :=
  match s with
  | [] => []
  | c :: t =>
      match skip with
      | S k => occurrences v t k
      | O =>
          match first_term v s with
          | Some w => w :: occurrences v t (length w - 1)
          | None => occurrences v t 0
          end
      end
  end.

(** A term without any character that [re] reads as an operator, and not
    empty. *)
Definition plain (w : string) : Prop :=
  w <> "" /\ forallb (fun c => negb (PyRe.is_special c)) (chars w) = true.

(* ================================================================== *)
(** ** Scores *)

(** [a < b] on scores. *)
Definition Qltb (a b : Q) : bool := negb (Qle_bool b a).

(** A decoded sentence with the likelihood of the token that produced it. *)
Definition entry : Type := (string * Q)%type.

(* ================================================================== *)
(** ** The partitioner ([Partition], [get_partition], lines 28-47) *)

(** [Partition(_list)(x)] for [x] in [range(len(_list))]; [pool_map] keeps the
    order of its argument. *)
Definition get_partition {A} (_list : list (list A)) : list (nat * nat) :=
  let length_ := map (@length A) _list in
  map (fun x => (list_sum (firstn x length_), list_sum (firstn (x + 1) length_)))
      (seq 0 (length _list)).

(** [l[s:e]] for non-negative bounds. *)
Definition slice {A} (s e : nat) (l : list A) : list A :=
  firstn (e - s) (skipn s l).

(** [[flat[s:e] for s, e in partition]], line 427. *)
Definition regroup {A} (flat : list A) (partition : list (nat * nat)) : list (list A) :=
  map (fun se => slice (fst se) (snd se) flat) partition.

(* ================================================================== *)
(** ** The perplexity re-ranker (lines 428-432) *)

(** One step of [min]: a later value replaces the running minimum [m] only
    when it is strictly smaller. *)
Definition keep_min (m y : Q) : Q := if Qltb y m then y else m.

(** [min(ppl)]: the first of the smallest values. *)
Definition py_min (ppl : list Q) : result Q :=
  match ppl with
  | [] => Raise (ValueError "min() arg is an empty sequence")
  | x :: t => Ok (fold_left keep_min t x)
  end.

(** [ppl.index(m)]: the first position holding a value equal to [m]. *)
Fixpoint py_index (m : Q) (ppl : list Q) : result nat :=
  match ppl with
  | [] => Raise (ValueError "x is not in list")
  | y :: t => if Qeq_bool y m then Ok 0 else i <- py_index m t ;; Ok (S i)
  end.

(** [(sent[ppl.index(min(ppl))], min(ppl))]. *)
Definition best_of (sent : list string) (ppl : list Q) : result (string * Q) :=
  m <- py_min ppl ;;
  i <- py_index m ppl ;;
  s <- index sent i ;;
  Ok (s, m).

(** [zip(greedy_filling, list_ppl)] followed by the loop body. *)
Fixpoint rerank (greedy_filling : list (list string)) (list_ppl : list (list Q))
  : result (list (string * Q)) :=
  match greedy_filling, list_ppl with
  | sent :: g, ppl :: p => b <- best_of sent ppl ;; r <- rerank g p ;; Ok (b :: r)
  | _, _ => Ok []
  end.

(* ================================================================== *)
(** ** Deduplication and ordering of a shortlist (lines 416-422) *)

(** One step of [max(..., key=lambda x: x[1])]: a later entry replaces the
    running best [b] only when its likelihood is strictly larger. *)
Definition keep_max (b y : entry) : entry :=
  if Qltb (snd b) (snd y) then y else b.

(** [max(l, key=lambda x: x[1])]: the first entry of the largest likelihood. *)
Definition max_likelihood (l : list entry) : result entry :=
  match l with
  | [] => Raise (ValueError "max() arg is an empty sequence")
  | x :: t => Ok (fold_left keep_max t x)
  end.

(** Largest likelihood first. *)
Definition desc (a b : entry) : Prop := (snd b <= snd a)%Q.

(** [texts] lists the members of [set(l)], each once, in some order. *)
Definition enumerates (texts l : list string) : Prop :=
  NoDup texts /\ forall d, In d texts <-> In d l.

(** [sorted(l, key=lambda x: x[1], reverse=True)]: stable, largest first. *)
Fixpoint insert_desc (x : entry) (l : list entry) : list entry :=
  match l with
  | [] => [x]
  | y :: t => if Qltb (snd x) (snd y) then y :: insert_desc x t else x :: y :: t
  end.

Definition sorted_desc (l : list entry) : list entry :=
  fold_right insert_desc [] l.

(** Lines 417-421.  [texts] is the order in which the set
    [set(list(zip( *topk_edit))[0])] is iterated; [zip( *[])[0]] raises. *)
Definition drop_duplicated (texts : list string) (topk_edit : list entry)
  : result (list entry) :=
  match topk_edit with
  | [] => Raise IndexError
  | _ =>
      kept <- mapM (fun d =>
                      max_likelihood
                        (filter (fun x => String.eqb (fst x) d) topk_edit))
                   texts ;;
      Ok (sorted_desc kept)
  end.

(** Line 422: [list(zip( *topk_edit))[0][:min(topk, len(topk_edit))]]. *)
Definition shortlist (topk : nat) (topk_edit : list entry) : result (list string) :=
  match topk_edit with
  | [] => Raise IndexError
  | _ => Ok (firstn (Nat.min topk (length topk_edit)) (map fst topk_edit))
  end.

(* ================================================================== *)
(** ** The single-token proposer ([Prompter.replace_single_token]) *)

(** What the run of the fallback ladder leaves behind besides its value. *)
Inductive event : Type :=
| StageRun (pool : nat) (allow_subword : bool)
    (* a call [process_single_pair(pool, allow_subword)] *)
| SubwordWarning (first : entry) (vocab : list string).
    (* logging.warning('prompt may include subword: ...') *)

(** [if x:] for an optional list. *)
Definition truthy {A} (x : option (list A)) : bool :=
  match x with
  | Some (_ :: _) => true
  | _ => false
  end.

Definition topk_per_position : nat := 100.

(** The exception raised by line 414: the arguments of [format] are evaluated
    first, [vocab_to_keep[partition_n]] before [seed_sentences[partition_n]]. *)
Definition no_valid_sentence (vocab_to_keep : option (list (list string)))
           (seed_sentences : list string) (partition_n : nat) : exn :=
  match vocab_to_keep with
  | None => TypeError
  | Some vs =>
      match nth_error vs partition_n, nth_error seed_sentences partition_n with
      | Some v, Some s => ValueError_no_valid_sentence v s
      | _, _ => IndexError
      end
  end.

Section Ladder.

(** [process_single_pair] of the candidate at hand. *)
Variable process_single_pair : nat -> bool -> result (list entry).
Variable topk : nat.
Variable vocab_to_keep : option (list (list string)).
Variable seed_sentences : list string.
Variable partition_n : nat.

(** [if len(topk_edit) == 0 and guard:
       topk_edit = process_single_pair(pool, allow_subword)]. *)
Definition escalate (guard : bool) (pool : nat) (allow_subword : bool)
           (st : list event * result (list entry))
  : list event * result (list entry) :=
  match st with
  | (log, Ok []) =>
      if guard
      then (log ++ [StageRun pool allow_subword],
            process_single_pair pool allow_subword)
      else st
  | _ => st
  end.

(** Lines 409-411, run right after the relaxed stage. *)
Definition warn_subword (st : list event * result (list entry))
  : list event * result (list entry) :=
  match st with
  | (log, Ok (x :: r)) =>
      match vocab_to_keep with
      | None => st
      | Some vs =>
          match nth_error vs partition_n with
          | Some v => (log ++ [SubwordWarning x v], Ok (x :: r))
          | None => (log, Raise IndexError)
          end
      end
  | _ => st
  end.

(** Lines 404-415. *)
Definition fallback_ladder : list event * result (list entry) :=
  let st1 := ([StageRun topk false], process_single_pair topk false) in
  let st2 := escalate (topk <? topk_per_position) topk_per_position false st1 in
  let st3 :=
    match st2 with
    | (_, Ok []) => warn_subword (escalate true topk_per_position true st2)
    | _ => st2
    end in
  match st3 with
  | (log, Ok []) =>
      (log, Raise (no_valid_sentence vocab_to_keep seed_sentences partition_n))
  | _ => st3
  end.

End Ladder.

Section Proposer.

(** [tokenizer.mask_token]. *)
Variable mask_token : string.
(** The order in which a [set] of sentences is iterated. *)
Variable set_iter : list string -> list string.
(** One tokenizer encoding fed to the model. *)
Variable encoding : Type.
(** [EncodePlus(...)(sentence)]: the encodings of one sentence. *)
Variable get_encoding : string -> result (list encoding).
(** For one encoding, for each of its masked positions in order, the ranked
    predictions as (sentence after [decode] and [cleanup_decode],
    likelihood). *)
Variable model_fills : encoding -> list (list entry).
(** [Prompter.get_perplexity]. *)
Variable get_perplexity : list string -> list Q.

(** [decode_topk], lines 375-396, from the decoded sentence on. *)
Definition decode_topk (vocab_to_keep : option (list (list string)))
           (partition_n : nat) (allow_subword : bool) (cand : entry)
  : result (option entry) :=
  let decoded := fst cand in
  let decoded_no_mask := remove_all mask_token decoded in
  if truthy vocab_to_keep then
    v <- index (match vocab_to_keep with Some vs => vs | None => [] end)
               partition_n ;;
    match admissible allow_subword v decoded_no_mask with
    | None => Raise OutsideRegexFragment
    | Some true => Ok (Some cand)
    | Some false => Ok None
    end
  else Ok (Some cand).

(** [list(filter(None, l))] on optional pairs. *)
Fixpoint filter_none {A} (l : list (option A)) : list A :=
  match l with
  | [] => []
  | Some a :: t => a :: filter_none t
  | None :: t => filter_none t
  end.

(** [process_single_pair], lines 368-402, over the model's output
    [total] for the encodings [s..e-1] of the candidate. *)
Definition process_single_pair (vocab_to_keep : option (list (list string)))
           (partition_n : nat) (total : list (list (list entry))) (s e : nat)
           (_topk : nat) (allow_subword : bool) : result (list entry) :=
  per_i <- mapM (fun i =>
             filtered <- index total i ;;
             per_pos <- mapM (fun ranked =>
                          r <- mapM (fun k =>
                                 c <- index ranked k ;;
                                 decode_topk vocab_to_keep partition_n
                                             allow_subword c)
                               (seq 0 _topk) ;;
                          Ok (filter_none r))
                        filtered ;;
             Ok (concat per_pos))
           (seq s (e - s)) ;;
  Ok (concat per_i).

(** Lines 339-440. *)
Definition replace_single_token (seed_sentences : list string)
           (vocab_to_keep : option (list (list string))) (topk : nat)
  : result (list string * list Q) :=
  _ <- (if truthy vocab_to_keep
             && negb (length seed_sentences
                      =? length (match vocab_to_keep with
                                 | Some vs => vs
                                 | None => []
                                 end))
        then Raise (AssertionError "len(seed_sentences) != len(vocab_to_keep)")
        else Ok tt) ;;
  data <- mapM get_encoding seed_sentences ;;
  let partition := get_partition data in
  let total := map model_fills (concat data) in
  greedy_filling <-
    mapM (fun nse =>
            let partition_n := fst nse in
            let '(s, e) := snd nse in
            topk_edit <- snd (fallback_ladder
                                (process_single_pair vocab_to_keep partition_n
                                                     total s e)
                                topk vocab_to_keep seed_sentences partition_n) ;;
            topk_edit <- drop_duplicated (set_iter (map fst topk_edit))
                                         topk_edit ;;
            shortlist topk topk_edit)
         (combine (seq 0 (length partition)) partition) ;;
  let partition := get_partition greedy_filling in
  let list_ppl := get_perplexity (concat greedy_filling) in
  let list_ppl := regroup list_ppl partition in
  best <- rerank greedy_filling list_ppl ;;
  Ok (map fst best, map snd best).

End Proposer.

(* ================================================================== *)
(** ** The output dictionary *)

(** A candidate's histories: the edits and their perplexities. *)
Definition history : Type := (list string * list Q)%type.

(** A [dict] from candidate key to histories, in insertion order. *)
Definition dict : Type := list (string * history).

Fixpoint dict_get (d : dict) (k : string) : option history :=
  match d with
  | [] => None
  | (k', v) :: t => if String.eqb k' k then Some v else dict_get t k
  end.

(** [d[k] = v]: an existing key keeps its place. *)
Fixpoint dict_set (d : dict) (k : string) (v : history) : dict :=
  match d with
  | [] => [(k, v)]
  | (k', v') :: t =>
      if String.eqb k' k then (k', v) :: t else (k', v') :: dict_set t k v
  end.

(** [d.update({k: v for ...})] with the pairs in the order of the
    comprehension. *)
Definition dict_update (d : dict) (kvs : list (string * history)) : dict :=
  fold_left (fun acc kv => dict_set acc (fst kv) (snd kv)) kvs d.

(* ================================================================== *)
(** ** [Prompter.pair_to_seed] and [Prompter.generate] *)

(** [zip( *rows)] as a list of lists: column [j] of every row, for [j] below
    the length of the shortest row. *)
Fixpoint zip_star {A} (rows : list (list A)) : list (list A) :=
  match rows with
  | [] => []
  | [row] => map (fun a => [a]) row
  | row :: rest => map (fun ac => fst ac :: snd ac) (combine row (zip_star rest))
  end.

(** The argument [word_pairs]: omitted, one pair, or a list of pairs. *)
Inductive word_pairs_arg : Type :=
| WP_None
| WP_pair (p : list string)
| WP_list (ps : list (list string)).

(** The argument [seed_sentences]: omitted, one sentence, or a list. *)
Inductive seed_sentences_arg : Type :=
| SS_None
| SS_str (s : string)
| SS_list (l : list string).

Definition wp_truthy (w : word_pairs_arg) : bool :=
  match w with
  | WP_pair (_ :: _) | WP_list (_ :: _) => true
  | _ => false
  end.

Definition ss_truthy (s : seed_sentences_arg) : bool :=
  match s with
  | SS_str (String _ _) | SS_list (_ :: _) => true
  | _ => false
  end.

(** The state of the revision loop: the lists the loop filters in lockstep
    and the dictionary it fills. *)
Record loop_state : Type := mk_state {
  seed_sentences : list string;
  edit : list (list string);
  edit_ppl : list (list Q);
  data_index : list nat;
  vocab_to_keep : option (list (list string));
  output_dict : dict
}.

Section Generate.

Variable mask_token : string.

(** [self.replace_single_token(seed_sentences, vocab_to_keep, topk)]: the
    first argument counts the calls made so far, so that the backend may
    answer differently each round. *)
Variable replace_single_token :
  nat -> list string -> option (list (list string)) -> nat ->
  result (list string * list Q).

(** Lines 211-214; a negative count of blanks repeats nothing. *)
Definition pair_to_seed (word_pair : list string) (n_blank n_blank_b n_blank_e : Z)
  : result string :=
  match word_pair with
  | [h; t] =>
      Ok (String.concat " "
            (repeat mask_token (Z.to_nat n_blank_b) ++ [h]
             ++ repeat mask_token (Z.to_nat n_blank) ++ [t]
             ++ repeat mask_token (Z.to_nat n_blank_e)))
  | _ => Raise (AssertionError "word_pair contains wrong number of tokens")
  end.

(** [data_key[d]] for the dictionary built by [enumerate]. *)
Definition data_key_get (data_key : list string) (d : nat) : result string :=
  match nth_error data_key d with
  | Some k => Ok k
  | None => Raise KeyError
  end.

(** [{data_key[data_index[n]]: [edit[n], edit_ppl[n]] for n in ns}]. *)
Definition entries (data_key : list string) (st : loop_state) (ns : list nat)
  : result (list (string * history)) :=
  mapM (fun n =>
          d <- index (data_index st) n ;;
          k <- data_key_get data_key d ;;
          e <- index (edit st) n ;;
          p <- index (edit_ppl st) n ;;
          Ok (k, (e, p)))
       ns.

(** Line 288: the candidates whose best sentence is their last snapshot. *)
Definition index_fixed (best_edit : list string) (st : loop_state)
  : result (list nat) :=
  filterM (fun x =>
             s <- index best_edit x ;;
             e <- index (edit st) x ;;
             l <- last_item e ;;
             Ok (String.eqb s l))
          (seq 0 (length best_edit)).

(** Line 292: the candidates whose perplexity went strictly down. *)
Definition index_unfixed (best_edit : list string) (ppl : list Q)
           (st : loop_state) : result (list nat) :=
  filterM (fun x =>
             p <- index ppl x ;;
             ep <- index (edit_ppl st) x ;;
             l <- last_item ep ;;
             Ok (Qltb p l))
          (seq 0 (length best_edit)).

(** Lines 288-301: the bookkeeping of one round, given the answer
    [(best_edit, ppl)] of [replace_single_token]. *)
Definition revision_round (data_key : list string)
           (best : list string * list Q) (st : loop_state) : result loop_state :=
  let '(best_edit, ppl) := best in
  fixed <- index_fixed best_edit st ;;
  kvs <- entries data_key st fixed ;;
  let output := dict_update (output_dict st) kvs in
  unfixed <- index_unfixed best_edit ppl st ;;
  edit' <- mapM (fun x =>
                   e <- index (edit st) x ;;
                   s <- index best_edit x ;;
                   Ok (e ++ [s]))
                unfixed ;;
  edit_ppl' <- mapM (fun x =>
                       ep <- index (edit_ppl st) x ;;
                       p <- index ppl x ;;
                       Ok (ep ++ [p]))
                    unfixed ;;
  seeds' <- mapM (index best_edit) unfixed ;;
  _ <- mapM (index ppl) unfixed ;;
  data_index' <- mapM (index (data_index st)) unfixed ;;
  vocab' <- (if truthy (vocab_to_keep st)
             then vs <- mapM (index (match vocab_to_keep st with
                                     | Some vs => vs
                                     | None => []
                                     end))
                             unfixed ;;
                  Ok (Some vs)
             else Ok (vocab_to_keep st)) ;;
  Ok (mk_state seeds' edit' edit_ppl' data_index' vocab' output).

(** Lines 281-309.  [t] counts the calls of [replace_single_token] so far,
    [i] is the loop counter.  The value holds the state at the [break]. *)
Fixpoint revision_loop (fuel : nat) (data_key : list string) (n_revision : Z)
         (topk : nat) (t : nat) (i : Z) (st : loop_state)
  : nat * result loop_state :=
  match fuel with
  | O => (t, Raise OutOfFuel)
  | S fuel' =>
      match replace_single_token t (seed_sentences st) (vocab_to_keep st) topk with
      | Raise e => (S t, Raise e)
      | Ok best =>
          match revision_round data_key best st with
          | Raise e => (S t, Raise e)
          | Ok st' =>
              if length (seed_sentences st') =? 0 then (S t, Ok st')
              else if (i >? n_revision)%Z then (S t, Ok st')
              else revision_loop fuel' data_key n_revision topk (S t) (i + 1)%Z st'
          end
      end
  end.

(** Lines 260-269: fill the masks one at a time.  [edit] and [edit_ppl]
    grow by one row per pass. *)
Fixpoint replace_mask (fuel : nat) (word_pairs : list (list string)) (topk : nat)
         (t : nat) (seeds : list string) (edit : list (list string))
         (edit_ppl : list (list Q))
  : nat * result (list string * list (list string) * list (list Q)) :=
  match fuel with
  | O => (t, Raise OutOfFuel)
  | S fuel' =>
      if existsb (fun x => negb (contains mask_token x)) seeds then
        if forallb (fun x => negb (contains mask_token x)) seeds
        then (t, Ok (seeds, edit, edit_ppl))
        else (t, Raise (AssertionError "some masks got lost"))
      else
        match replace_single_token t seeds (Some word_pairs) topk with
        | Raise e => (S t, Raise e)
        | Ok (seeds', ppl) =>
            replace_mask fuel' word_pairs topk (S t) seeds'
                         (edit ++ [seeds']) (edit_ppl ++ [ppl])
        end
  end.

(** Lines 243-274: the state the revision loop starts from, with the
    dictionary [data_key]. *)
Definition initial_state (fuel : nat) (word_pairs : word_pairs_arg)
           (seeds : seed_sentences_arg) (vocab : option (list (list string)))
           (topk : nat) (n_blank n_blank_b n_blank_e : Z)
  : nat * result (list string * loop_state) :=
  if ss_truthy seeds then
    if wp_truthy word_pairs
    then (0, Raise (AssertionError
                      "both of `seed_sentences` and `word_pairs` are given"))
    else
      let ss := match seeds with
                | SS_str s => [s]
                | SS_list l => l
                | SS_None => []
                end in
      (0, Ok (ss, mk_state ss (map (fun s => [s]) ss) (repeat [] (length ss))
                           (seq 0 (length ss)) vocab []))
  else
    if negb (wp_truthy word_pairs)
    then (0, Raise (AssertionError
                      "either of `seed_sentences` or `word_pairs` is required"))
    else
      let wps := match word_pairs with
                 | WP_pair p => [p]
                 | WP_list ps => ps
                 | WP_None => []
                 end in
      match mapM (fun x => pair_to_seed x n_blank n_blank_b n_blank_e) wps with
      | Raise e => (0, Raise e)
      | Ok seeds0 =>
          let data_key := map (String.concat "||") wps in
          match replace_mask fuel wps topk 0 seeds0 [seeds0] [] with
          | (t, Raise e) => (t, Raise e)
          | (t, Ok (seeds1, edit, edit_ppl)) =>
              (t, Ok (data_key,
                      mk_state seeds1 (zip_star edit) (zip_star edit_ppl)
                               (seq 0 (length data_key))
                               (match vocab with
                                | None => Some wps
                                | Some _ => vocab
                                end)
                               []))
          end
      end.

(** [Prompter.generate], lines 216-313.  [stdin] tells whether [input()] on
    line 276 finds a line to read.  The first component of the answer is
    the number of calls of [replace_single_token]. *)
Definition generate (fuel : nat) (stdin : bool) (word_pairs : word_pairs_arg)
           (seeds : seed_sentences_arg) (vocab : option (list (list string)))
           (n_revision : Z) (topk : nat) (n_blank n_blank_b n_blank_e : Z)
  : nat * result dict :=
  match word_pairs with
  | WP_None => (0, Raise TypeError)   (* print(len(word_pairs)) *)
  | _ =>
      match initial_state fuel word_pairs seeds vocab topk
                          n_blank n_blank_b n_blank_e with
      | (t, Raise e) => (t, Raise e)
      | (t, Ok (data_key, st0)) =>
          if negb stdin then (t, Raise EOFError)
          else
            match revision_loop fuel data_key n_revision topk t 0%Z st0 with
            | (t', Raise e) => (t', Raise e)
            | (t', Ok st) =>
                (t', kvs <- entries data_key st (seq 0 (length (data_index st))) ;;
                     Ok (dict_update (output_dict st) kvs))
            end
      end
  end.

End Generate.

(* ================================================================== *)
(** ** Inputs used in the examples *)

(** The shortlist [[("a fox ran", 0.9), ("a fox ran", 0.5), ("a fox sat", 0.7)]]. *)
Definition fox_entries : list entry :=
  [("a fox ran", 9 # 10); ("a fox ran", 5 # 10); ("a fox sat", 7 # 10)]%Q.

(** A tokenizer that finds no token in a sentence, as for the empty string:
    [EncodePlus] then returns no encoding. *)
Definition no_tokens (sentence : string) : result (list unit) := Ok [].

(** A model that is never consulted. *)
Definition no_fills (e : unit) : list (list entry) := [].

(** The iteration order of a set taken as the order of first occurrence. *)
Definition first_occurrence (l : list string) : list string :=
  nodup string_dec l.

(** [s[n:]]. *)
Fixpoint drop (n : nat) (s : string) : string :=
  match n, s with
  | S k, String _ t => drop k t
  | _, _ => s
  end.

(** [s.replace(old, new, 1)]. *)
Fixpoint replace_first (old new s : string) : string :=
  match s with
  | EmptyString => EmptyString
  | String c t =>
      if String.prefix old s
      then (new ++ drop (String.length old) s)%string
      else String c (replace_first old new t)
  end.

(** A backend that never settles: it fills the first mask of a sentence with
    "is", or lengthens a sentence without masks, and at its call number [t]
    scores every sentence [1 / (t + 1)], lower than at any call before. *)
Definition restless_backend (t : nat) (seeds : list string)
           (vocab : option (list (list string))) (topk : nat)
  : result (list string * list Q) :=
  Ok (map (fun s => if contains "[MASK]" s
                    then replace_first "[MASK]" "is" s
                    else (s ++ " so")%string)
          seeds,
      map (fun _ => 1 # Pos.of_nat (S t)) seeds).

(** The loop state after the masks of "dog [MASK] cat" were filled by
    [restless_backend]. *)
Definition dog_cat_state : loop_state :=
  mk_state ["dog is cat"] [["dog [MASK] cat"; "dog is cat"]] [[1 # 1]] [0]
           (Some [["dog"; "cat"]]) [].

(* ================================================================== *)
(** ** The rounds of the revision loop *)

(** The number of rounds still possible when the loop counter stands at [i]:
    the body runs while [i <= n_revision + 1], and once in any case. *)
Definition rounds_left (n_revision i : Z) : nat :=
  Z.to_nat (Z.max 1 (n_revision + 2 - i)).

(* ================================================================== *)
(** ** The invariant of the histories *)




(* ================================================================== *)
(** ** The transitions of a round, in the words of the specification *)




(** The lockstep lists of a state and an answer of the backend fit together:
    one entry per candidate everywhere, a first snapshot and a first score in
    every history, and distinct keys. *)
Definition well_formed (data_key : list string) (best_edit : list string)
           (ppl : list Q) (st : loop_state) : Prop :=
  length ppl = length best_edit
  /\ length (edit st) = length best_edit
  /\ length (edit_ppl st) = length best_edit
  /\ length (data_index st) = length best_edit
  /\ Forall (fun e => e <> []) (edit st)
  /\ Forall (fun p => p <> []) (edit_ppl st)
  /\ Forall (fun d => d < length data_key) (data_index st)
  /\ (forall vs, vocab_to_keep st = Some vs -> vs <> [] ->
                 length vs = length best_edit)
  /\ NoDup (map (fun d => nth d data_key "") (data_index st)).

(** A candidate whose best sentence is its last snapshot "dog is cat" while
    the backend scores it lower than before. *)
Definition settled_state : loop_state :=
  mk_state ["dog is cat"] [["dog [MASK] cat"; "dog is cat"]] [[5 # 1]] [0]
           (Some [["dog"; "cat"]]) [].

(** The positions whose best sentence is the last snapshot, and those whose
    score went strictly down, computed without the checks of the indexing. *)
Definition fixed_positions (best_edit : list string) (st : loop_state) : list nat :=
  filter (fun x => String.eqb (nth x best_edit "") (last (nth x (edit st) []) ""))
         (seq 0 (length best_edit)).

Definition improved_positions (best_edit : list string) (ppl : list Q)
           (st : loop_state) : list nat :=
  filter (fun x => Qltb (nth x ppl 0%Q) (last (nth x (edit_ppl st) []) 0%Q))
         (seq 0 (length best_edit)).

(** The state after a round when no lookup can fail. *)
Definition round_closed_form (data_key : list string) (best_edit : list string)
           (ppl : list Q) (st : loop_state) : loop_state :=
  let fixed := fixed_positions best_edit st in
  let unfixed := improved_positions best_edit ppl st in
  mk_state
    (map (fun x => nth x best_edit "") unfixed)
    (map (fun x => nth x (edit st) [] ++ [nth x best_edit ""]) unfixed)
    (map (fun x => nth x (edit_ppl st) [] ++ [nth x ppl 0%Q]) unfixed)
    (map (fun x => nth x (data_index st) 0) unfixed)
    (match vocab_to_keep st with
     | Some (v :: vs) => Some (map (fun x => nth x (v :: vs) []) unfixed)
     | other => other
     end)
    (dict_update (output_dict st)
       (map (fun x => (nth (nth x (data_index st) 0) data_key "",
                       (nth x (edit st) [], nth x (edit_ppl st) [])))
            fixed)).

(** The key [k] is in the output map of [st] or is the key of a candidate
    still active in [st]. *)
Definition key_known (data_key : list string) (st : loop_state) (k : string) : Prop :=
  dict_get (output_dict st) k <> None
  \/ exists d, In d (data_index st) /\ nth_error data_key d = Some k.

(** One of the letters M, A, S, K. *)
Definition mask_letter (c : ascii) : bool :=
  existsb (Ascii.eqb c) (chars "MASK").

(** The part of [well_formed] that speaks of the state alone. *)
Definition state_ok (data_key : list string) (st : loop_state) : Prop :=
  length (edit st) = length (seed_sentences st)
  /\ length (edit_ppl st) = length (seed_sentences st)
  /\ length (data_index st) = length (seed_sentences st)
  /\ Forall (fun e => e <> []) (edit st)
  /\ Forall (fun p => p <> []) (edit_ppl st)
  /\ Forall (fun d => d < length data_key) (data_index st)
  /\ (forall vs, vocab_to_keep st = Some vs -> vs <> [] ->
                 length vs = length (seed_sentences st))
  /\ NoDup (map (fun d => nth d data_key "") (data_index st)).

(* ================================================================== *)
(** ** A stub backend for the whole pipeline *)

(** One encoding per sentence: the sentence itself. *)
Definition stub_encoding (sentence : string) : result (list string) :=
  Ok [sentence].

(** The model ranks "is" first at the first mask; without a mask it predicts
    the sentence as it stands. *)
Definition stub_fills (sentence : string) : list (list entry) :=
  [[(if contains "[MASK]" sentence
     then replace_first "[MASK]" "is" sentence
     else sentence,
     1 # 1)]].

(** Every sentence is scored 7. *)
Definition stub_perplexity (sentences : list string) : list Q :=
  map (fun _ => 7 # 1) sentences.

(** [replace_single_token] over the stub backend, as [generate] calls it. *)
Definition stub_replace_single_token (t : nat) (seeds : list string)
           (vocab : option (list (list string))) (topk : nat)
  : result (list string * list Q) :=
  replace_single_token "[MASK]" first_occurrence stub_encoding stub_fills
                       stub_perplexity seeds vocab topk.

(* ================================================================== *)
(** ** The keys of the candidates *)

(** The values of the dictionary [data_key] of [generate], lines 249 and 256:
    the seed sentences themselves, or the word pairs joined by "||". *)
Definition candidate_keys (word_pairs : word_pairs_arg) (seeds : seed_sentences_arg)
  : list string :=
  if ss_truthy seeds then
    match seeds with
    | SS_str s => [s]
    | SS_list l => l
    | SS_None => []
    end
  else
    map (String.concat "||")
        (match word_pairs with
         | WP_pair p => [p]
         | WP_list ps => ps
         | WP_None => []
         end).

(** A backend that answers with no sentence at all. *)
Definition silent_backend (t : nat) (seeds : list string)
           (vocab : option (list (list string))) (topk : nat)
  : result (list string * list Q) :=
  Ok ([], []).

(* ================================================================== *)
(** ** Histories that grow during the revision *)

(** Each score of [ext], read in order, is strictly below the one before it,
    the first being strictly below [q]. *)
Fixpoint decreasing_from (q : Q) (ext : list Q) : Prop :=
  match ext with
  | [] => True
  | y :: t => (y < q)%Q /\ decreasing_from y t
  end.

(** [h] is [h0] with as many snapshots as scores appended, the appended scores
    going strictly down from the last score of [h0]. *)
Definition continues (h0 h : history) : Prop :=
  exists es ext,
    fst h = fst h0 ++ es /\ snd h = snd h0 ++ ext
    /\ length es = length ext
    /\ (ext = [] \/ (snd h0 <> [] /\ decreasing_from (last (snd h0) 0%Q) ext)).

(** Every active candidate of [st] is a candidate of [st0] whose histories
    were continued. *)
Definition descends (st0 st : loop_state) : Prop :=
  forall y d e p,
    nth_error (data_index st) y = Some d ->
    nth_error (edit st) y = Some e ->
    nth_error (edit_ppl st) y = Some p ->
    exists x e0 p0,
      nth_error (data_index st0) x = Some d
      /\ nth_error (edit st0) x = Some e0
      /\ nth_error (edit_ppl st0) x = Some p0
      /\ continues (e0, p0) (e, p).

(** An entry of the output map holds, under the key of a candidate of [st0],
    a continuation of that candidate's histories. *)
Definition entry_descends (data_key : list string) (st0 : loop_state)
           (kv : string * history) : Prop :=
  exists x d e0 p0,
    nth_error (data_index st0) x = Some d
    /\ nth_error data_key d = Some (fst kv)
    /\ nth_error (edit st0) x = Some e0
    /\ nth_error (edit_ppl st0) x = Some p0
    /\ continues (e0, p0) (snd kv).

(* ================================================================== *)
(** ** The relaxed check on literal terms *)

(** [w] stands at some position of [s], inside a longer word or not. *)
Fixpoint stands_in (w s : list ascii) : bool :=
  is_prefix w s ||
  match s with
  | [] => false
  | _ :: t => stands_in w t
  end.

(* ================================================================== *)
(** ** The encoder ([EncodePlus], [get_encoding]) and the scorer
       ([Prompter.get_perplexity])

    The tokenizer is a record of the methods and attributes that the code
    uses.  In the scorer the losses are rationals: the quotients and the sum
    of lines 469 and 472 are those of [Q], and [math.exp] is a function of the
    environment that may raise. *)

Module Encoder.

(** [nn.CrossEntropyLoss().ignore_index]. *)
Definition PAD_TOKEN_LABEL_ID : Z := (-100)%Z.

(** The output of [tokenizer.encode_plus]: the input ids, the other entries
    (attention mask, token type ids) and the labels once set. *)
Record BatchEncoding : Type := mk_encoding {
  input_ids : list Z;
  others : list (string * list Z);
  labels : option (list Z)
}.

Record Tokenizer : Type := mk_tokenizer {
  mask_token : string;
  mask_token_id : Z;
  pad_token_id : Z;
  model_max_length : Z;
  tokenize : string -> list string;
  encode : string -> list Z;
  convert_ids_to_tokens : list Z -> list string;
  (** on one token *)
  convert_tokens_to_ids : string -> Z;
  convert_tokens_to_string : list string -> string;
  (** [encode_plus(sentence, max_length=m, truncation=True,
      padding='max_length')] *)
  encode_plus : string -> Z -> BatchEncoding
}.

(** The attributes that [EncodePlus.__init__] sets. *)
Record EncodePlus : Type := mk_EncodePlus {
  tokenizer : Tokenizer;
  token_wise_mask : option bool;
  max_length : Z;
  sp_token_prefix : list string
}.

(** [l.index(x)] on a list of strings. *)
Fixpoint list_index (x : string) (l : list string) : result nat :=
  match l with
  | [] => Raise (ValueError "x is not in list")
  | y :: t => if String.eqb y x then Ok 0 else i <- list_index x t ;; Ok (S i)
  end.

(** [EncodePlus.__init__], lines 53-63; [if max_length:] is false for [None]
    and for [0]. *)
Definition init (tk : Tokenizer) (max_length_arg : option Z)
           (token_wise_mask_arg : option bool) : result EncodePlus :=
  m <- match max_length_arg with
       | None => Ok (model_max_length tk)
       | Some m =>
           if (m =? 0)%Z then Ok (model_max_length tk)
           else if (m <=? model_max_length tk)%Z then Ok m
                else Raise (AssertionError "self.max_length < max_length")
       end ;;
  let tokens := tokenize tk "get tokenizer specific prefix" in
  let tokens_encode :=
    convert_ids_to_tokens tk (encode tk "get tokenizer specific prefix") in
  t0 <- index tokens 0 ;;
  i <- list_index t0 tokens_encode ;;
  Ok (mk_EncodePlus tk token_wise_mask_arg m (firstn i tokens_encode)).

(** The list [l] with [a] at position [n]. *)
Fixpoint set_nth {A} (l : list A) (n : nat) (a : A) : list A :=
  match l, n with
  | [], _ => []
  | _ :: t, O => a :: t
  | x :: t, S k => x :: set_nth t k a
  end.

(** [l[p] = a]: a negative [p] counts from the end; outside the list the
    assignment raises. *)
Definition setitem {A} (l : list A) (p : Z) (a : A) : result (list A) :=
  let n := Z.of_nat (length l) in
  let q := if (p <? 0)%Z then (p + n)%Z else p in
  if (0 <=? q)%Z && (q <? n)%Z then Ok (set_nth l (Z.to_nat q) a)
  else Raise IndexError.

(** [EncodePlus.input_ids_to_labels], lines 65-85.  [len(None)] raises
    [TypeError]. *)
Definition input_ids_to_labels (tk : Tokenizer) (ids : list Z)
           (label_position label_id : option (list Z)) : result (list Z) :=
  match label_position, label_id with
  | None, None =>
      Ok (map (fun x => if (x =? pad_token_id tk)%Z then PAD_TOKEN_LABEL_ID else x)
              ids)
  | Some ps, Some ls =>
      if length ps =? length ls then
        fold_left (fun acc pi => label <- acc ;; setitem label (fst pi) (snd pi))
                  (combine ps ls)
                  (Ok (repeat PAD_TOKEN_LABEL_ID (length ids)))
      else Raise (AssertionError "len(label_position) != len(label_id)")
  | _, _ => Raise TypeError
  end.

(** [encode_with_single_mask_id], lines 109-122. *)
Definition encode_with_single_mask_id (self : EncodePlus) (token_list : list string)
           (mask_position : nat) : result (option BatchEncoding) :=
  let tk := tokenizer self in
  token <- index token_list mask_position ;;
  let masked_token_id := convert_tokens_to_ids tk token in
  if (masked_token_id =? mask_token_id tk)%Z then Ok None
  else
    let _token_list := set_nth token_list mask_position (mask_token tk) in
    let tmp_string := convert_tokens_to_string tk _token_list in
    let _encode := encode_plus tk tmp_string (max_length self) in
    last_id <- last_item (input_ids _encode) ;;
    if (last_id =? pad_token_id tk)%Z then
      label <- input_ids_to_labels
                 tk (input_ids _encode)
                 (Some [(Z.of_nat mask_position
                         + Z.of_nat (length (sp_token_prefix self)))%Z])
                 (Some [masked_token_id]) ;;
      Ok (Some (mk_encoding (input_ids _encode) (others _encode) (Some label)))
    else Raise (AssertionError "exceeded max_length").

(** Lines 96-99: the mode of a call.  The argument [token_wise_mask] of
    [__call__] is overwritten on either branch. *)
Definition token_wise (self : EncodePlus) (sentence : string) : bool :=
  match token_wise_mask self with
  | Some b => b
  | None => negb (contains (mask_token (tokenizer self)) sentence)
  end.

(** [EncodePlus.__call__], lines 87-125. *)
Definition call (self : EncodePlus) (sentence : string)
  : result (list BatchEncoding) :=
  let tk := tokenizer self in
  if negb (token_wise self sentence) then
    if contains (mask_token tk) sentence then
      let encode := encode_plus tk sentence (max_length self) in
      last_id <- last_item (input_ids encode) ;;
      if (last_id =? pad_token_id tk)%Z then Ok [encode]
      else Raise (AssertionError "exceeded max_length")
    else Raise (AssertionError "sentence has no masks")
  else
    let token_list := tokenize tk sentence in
    let length_ :=
      Z.min (max_length self - Z.of_nat (length (sp_token_prefix self)))
            (Z.of_nat (length token_list)) in
    r <- mapM (encode_with_single_mask_id self token_list)
              (seq 0 (Z.to_nat length_)) ;;
    Ok (filter_none r).

(** [get_encoding], lines 34-37; [pool_map] keeps the order of the
    sentences. *)
Definition get_encoding (sentences : list string) (tk : Tokenizer)
           (max_length_arg : option Z) (token_wise_mask_arg : option bool)
  : result (list (list BatchEncoding)) :=
  p <- init tk max_length_arg token_wise_mask_arg ;;
  mapM (call p) sentences.

(** *** The scorer *)

(** What a call of [get_perplexity] comes to: a value, an exception of the
    encoder, or the division by zero of line 469 or 472. *)
Inductive outcome (A : Type) : Type :=
| Returns (a : A)
| Raises (e : exn)
| RaisesZeroDivisionError.

Arguments Returns {A} a.
Arguments Raises {A} e.
Arguments RaisesZeroDivisionError {A}.

Definition lift {A} (m : result A) : outcome A :=
  match m with
  | Ok a => Returns a
  | Raise e => Raises e
  end.

Definition obind {A B} (m : outcome A) (f : A -> outcome B) : outcome B :=
  match m with
  | Returns a => f a
  | Raises e => Raises e
  | RaisesZeroDivisionError => RaisesZeroDivisionError
  end.

Fixpoint omap {A B} (f : A -> outcome B) (l : list A) : outcome (list B) :=
  match l with
  | [] => Returns []
  | a :: t => obind (f a) (fun b => obind (omap f t) (fun bs => Returns (b :: bs)))
  end.

(** [sentences] is a string or a list of strings. *)
Inductive sentences_arg : Type :=
| One (s : string)
| Many (l : list string).

(** [sum(l)] on floats: from the left, starting at 0. *)
Definition py_sum (l : list Q) : Q := fold_left Qplus l 0%Q.

(** [sum(map(lambda y: y != PAD_TOKEN_LABEL_ID, label))]. *)
Definition count_labels (label : list Z) : nat :=
  length (filter (fun y => negb (y =? PAD_TOKEN_LABEL_ID)%Z) label).

Section Scorer.

Variable tk : Tokenizer.
(** [Prompter.max_length]. *)
Variable max_length_arg : option Z.
(** For one encoding without its labels, and its labels: the sum over the
    positions of the cross-entropy of the model's logits, as [loss_fct] with
    [reduction='none'] followed by [torch.sum] gives it (lines 463-467). *)
Variable loss : BatchEncoding -> Q.
(** [math.exp]. *)
Variable math_exp : Q -> outcome Q.

(** Line 469 for one encoding of the batch. *)
Definition nll_of (e : BatchEncoding) : outcome Q :=
  match labels e with
  | None => Raises KeyError
  | Some label =>
      match count_labels label with
      | O => RaisesZeroDivisionError
      | S k => Returns (loss e / inject_Z (Z.of_nat (S k)))%Q
      end
  end.

(** Line 472 for one range of the partition. *)
Definition mean_exp (nll : list Q) (x : nat * nat) : outcome Q :=
  match snd x - fst x with
  | O => RaisesZeroDivisionError
  | S k =>
      math_exp (py_sum (slice (fst x) (snd x) nll) / inject_Z (Z.of_nat (S k)))%Q
  end.

(** [Prompter.get_perplexity], lines 442-472.  The batches of the data loader
    are read in order and none is dropped. *)
Definition get_perplexity (sentences : sentences_arg) : outcome (list Q) :=
  let sentences :=
    match sentences with
    | One s => [s]
    | Many l => l
    end in
  obind (lift (get_encoding sentences tk max_length_arg (Some true))) (fun data =>
  let partition := get_partition data in
  obind (omap nll_of (concat data)) (fun nll =>
  omap (mean_exp nll) partition)).

(** Lines 469 and 472 on the encodings of one sentence alone. *)
Definition sentence_score (d : list BatchEncoding) : outcome Q :=
  obind (omap nll_of d) (fun nll => mean_exp nll (0, length d)).

End Scorer.

End Encoder.

(** *** A small tokenizer to run the encoder on

    Words are cut at blanks; the id of a word is its place in a list of
    twelve; an encoding is [CLS], the words, [SEP], cut or padded with [PAD]
    to the length asked for. *)

Definition toy_vocab : list string :=
  ["[PAD]"; "[CLS]"; "[SEP]"; "[MASK]"; "[UNK]"; "get"; "tokenizer"; "specific";
   "prefix"; "dog"; "is"; "cat"].

Fixpoint toy_place (token : string) (vocab : list string) (n : Z) : Z :=
  match vocab with
  | [] => 4%Z
  | w :: t => if String.eqb w token then n else toy_place token t (n + 1)%Z
  end.

Definition toy_id (token : string) : Z := toy_place token toy_vocab 0%Z.

Definition toy_token (id : Z) : string := nth (Z.to_nat id) toy_vocab "[UNK]".

(** [cur] is the word being read. *)
Fixpoint toy_words (s cur : string) : list string :=
  match s with
  | EmptyString => if String.eqb cur "" then [] else [cur]
  | String c t =>
      if Ascii.eqb c " "
      then (if String.eqb cur "" then toy_words t "" else cur :: toy_words t "")
      else toy_words t (cur ++ String c "")%string
  end.

Definition toy_encode (s : string) : list Z :=
  (1 :: map toy_id (toy_words s "") ++ [2])%Z.

Definition toy_encode_plus (s : string) (m : Z) : Encoder.BatchEncoding :=
  let ids := toy_encode s in
  Encoder.mk_encoding
    (firstn (Z.to_nat m) ids ++ repeat 0%Z (Z.to_nat m - length ids)) [] None.

Definition toy_tokenizer : Encoder.Tokenizer :=
  Encoder.mk_tokenizer "[MASK]" 3 0 16 (fun s => toy_words s "") toy_encode
                       (map toy_token) toy_id (String.concat " ") toy_encode_plus.

(** The loss of an encoding: the number of its input ids that are not
    [PAD]. *)
Definition toy_loss (e : Encoder.BatchEncoding) : Q :=
  inject_Z (Z.of_nat (length (filter (fun x => negb (x =? 0)%Z)
                                     (Encoder.input_ids e)))).

(** In place of [math.exp]: the identity. *)
Definition toy_exp (x : Q) : Encoder.outcome Q := Encoder.Returns x.

(* ================================================================== *)
(** ** ASCII text *)

(** Every character of [s] is an ASCII character (a code below 128): on such
    text the word characters of [re] are those of [PyRe.is_word]. *)
Definition ascii_text (s : string) : Prop :=
  forallb (fun c => nat_of_ascii c <? 128) (chars s) = true.

(* ================================================================== *)
(** ** Scores that come from a scorer

    [replace_single_token] returns, with each sentence, the perplexity that
    [get_perplexity] gives that sentence (lines 426-432), and [generate]
    records each snapshot with the score returned with it (lines 268-269,
    294-295). *)








(* ================================================================== *)
(** * Properties *)

(** ** The partitioner *)

Section PartitionFacts.

Context {A : Type}.

(** The partition of [g :: gs] is the range of [g] followed by the
    partition of [gs] moved right by the length of [g]. *)
Lemma get_partition_cons (g : list A) (gs : list (list A)) :
  get_partition (g :: gs)
  = (0, length g)
      :: map (fun se => (length g + fst se, length g + snd se)) (get_partition gs).
Proof.
  unfold get_partition. cbn [length map seq].
  f_equal.
  - cbn. now rewrite Nat.add_0_r.
  - rewrite <- seq_shift, !map_map.
    apply map_ext. intros x. reflexivity.
Qed.

Lemma get_partition_length (gs : list (list A)) :
  length (get_partition gs) = length gs.
Proof. unfold get_partition. now rewrite length_map, length_seq. Qed.

Lemma slice_app_shift {B} (pre rest : list B) (s e : nat) :
  slice (length pre + s) (length pre + e) (pre ++ rest) = slice s e rest.
Proof.
  unfold slice.
  replace (length pre + e - (length pre + s)) with (e - s) by lia.
  f_equal.
  rewrite skipn_app, skipn_all2 by lia.
  cbn. f_equal. lia.
Qed.

Lemma slice_prefix {B} (pre rest : list B) :
  slice 0 (length pre) (pre ++ rest) = pre.
Proof.
  unfold slice. cbn. rewrite Nat.sub_0_r, firstn_app, Nat.sub_diag.
  cbn. now rewrite firstn_all, app_nil_r.
Qed.

(** Regrouping by the partition of [groups] any flat list that holds, group
    after group, as many results as [groups] has items. *)
Lemma regroup_concat {B} (groups : list (list A)) :
  forall results : list (list B),
    map (@length B) results = map (@length A) groups ->
    regroup (concat results) (get_partition groups) = results.
Proof.
  induction groups as [|g gs IH]; intros [|r rs] Hlen; try discriminate.
  - reflexivity.
  - cbn in Hlen. injection Hlen as Hr Hrs.
    rewrite get_partition_cons. cbn [concat]. unfold regroup in *.
    cbn [map fst snd]. rewrite <- Hr, slice_prefix. f_equal.
    rewrite map_map. cbn [fst snd].
    transitivity (map (fun se => slice (fst se) (snd se) (concat rs))
                      (get_partition gs)); [|now apply IH].
    apply map_ext. intros [s e]. cbn [fst snd]. apply slice_app_shift.
Qed.

End PartitionFacts.

Lemma firstn_succ_nth {A} (d : A) (l : list A) (i : nat) :
  i < length l -> firstn (S i) l = firstn i l ++ [nth i l d].
Proof.
  revert i. induction l as [|a l IH]; intros i Hi; cbn in Hi; [lia|].
  destruct i as [|i]; [reflexivity|].
  cbn [firstn nth app]. f_equal. apply IH. lia.
Qed.

(** C6.  Flattening a list of groups and regrouping by the partition map that
    [get_partition] computes gives the groups back; the same holds for any
    per-item results computed from the flat list; and range [i] of the
    partition map starts at the sum of the lengths of the groups before [i]
    and is as long as group [i].  Nothing is asked of the lengths of the
    groups. *)
Theorem partition_round_trip {A B : Type} (groups : list (list A)) :
  regroup (concat groups) (get_partition groups) = groups
  /\ (forall f : A -> B,
         regroup (map f (concat groups)) (get_partition groups)
         = map (map f) groups)
  /\ get_partition groups
     = map (fun i =>
              let start := list_sum (map (@length A) (firstn i groups)) in
              (start, start + length (nth i groups [])))
           (seq 0 (length groups)).
Proof.
  split; [|split].
  - now apply regroup_concat.
  - intros f. rewrite concat_map. apply regroup_concat.
    rewrite map_map. apply map_ext. intros g. apply length_map.
  - unfold get_partition. apply map_ext_in. intros i Hi.
    apply in_seq in Hi. cbn zeta.
    rewrite Nat.add_1_r, (firstn_succ_nth 0) by (rewrite length_map; lia).
    rewrite list_sum_app, firstn_map.
    replace (nth i (map (@length A) groups) 0) with (length (nth i groups []))
      by (symmetry; apply (map_nth (@length A) groups [] i)).
    unfold list_sum at 3. cbn [fold_right]. now rewrite Nat.add_0_r.
Qed.

(* ================================================================== *)
(** ** Scores: the boolean comparisons *)

Lemma Qltb_true (a b : Q) : Qltb a b = true <-> (a < b)%Q.
Proof.
  unfold Qltb. rewrite negb_true_iff.
  split; intros H.
  - apply Qnot_le_lt. intros Hle. apply Qle_bool_iff in Hle. congruence.
  - destruct (Qle_bool b a) eqn:E; [|reflexivity].
    apply Qle_bool_iff in E. exfalso. apply (Qlt_not_le _ _ H E).
Qed.

Lemma Qltb_false (a b : Q) : Qltb a b = false <-> (b <= a)%Q.
Proof.
  unfold Qltb. rewrite negb_false_iff. apply Qle_bool_iff.
Qed.

(* ================================================================== *)
(** ** The perplexity re-ranker *)

Section RerankFacts.




End RerankFacts.



(* ================================================================== *)
(** ** Deduplication and ordering of a shortlist *)

Section DedupFacts.

(** The running best is one of the entries seen and no entry seen has a
    larger likelihood. *)
Lemma fold_max_spec (t : list entry) :
  forall x : entry,
    let b := fold_left keep_max t x in
    In b (x :: t) /\ (snd x <= snd b)%Q /\ forall y, In y t -> (snd y <= snd b)%Q.
Proof.
  induction t as [|a t IH]; intros x; cbn [fold_left].
  - cbn. repeat split; [now left | apply Qle_refl | tauto].
  - assert (Hk : (snd x <= snd (keep_max x a))%Q /\ (snd a <= snd (keep_max x a))%Q
                 /\ (keep_max x a = x \/ keep_max x a = a)).
    { unfold keep_max. destruct (Qltb (snd x) (snd a)) eqn:E.
      - apply Qltb_true in E. repeat split;
          [now apply Qlt_le_weak | apply Qle_refl | now right].
      - apply Qltb_false in E. repeat split;
          [apply Qle_refl | exact E | now left]. }
    destruct Hk as (Hkx & Hka & Hk).
    destruct (IH (keep_max x a)) as (Hin & Hle & Hall).
    repeat split.
    + destruct Hin as [Hin|Hin]; [|right; right; exact Hin].
      rewrite <- Hin. destruct Hk as [->| ->]; [now left | right; now left].
    + now apply Qle_trans with (snd (keep_max x a)).
    + intros y [<-|Hy]; [now apply Qle_trans with (snd (keep_max x a)) | now apply Hall].
Qed.

Lemma max_likelihood_spec (l : list entry) :
  l <> [] ->
  exists b, max_likelihood l = Ok b /\ In b l
            /\ forall y, In y l -> (snd y <= snd b)%Q.
Proof.
  destruct l as [|x t]; [congruence|]. intros _.
  destruct (fold_max_spec t x) as (Hin & Hle & Hall).
  eexists. split; [reflexivity|]. split; [exact Hin|].
  intros y [<-|Hy]; [exact Hle | now apply Hall].
Qed.

Lemma insert_desc_perm (x : entry) (l : list entry) :
  Permutation (insert_desc x l) (x :: l).
Proof.
  induction l as [|y t IH]; cbn [insert_desc]; [reflexivity|].
  destruct (Qltb (snd x) (snd y)); [|reflexivity].
  rewrite IH. apply perm_swap.
Qed.

Lemma insert_desc_sorted (x : entry) (l : list entry) :
  StronglySorted desc l -> StronglySorted desc (insert_desc x l).
Proof.
  induction 1 as [|y t Hs IH Hy]; cbn [insert_desc].
  - repeat constructor.
  - destruct (Qltb (snd x) (snd y)) eqn:E.
    + constructor; [exact IH|].
      apply Forall_forall. intros z Hz.
      apply (Permutation_in _ (insert_desc_perm x t)) in Hz.
      destruct Hz as [<-|Hz].
      * apply Qltb_true in E. now apply Qlt_le_weak.
      * rewrite Forall_forall in Hy. now apply Hy.
    + apply Qltb_false in E.
      constructor; [now constructor|].
      constructor; [exact E|].
      eapply Forall_impl; [|exact Hy].
      intros z Hz. unfold desc in *. now apply Qle_trans with (snd y).
Qed.

Lemma sorted_desc_perm (l : list entry) : Permutation (sorted_desc l) l.
Proof.
  induction l as [|x l IH]; cbn; [reflexivity|].
  rewrite insert_desc_perm. now constructor.
Qed.

Lemma sorted_desc_sorted (l : list entry) : StronglySorted desc (sorted_desc l).
Proof.
  induction l as [|x l IH]; cbn; [constructor | now apply insert_desc_sorted].
Qed.

(** Picking, for each text in turn, the best entry that carries it. *)
Lemma keep_best_spec (l : list entry) (texts : list string) :
  (forall d, In d texts -> In d (map fst l)) ->
  exists kept,
    mapM (fun d => max_likelihood (filter (fun x => String.eqb (fst x) d) l)) texts
    = Ok kept
    /\ map fst kept = texts
    /\ forall p, In p kept ->
                 In p l /\ forall q, In q l -> fst q = fst p -> (snd q <= snd p)%Q.
Proof.
  induction texts as [|d texts IH]; intros Hsub.
  - exists []. cbn. repeat split; tauto.
  - destruct IH as (kept & Hk & Hfst & Hbest);
      [intros d' Hd'; apply Hsub; now right|].
    assert (Hne : filter (fun x => String.eqb (fst x) d) l <> []).
    { specialize (Hsub d (or_introl eq_refl)).
      apply in_map_iff in Hsub. destruct Hsub as (p & Hp & Hin).
      intros Hnil.
      assert (Hf : In p (filter (fun x => String.eqb (fst x) d) l))
        by (apply filter_In; split; [exact Hin | now apply String.eqb_eq]).
      rewrite Hnil in Hf. destruct Hf. }
    destruct (max_likelihood_spec Hne) as (b & Hb & Hin & Hmax).
    apply filter_In in Hin. destruct Hin as (Hin & Hd).
    apply String.eqb_eq in Hd.
    exists (b :: kept). cbn [mapM]. rewrite Hb. cbn [bind]. rewrite Hk. cbn [bind].
    split; [reflexivity|]. split; [cbn; congruence|].
    intros p [<-|Hp]; [|now apply Hbest].
    split; [exact Hin|]. intros q Hq Heq. apply Hmax.
    apply filter_In. split; [exact Hq|]. apply String.eqb_eq. congruence.
Qed.

Lemma firstn_min_length {A} (k : nat) (l : list A) :
  firstn (Nat.min k (length l)) l = firstn k l.
Proof.
  destruct (Nat.le_ge_cases k (length l)) as [H|H].
  - now rewrite Nat.min_l.
  - rewrite Nat.min_r by exact H. now rewrite firstn_all, firstn_all2.
Qed.

End DedupFacts.

(** C5.  Whatever the order [texts] in which the set of decoded sentences is
    iterated, deduplication keeps exactly one pair per distinct sentence, that
    pair is one of the given pairs and no given pair with the same sentence has
    a larger likelihood; the result is ordered by descending likelihood; the
    shortlist is the sentences of its first [topk] pairs.  The example of the
    specification evaluates as stated. *)
Theorem drop_duplicated_spec :
  (forall (texts : list string) (topk_edit : list entry) (topk : nat),
      topk_edit <> [] ->
      enumerates texts (map fst topk_edit) ->
      exists out short,
        drop_duplicated texts topk_edit = Ok out
        /\ shortlist topk out = Ok short
        /\ NoDup (map fst out)
        /\ (forall d, In d (map fst out) <-> In d (map fst topk_edit))
        /\ (forall p, In p out ->
                      In p topk_edit
                      /\ forall q, In q topk_edit -> fst q = fst p ->
                                   (snd q <= snd p)%Q)
        /\ StronglySorted desc out
        /\ short = map fst (firstn topk out)
        /\ length short <= topk)
  /\ (forall texts : list string,
         enumerates texts (map fst fox_entries) ->
         drop_duplicated texts fox_entries
         = Ok [("a fox ran", 9 # 10); ("a fox sat", 7 # 10)]).
Proof.
  split.
  - intros texts topk_edit topk Hne (Hnd & Hmem).
    destruct (@keep_best_spec topk_edit texts) as (kept & Hk & Hfst & Hbest);
      [intros d Hd; now apply Hmem|].
    assert (Hperm : Permutation (sorted_desc kept) kept) by apply sorted_desc_perm.
    assert (Hout : sorted_desc kept <> []).
    { intros Hnil. rewrite Hnil in Hperm. apply Permutation_nil in Hperm.
      subst kept. cbn in Hfst. subst texts.
      destruct topk_edit as [|p l]; [congruence|].
      apply (proj2 (Hmem (fst p))). now left. }
    exists (sorted_desc kept), (map fst (firstn topk (sorted_desc kept))).
    split.
    { unfold drop_duplicated. destruct topk_edit; [congruence|].
      rewrite Hk. reflexivity. }
    split.
    { unfold shortlist. destruct (sorted_desc kept) eqn:E; [congruence|].
      replace (length (e :: l)) with (length (map fst (e :: l)))
        by apply length_map.
      now rewrite firstn_min_length, firstn_map. }
    assert (Hpfst : Permutation (map fst (sorted_desc kept)) texts)
      by (rewrite <- Hfst; now apply Permutation_map).
    split; [eapply Permutation_NoDup; [symmetry; exact Hpfst | exact Hnd]|].
    split.
    { intros d. rewrite <- Hmem. split; apply Permutation_in;
        [exact Hpfst | symmetry; exact Hpfst]. }
    split.
    { intros p Hp. apply Hbest. eapply Permutation_in; eassumption. }
    split; [apply sorted_desc_sorted|].
    split; [reflexivity|].
    rewrite length_map, length_firstn. apply Nat.le_min_l.
  - intros texts (Hnd & Hmem).
    assert (Hperm : Permutation ["a fox ran"; "a fox sat"] texts).
    { apply NoDup_Permutation; [|exact Hnd|].
      - repeat constructor; cbn; intuition discriminate.
      - intros d. rewrite Hmem. cbn. tauto. }
    apply Permutation_length_2_inv in Hperm.
    destruct Hperm as [-> | ->]; reflexivity.
Qed.

(** The example list with its set iterated in order of first occurrence. *)
Lemma drop_duplicated_spec_witness :
  exists out short,
    drop_duplicated ["a fox ran"; "a fox sat"] fox_entries = Ok out
    /\ shortlist 10 out = Ok short
    /\ NoDup (map fst out)
    /\ (forall d, In d (map fst out) <-> In d (map fst fox_entries))
    /\ (forall p, In p out ->
                  In p fox_entries
                  /\ forall q, In q fox_entries -> fst q = fst p ->
                               (snd q <= snd p)%Q)
    /\ StronglySorted desc out
    /\ short = map fst (firstn 10 out)
    /\ length short <= 10.
Proof.
  apply (proj1 drop_duplicated_spec ["a fox ran"; "a fox sat"] fox_entries 10).
  - discriminate.
  - split.
    + repeat constructor; cbn; intuition discriminate.
    + intros d. cbn. tauto.
Defined.

(* ================================================================== *)
(** ** The fallback ladder *)

Section LadderFacts.

Variable psp : nat -> bool -> result (list entry).
Variable topk : nat.
Variable vocab : option (list (list string)).
Variable seeds : list string.
Variable n : nat.

Ltac ladder_cases :=
  unfold fallback_ladder, escalate, warn_subword, topk_per_position;
  destruct (psp topk false) as [[|x1 r1]|e1] eqn:E1;
  destruct (Nat.ltb_spec topk 100) as [Ek|Ek];
  destruct (psp 100 false) as [[|x2 r2]|e2] eqn:E2;
  destruct (psp 100 true) as [[|x3 r3]|e3] eqn:E3;
  destruct vocab as [vs|]; try destruct (nth_error vs n);
  cbn [fst snd app].

(** The ladder starts with the strict check over the top [topk] predictions;
    a later stage runs only after every stage before it came back empty. *)
Lemma fallback_ladder_escalates :
  exists rest,
    fst (fallback_ladder psp topk vocab seeds n) = StageRun topk false :: rest
    /\ (In (StageRun 100 false) rest -> psp topk false = Ok [] /\ topk < 100)
    /\ (In (StageRun 100 true) rest ->
        psp topk false = Ok [] /\ (topk < 100 -> psp 100 false = Ok [])).
Proof.
  ladder_cases; eexists; (split; [reflexivity|]); cbn [In];
    repeat split; intros; try lia;
    repeat match goal with
           | H : _ \/ _ |- _ => destruct H
           | H : False |- _ => destruct H
           | H : StageRun _ _ = StageRun _ _ |- _ => inversion H; clear H
           | H : SubwordWarning _ _ = StageRun _ _ |- _ => discriminate H
           end; try congruence; try lia.
Qed.

(** A shortlist that leaves the ladder is never empty. *)
Lemma fallback_ladder_nonempty (l : list entry) :
  snd (fallback_ladder psp topk vocab seeds n) = Ok l -> l <> [].
Proof. ladder_cases; intros H; inversion H; discriminate. Qed.

(** When every stage comes back empty, line 414 is reached. *)
Lemma fallback_ladder_exhausted :
  psp topk false = Ok [] -> psp 100 false = Ok [] -> psp 100 true = Ok [] ->
  snd (fallback_ladder psp topk vocab seeds n)
  = Raise (no_valid_sentence vocab seeds n).
Proof. ladder_cases; intros; try discriminate; reflexivity. Qed.

End LadderFacts.

(** With a vocabulary and a sentence for the candidate, line 414 raises the
    [ValueError] that carries both. *)
Lemma no_valid_sentence_reports (vs : list (list string)) (seeds : list string)
      (n : nat) (v : list string) (s : string) :
  nth_error vs n = Some v -> nth_error seeds n = Some s ->
  no_valid_sentence (Some vs) seeds n = ValueError_no_valid_sentence v s.
Proof. intros Hv Hs. unfold no_valid_sentence. now rewrite Hv, Hs. Qed.

(** C4.  The ladder on a candidate for which every stage comes back empty
    while no vocabulary was passed ([vocab_to_keep=None], the default): all
    three stages run in order, and building the message of line 414 raises
    [TypeError] from [vocab_to_keep[partition_n]]; the [ValueError] that
    reports vocabulary and prompt is raised when a vocabulary is there.
    [replace_single_token] on the empty sentence ends the same way. *)
Theorem exhausted_ladder_without_vocab :
  fallback_ladder (fun _ _ => Ok []) 10 None [""] 0
  = ([StageRun 10 false; StageRun 100 false; StageRun 100 true], Raise TypeError)
  /\ fallback_ladder (fun _ _ => Ok []) 10 (Some [["dog"; "cat"]]) [""] 0
     = ([StageRun 10 false; StageRun 100 false; StageRun 100 true],
        Raise (ValueError_no_valid_sentence ["dog"; "cat"] ""))
  /\ (forall get_perplexity,
         replace_single_token "[MASK]" first_occurrence no_tokens no_fills
                              get_perplexity [""] None 10
         = Raise TypeError).
Proof. repeat split. Qed.

(* ================================================================== *)
(** ** The revision loop: rounds *)

Section LoopRounds.

Variable rst :
  nat -> list string -> option (list (list string)) -> nat ->
  result (list string * list Q).
Variable data_key : list string.
Variable n_revision : Z.
Variable topk : nat.

(** With [rounds_left n_revision i] units of fuel or more the loop comes to
    its [break] by itself: more fuel changes nothing, and between one and
    [rounds_left n_revision i] calls of [replace_single_token] are made. *)
Lemma revision_loop_bound (k : nat) :
  forall (i : Z) (t : nat) (st : loop_state) (fuel : nat),
    rounds_left n_revision i <= k -> k <= fuel ->
    revision_loop rst fuel data_key n_revision topk t i st
    = revision_loop rst k data_key n_revision topk t i st
    /\ t < fst (revision_loop rst k data_key n_revision topk t i st)
       <= t + rounds_left n_revision i.
Proof.
  induction k as [|k IH]; intros i t st fuel Hk Hfuel.
  - unfold rounds_left in Hk. lia.
  - destruct fuel as [|fuel]; [lia|]. cbn [revision_loop].
    destruct (rst t (seed_sentences st) (vocab_to_keep st) topk) as [best|e];
      [|split; [reflexivity | cbn [fst]; unfold rounds_left; lia]].
    destruct (revision_round data_key best st) as [st'|e];
      [|split; [reflexivity | cbn [fst]; unfold rounds_left; lia]].
    destruct (length (seed_sentences st') =? 0);
      [split; [reflexivity | cbn [fst]; unfold rounds_left; lia]|].
    destruct (i >? n_revision)%Z eqn:Ei;
      [split; [reflexivity | cbn [fst]; unfold rounds_left; lia]|].
    assert (Hi : (i <= n_revision)%Z)
      by (rewrite Z.gtb_ltb in Ei; now apply Z.ltb_ge in Ei).
    assert (Hleft : rounds_left n_revision i = S (rounds_left n_revision (i + 1)))
      by (unfold rounds_left; lia).
    destruct (IH (i + 1)%Z (S t) st' fuel) as (Heq & Hlo & Hhi); [lia | lia |].
    split; [exact Heq | lia].
Qed.

(** The count of calls never goes down, and a loop with fuel makes a call. *)
Lemma revision_loop_calls (fuel : nat) :
  forall (i : Z) (t : nat) (st : loop_state),
    t <= fst (revision_loop rst fuel data_key n_revision topk t i st)
    /\ S t <= fst (revision_loop rst (S fuel) data_key n_revision topk t i st).
Proof.
  induction fuel as [|fuel IH]; intros i t st.
  - cbn [revision_loop].
    destruct (rst t _ _ topk) as [best|e]; [|cbn; lia].
    destruct (revision_round data_key best st) as [st'|e]; [|cbn; lia].
    destruct (length (seed_sentences st') =? 0); [cbn; lia|].
    destruct (i >? n_revision)%Z; cbn; lia.
  - split; [destruct (IH i t st); lia|].
    remember (S fuel) as f. cbn [revision_loop].
    destruct (rst t _ _ topk) as [best|e]; [|cbn; lia].
    destruct (revision_round data_key best st) as [st'|e]; [|cbn; lia].
    destruct (length (seed_sentences st') =? 0); [cbn; lia|].
    destruct (i >? n_revision)%Z; [cbn; lia|].
    subst f. destruct (IH (i + 1)%Z (S t) st'). lia.
Qed.

End LoopRounds.

(** C1.  With [n_revision = 0] and a backend whose best sentence changes and
    improves every round, the revision loop runs two rounds, and three with
    [n_revision = 1]: the counter [i] starts at 0 and the test
    [i > n_revision] comes after the body, so the body runs for
    [i = 0 .. n_revision + 1].  The first call of the backend in [generate]
    fills the mask; each later call is one round. *)
Theorem revision_loop_runs_past_cap :
  fst (revision_loop restless_backend 10 ["dog||cat"] 0 10 1 0 dog_cat_state) - 1
  = 2
  /\ generate "[MASK]" restless_backend 10 true (WP_list [["dog"; "cat"]])
              SS_None None 0 10 1 0 0
     = (1 + 2,
        Ok [("dog||cat",
             (["dog [MASK] cat"; "dog is cat"; "dog is cat so";
               "dog is cat so so"],
              [1 # 1; 1 # 2; 1 # 3]))])
  /\ fst (generate "[MASK]" restless_backend 10 true (WP_list [["dog"; "cat"]])
                   SS_None None 1 10 1 0 0)
     = 1 + 3.
Proof. repeat split; vm_compute; reflexivity. Qed.

(* ================================================================== *)
(** ** [generate] without [word_pairs] *)

(** C9.  When [word_pairs] is left at [None], [generate] raises [TypeError]
    on line 240, whatever the seed sentences, the other arguments and the
    backend, and the backend is not called; with [word_pairs=[]] and a list of
    seed sentences the same call does reach the backend. *)
Theorem generate_without_word_pairs
        (mask_token : string)
        (rst : nat -> list string -> option (list (list string)) -> nat ->
               result (list string * list Q))
        (fuel : nat) (stdin : bool) (seeds : seed_sentences_arg)
        (vocab : option (list (list string))) (n_revision : Z) (topk : nat)
        (n_blank n_blank_b n_blank_e : Z) :
  generate mask_token rst fuel stdin WP_None seeds vocab n_revision topk
           n_blank n_blank_b n_blank_e
  = (0, Raise TypeError)
  /\ forall s l,
      1 <= fst (generate mask_token rst (S fuel) true (WP_list []) (SS_list (s :: l))
                         vocab n_revision topk n_blank n_blank_b n_blank_e).
Proof.
  split; [reflexivity|].
  intros s l. unfold generate, initial_state. cbn [ss_truthy wp_truthy negb].
  match goal with
  | |- context [revision_loop ?r (S ?f) ?dk ?n ?k ?t ?i ?st] =>
      pose proof (proj2 (revision_loop_calls r dk n k f i t st)) as Hcall;
      destruct (revision_loop r (S f) dk n k t i st) as [t' [stf|e]]
  end; exact Hcall.
Qed.


(* ================================================================== *)
(** ** Fallible computations *)

Lemma bind_ok {A B} (m : result A) (f : A -> result B) (b : B) :
  bind m f = Ok b -> exists a, m = Ok a /\ f a = Ok b.
Proof. destruct m as [a|e]; cbn; [eauto | discriminate]. Qed.

Tactic Notation "inv_bind" hyp(H) "as" ident(a) ident(Ha) :=
  apply bind_ok in H; destruct H as (a & Ha & H).

Lemma mapM_Forall2 {A B} (f : A -> result B) (l : list A) :
  forall r, mapM f l = Ok r -> Forall2 (fun x v => f x = Ok v) l r.
Proof.
  induction l as [|x l IH]; intros r H; cbn in H.
  - injection H as <-. constructor.
  - inv_bind H as b Hb. inv_bind H as bs Hbs. injection H as <-.
    constructor; auto.
Qed.

Lemma Forall2_nth_error_r {A B} (R : A -> B -> Prop) (l : list A) (r : list B) :
  Forall2 R l r ->
  forall y v, nth_error r y = Some v -> exists x, nth_error l y = Some x /\ R x v.
Proof.
  induction 1 as [|x v0 l r HR _ IH]; intros [|y] v Hv; cbn in Hv; try discriminate.
  - injection Hv as <-. exists x. now split.
  - now apply IH.
Qed.

Lemma index_ok {A} (l : list A) (n : nat) (a : A) :
  index l n = Ok a <-> nth_error l n = Some a.
Proof.
  unfold index. destruct (nth_error l n); split; intros H;
    try discriminate; injection H as <-; reflexivity.
Qed.

(* ================================================================== *)
(** ** The invariant of the histories *)



Lemma dict_get_In (d : dict) (k : string) (v : history) :
  dict_get d k = Some v -> In (k, v) d.
Proof.
  induction d as [|[k' v'] d IH]; cbn [dict_get]; [discriminate|].
  destruct (String.eqb k' k) eqn:E.
  - apply String.eqb_eq in E. intros H. injection H as <-. subst. now left.
  - intros H. right. now apply IH.
Qed.



Section AlignedRuns.

Variable mask_token : string.
Variable rst :
  nat -> list string -> option (list (list string)) -> nat ->
  result (list string * list Q).







End AlignedRuns.



(* ================================================================== *)
(** ** One round of the revision loop *)

Lemma mapM_ok_map {A B} (f : A -> result B) (g : A -> B) (l : list A) :
  (forall a, In a l -> f a = Ok (g a)) -> mapM f l = Ok (map g l).
Proof.
  induction l as [|a l IH]; intros H; cbn; [reflexivity|].
  rewrite (H a (or_introl eq_refl)). cbn [bind].
  rewrite IH by (intros b Hb; apply H; now right). reflexivity.
Qed.

Lemma filterM_ok_filter {A} (p : A -> result bool) (q : A -> bool) (l : list A) :
  (forall a, In a l -> p a = Ok (q a)) -> filterM p l = Ok (filter q l).
Proof.
  induction l as [|a l IH]; intros H; cbn; [reflexivity|].
  rewrite (H a (or_introl eq_refl)). cbn [bind].
  rewrite IH by (intros b Hb; apply H; now right). reflexivity.
Qed.

Lemma index_nth {A} (d : A) (l : list A) (n : nat) :
  n < length l -> index l n = Ok (nth n l d).
Proof.
  intros H. apply index_ok. now apply nth_error_nth'.
Qed.

Lemma last_item_last {A} (d : A) (l : list A) :
  l <> [] -> last_item l = Ok (last l d).
Proof.
  intros H. unfold last_item.
  destruct (rev l) as [|a r] eqn:E.
  - apply (f_equal (@rev A)) in E. rewrite rev_involutive in E. now subst.
  - apply (f_equal (@rev A)) in E. rewrite rev_involutive in E. cbn in E.
    subst l. now rewrite last_last.
Qed.

Lemma map_nth_seq {A} (d : A) (l : list A) :
  map (fun x => nth x l d) (seq 0 (length l)) = l.
Proof.
  induction l as [|a l IH]; [reflexivity|].
  cbn [length seq map nth]. f_equal.
  rewrite <- seq_shift, map_map. exact IH.
Qed.

Lemma NoDup_map_filter {A B} (f : A -> B) (q : A -> bool) (l : list A) :
  NoDup (map f l) -> NoDup (map f (filter q l)).
Proof.
  induction l as [|a l IH]; cbn; [auto|]. intros H.
  apply NoDup_cons_iff in H. destruct H as (Hn & Hd).
  destruct (q a); [|auto]. cbn. constructor; [|auto].
  intros Hin. apply Hn. apply in_map_iff in Hin. destruct Hin as (b & Hb & Hin).
  apply filter_In in Hin. apply in_map_iff. exists b. tauto.
Qed.


(** *** The output dictionary *)

Lemma dict_get_set (d : dict) (k k' : string) (v : history) :
  dict_get (dict_set d k v) k'
  = if String.eqb k k' then Some v else dict_get d k'.
Proof.
  induction d as [|[k0 v0] d IH]; cbn [dict_set dict_get]; [reflexivity|].
  destruct (String.eqb k0 k) eqn:E0; cbn [dict_get].
  - apply String.eqb_eq in E0. subst k0. now destruct (String.eqb k k').
  - rewrite IH. destruct (String.eqb k0 k') eqn:E1; [|reflexivity].
    destruct (String.eqb k k') eqn:E2; [|reflexivity].
    apply String.eqb_eq in E1, E2. subst. rewrite String.eqb_refl in E0.
    discriminate.
Qed.

Lemma dict_get_update_other (kvs : list (string * history)) (k : string) :
  forall d : dict,
    ~ In k (map fst kvs) -> dict_get (dict_update d kvs) k = dict_get d k.
Proof.
  unfold dict_update.
  induction kvs as [|[k1 v1] kvs IH]; intros d Hn; cbn [fold_left]; [reflexivity|].
  cbn [map fst In] in Hn. rewrite IH by tauto. cbn [fst snd].
  rewrite dict_get_set. destruct (String.eqb k1 k) eqn:E; [|reflexivity].
  apply String.eqb_eq in E. tauto.
Qed.


Section RoundFacts.

Variable data_key : list string.
Variable best_edit : list string.
Variable ppl : list Q.
Variable st : loop_state.
Hypothesis Hwf : well_formed data_key best_edit ppl st.

Lemma index_fixed_closed :
  index_fixed best_edit st = Ok (fixed_positions best_edit st).
Proof.
  destruct Hwf as (_ & He & _ & _ & Hne & _).
  unfold index_fixed, fixed_positions. apply filterM_ok_filter.
  intros x Hx. apply in_seq in Hx.
  rewrite (index_nth "") by lia. cbn [bind].
  rewrite (index_nth []) by lia. cbn [bind].
  rewrite (last_item_last "");
    [reflexivity | rewrite Forall_forall in Hne; apply Hne, nth_In; lia].
Qed.

Lemma index_unfixed_closed :
  index_unfixed best_edit ppl st = Ok (improved_positions best_edit ppl st).
Proof.
  destruct Hwf as (Hq & _ & Hp & _ & _ & Hne & _).
  unfold index_unfixed, improved_positions. apply filterM_ok_filter.
  intros x Hx. apply in_seq in Hx.
  rewrite (index_nth 0%Q) by lia. cbn [bind].
  rewrite (index_nth []) by lia. cbn [bind].
  rewrite (last_item_last 0%Q);
    [reflexivity | rewrite Forall_forall in Hne; apply Hne, nth_In; lia].
Qed.

Lemma entries_closed (ns : list nat) :
  (forall x, In x ns -> x < length best_edit) ->
  entries data_key st ns
  = Ok (map (fun x => (nth (nth x (data_index st) 0) data_key "",
                       (nth x (edit st) [], nth x (edit_ppl st) [])))
            ns).
Proof.
  destruct Hwf as (_ & He & Hp & Hd & _ & _ & Hk & _).
  intros Hns. unfold entries. apply mapM_ok_map. intros x Hx.
  specialize (Hns x Hx).
  rewrite (index_nth 0) by lia. cbn [bind].
  unfold data_key_get.
  rewrite (nth_error_nth' data_key "")
    by (rewrite Forall_forall in Hk; apply Hk, nth_In; lia).
  cbn [bind].
  rewrite (index_nth []) by lia. cbn [bind].
  rewrite (index_nth []) by lia. reflexivity.
Qed.

(** On well-formed lists no lookup of the round fails. *)
Lemma revision_round_closed :
  revision_round data_key (best_edit, ppl) st
  = Ok (round_closed_form data_key best_edit ppl st).
Proof.
  pose proof Hwf as (Hq & He & Hp & Hd & _ & _ & _ & Hv & _).
  assert (Hin : forall x, In x (improved_positions best_edit ppl st) ->
                          x < length best_edit).
  { intros x Hx. apply filter_In in Hx. destruct Hx as (Hx & _).
    apply in_seq in Hx. lia. }
  unfold revision_round.
  rewrite index_fixed_closed. cbn [bind].
  rewrite entries_closed
    by (intros x Hx; apply filter_In in Hx; destruct Hx as (Hx & _);
        apply in_seq in Hx; lia).
  cbn [bind]. rewrite index_unfixed_closed. cbn [bind].
  rewrite (mapM_ok_map _ (fun x => nth x (edit st) [] ++ [nth x best_edit ""]))
    by (intros x Hx; specialize (Hin x Hx);
        rewrite (index_nth []) by lia; cbn [bind];
        rewrite (index_nth "") by lia; reflexivity).
  cbn [bind].
  rewrite (mapM_ok_map _ (fun x => nth x (edit_ppl st) [] ++ [nth x ppl 0%Q]))
    by (intros x Hx; specialize (Hin x Hx);
        rewrite (index_nth []) by lia; cbn [bind];
        rewrite (index_nth 0%Q) by lia; reflexivity).
  cbn [bind].
  rewrite (mapM_ok_map _ (fun x => nth x best_edit ""))
    by (intros x Hx; specialize (Hin x Hx); apply index_nth; lia).
  cbn [bind].
  rewrite (mapM_ok_map _ (fun x => nth x ppl 0%Q))
    by (intros x Hx; specialize (Hin x Hx); apply index_nth; lia).
  cbn [bind].
  rewrite (mapM_ok_map _ (fun x => nth x (data_index st) 0))
    by (intros x Hx; specialize (Hin x Hx); apply index_nth; lia).
  cbn [bind]. unfold round_closed_form.
  destruct (vocab_to_keep st) as [[|v vs]|] eqn:Ev; cbn [truthy bind];
    try reflexivity.
  rewrite (mapM_ok_map _ (fun x => nth x (v :: vs) []))
    by (intros x Hx; specialize (Hin x Hx); apply index_nth;
        rewrite (Hv (v :: vs) eq_refl) by discriminate; exact Hin).
  reflexivity.
Qed.

End RoundFacts.

(** The keys of the candidates, read through their positions, are distinct. *)
Lemma well_formed_keys data_key best_edit ppl st :
  well_formed data_key best_edit ppl st ->
  NoDup (map (fun x => nth (nth x (data_index st) 0) data_key "")
             (seq 0 (length best_edit))).
Proof.
  intros (_ & _ & _ & Hd & _ & _ & _ & _ & Hnd).
  rewrite <- Hd.
  rewrite <- (map_map (fun x => nth x (data_index st) 0)
                      (fun d => nth d data_key "")).
  now rewrite map_nth_seq.
Qed.

(** *** Where the keys of the output map come from *)

Lemma dict_get_update_known (kvs : list (string * history)) (d : dict) (k : string) :
  dict_get (dict_update d kvs) k <> None ->
  dict_get d k <> None \/ In k (map fst kvs).
Proof.
  intros H. destruct (in_dec string_dec k (map fst kvs)) as [Hin|Hn];
    [now right|].
  left. now rewrite dict_get_update_other in H.
Qed.

Lemma entries_keys (data_key : list string) (st : loop_state) (ns : list nat) :
  forall kvs k,
    entries data_key st ns = Ok kvs -> In k (map fst kvs) ->
    exists d, In d (data_index st) /\ nth_error data_key d = Some k.
Proof.
  intros kvs k H Hk. apply mapM_Forall2 in H.
  induction H as [|n kv ns kvs Hn _ IH]; [destruct Hk|].
  destruct Hk as [<-|Hk]; [|now apply IH].
  inv_bind Hn as d Hd. inv_bind Hn as k' Hk'. inv_bind Hn as e He.
  inv_bind Hn as p Hp. injection Hn as <-. cbn [fst].
  exists d. split.
  - apply index_ok in Hd. eapply nth_error_In; eassumption.
  - unfold data_key_get in Hk'. destruct (nth_error data_key d); [|discriminate].
    now injection Hk' as <-.
Qed.

(** A round adds no key: what the state after it knows, the state before it
    knew. *)
Lemma revision_round_provenance data_key best st st' :
  revision_round data_key best st = Ok st' ->
  (forall d, In d (data_index st') -> In d (data_index st))
  /\ forall k, key_known data_key st' k -> key_known data_key st k.
Proof.
  intros H. destruct best as [best_edit ppl]. unfold revision_round in H.
  inv_bind H as fixed Hfixed. inv_bind H as kvs Hkvs.
  inv_bind H as unfixed Hunfixed. inv_bind H as edit' He.
  inv_bind H as edit_ppl' Hp. inv_bind H as seeds' Hs.
  inv_bind H as ppl' Hq. inv_bind H as data_index' Hdi.
  inv_bind H as vocab' Hv. injection H as <-.
  assert (Hsub : forall d, In d data_index' -> In d (data_index st)).
  { intros d Hd. apply mapM_Forall2 in Hdi.
    apply In_nth_error in Hd. destruct Hd as (y & Hy).
    destruct (Forall2_nth_error_r Hdi _ Hy) as (x & _ & Hx).
    apply index_ok in Hx. eapply nth_error_In; eassumption. }
  split; [exact Hsub|].
  intros k [Hk|(d & Hd & Hk)]; cbn [output_dict data_index] in *.
  - apply dict_get_update_known in Hk. destruct Hk as [Hk|Hk]; [now left|].
    right. eapply entries_keys; eassumption.
  - right. exists d. split; [now apply Hsub | exact Hk].
Qed.

Lemma revision_loop_provenance rst data_key n_revision topk (fuel : nat) :
  forall t i st t' st',
    revision_loop rst fuel data_key n_revision topk t i st = (t', Ok st') ->
    forall k, key_known data_key st' k -> key_known data_key st k.
Proof.
  induction fuel as [|fuel IH]; intros t i st t' st' H k Hk; cbn in H;
    [discriminate|].
  destruct (rst t _ _ topk) as [best|e]; [|discriminate].
  destruct (revision_round data_key best st) as [st1|e] eqn:Hround; [|discriminate].
  apply (proj2 (revision_round_provenance _ _ _ Hround)).
  destruct (length (seed_sentences st1) =? 0); [now injection H as <- <-|].
  destruct (i >? n_revision)%Z; [now injection H as <- <-|].
  eapply IH; eassumption.
Qed.

(** The update of line 311 writes the keys of the active candidates only. *)
Lemma final_update_provenance data_key st kvs k :
  entries data_key st (seq 0 (length (data_index st))) = Ok kvs ->
  dict_get (dict_update (output_dict st) kvs) k <> None ->
  key_known data_key st k.
Proof.
  intros He Hk. apply dict_get_update_known in Hk.
  destruct Hk as [Hk|Hk]; [now left|].
  right. eapply entries_keys; eassumption.
Qed.



(* ================================================================== *)
(** ** The three-way rule on the states that a run reaches *)
















(* ================================================================== *)
(** ** The regular expressions of plain terms *)

Import PyRe.

Lemma chars_app (a b : string) : chars (a ++ b) = chars a ++ chars b.
Proof.
  unfold chars. induction a as [|c a IH]; cbn; [reflexivity | now rewrite IH].
Qed.

Lemma not_special_cases (c : ascii) :
  is_special c = false ->
  Ascii.eqb c "|" = false /\ Ascii.eqb c "[" = false
  /\ Ascii.eqb c "." = false /\ Ascii.eqb c "\" = false.
Proof.
  unfold is_special. cbn [list_ascii_of_string existsb].
  rewrite !orb_false_iff. tauto.
Qed.

(** Plain characters compile to literals, one by one. *)
Lemma compile_aux_plain (cs : list ascii) :
  forall rest cur alts,
    forallb (fun c => negb (is_special c)) cs = true ->
    compile_aux (cs ++ rest) None cur alts
    = compile_aux rest None (rev (map Lit cs) ++ cur) alts.
Proof.
  induction cs as [|c cs IH]; intros rest cur alts H; [reflexivity|].
  cbn [forallb] in H. apply andb_true_iff in H. destruct H as (Hc & Hcs).
  apply negb_true_iff in Hc.
  destruct (not_special_cases c Hc) as (H1 & H2 & H3 & H4).
  cbn [app compile_aux]. rewrite H1, H2, H3, H4, Hc.
  rewrite IH by exact Hcs. cbn [map rev]. now rewrite <- app_assoc.
Qed.

Lemma compile_word_pattern (w : string) :
  plain w ->
  compile (word_pattern w)
  = Some [WordBoundary :: map Lit (chars w) ++ [WordBoundary]].
Proof.
  intros (_ & Hw). unfold compile, word_pattern.
  change (list_ascii_of_string ("\b" ++ w ++ "\b"))
    with ("\"%char :: "b"%char :: chars (w ++ "\b")).
  rewrite chars_app. cbn [compile_aux Ascii.eqb Bool.eqb].
  cbn [andb]. rewrite compile_aux_plain by exact Hw.
  cbn. now rewrite rev_app_distr, rev_involutive.
Qed.

Lemma compile_aux_join (v : list string) :
  forall w cur alts,
    Forall plain (w :: v) ->
    compile_aux (chars (String.concat "|" (w :: v))) None cur alts
    = Some (rev alts ++ (rev cur ++ map Lit (chars w))
                :: map (fun x => map Lit (chars x)) v).
Proof.
  induction v as [|w2 v IH]; intros w cur alts Hp.
  - cbn [String.concat]. inversion Hp as [|? ? (_ & Hw) _]; subst.
    pose proof (compile_aux_plain (chars w) [] cur alts Hw) as Hc.
    rewrite app_nil_r in Hc. rewrite Hc.
    cbn. now rewrite rev_app_distr, rev_involutive.
  - inversion Hp as [|? ? (_ & Hw) Hp']; subst.
    change (String.concat "|" (w :: w2 :: v))
      with (w ++ "|" ++ String.concat "|" (w2 :: v))%string.
    rewrite chars_app, compile_aux_plain by exact Hw.
    change (chars ("|" ++ String.concat "|" (w2 :: v)))
      with ("|"%char :: chars (String.concat "|" (w2 :: v))).
    cbn [compile_aux Ascii.eqb Bool.eqb]. cbn [andb].
    rewrite IH by exact Hp'. cbn [rev app map].
    rewrite rev_app_distr, rev_involutive, <- app_assoc. reflexivity.
Qed.

Lemma compile_join (v : list string) :
  v <> [] -> Forall plain v ->
  compile (String.concat "|" v) = Some (map (fun x => map Lit (chars x)) v).
Proof.
  destruct v as [|w v]; [congruence|]. intros _ Hp.
  unfold compile. fold (chars (String.concat "|" (w :: v))).
  now rewrite (@compile_aux_join v w [] [] Hp).
Qed.

(** Literals match exactly a prefix; what follows them is matched after it. *)
Lemma match_seq_literals (w : list ascii) (r : list atom) :
  forall prev s,
    match_seq (map Lit w ++ r) prev s
    = if is_prefix w s
      then match match_seq r (last_char prev w) (skipn (length w) s) with
           | Some (m, rest) => Some (w ++ m, rest)
           | None => None
           end
      else None.
Proof.
  induction w as [|a w IH]; intros prev s.
  - cbn. now destruct (match_seq r prev s) as [[m rest]|].
  - cbn [map app match_seq is_prefix].
    destruct s as [|c s]; [reflexivity|].
    destruct (Ascii.eqb c a) eqn:E; [|reflexivity].
    apply Ascii.eqb_eq in E. subst c. cbn [andb length skipn last_char].
    rewrite IH. destruct (is_prefix w s); [|reflexivity].
    now destruct (match_seq r (last_char (Some a) w) (skipn (length w) s))
      as [[m rest]|].
Qed.

Lemma match_seq_term (w : list ascii) (prev : option ascii) (s : list ascii) :
  match_seq (map Lit w) prev s
  = if is_prefix w s then Some (w, skipn (length w) s) else None.
Proof.
  rewrite <- (app_nil_r (map Lit w)), match_seq_literals.
  cbn [match_seq]. now rewrite app_nil_r.
Qed.

Lemma match_seq_whole_word (w : list ascii) (prev : option ascii) (s : list ascii) :
  match_seq (WordBoundary :: map Lit w ++ [WordBoundary]) prev s
  = if whole_word_here w prev s then Some (w, skipn (length w) s) else None.
Proof.
  unfold whole_word_here. cbn [match_seq].
  destruct (xorb (is_word_opt prev) (is_word_opt (hd_error s))); [|reflexivity].
  rewrite match_seq_literals. cbn [andb].
  destruct (is_prefix w s); [|reflexivity]. cbn [match_seq andb].
  destruct (xorb _ _); [|reflexivity]. now rewrite app_nil_r.
Qed.

(** The alternation of literal terms matches the first term that stands
    here. *)
Lemma match_here_terms (ws : list (list ascii)) (prev : option ascii)
      (s : list ascii) :
  match_here (map (map Lit) ws) false prev s = first_term ws s.
Proof.
  induction ws as [|w ws IH]; [reflexivity|].
  cbn [map match_here first_term]. rewrite match_seq_term.
  destruct (is_prefix w s); [reflexivity | exact IH].
Qed.

Lemma first_term_in (ws : list (list ascii)) (s w : list ascii) :
  first_term ws s = Some w -> In w ws.
Proof.
  induction ws as [|w0 ws IH]; cbn; [discriminate|].
  destruct (is_prefix w0 s); [intros H; injection H as <-; now left|].
  intros H. right. now apply IH.
Qed.

(** The scan of [findall] for an alternation of non-empty literal terms reads
    off the occurrences of the terms. *)
Lemma scan_terms (ws : list (list ascii)) :
  Forall (fun w => w <> []) ws ->
  forall s prev skip,
    scan (map (map Lit) ws) prev s skip = occurrences ws s skip.
Proof.
  intros Hne. induction s as [|c t IH]; intros prev skip.
  - destruct skip; cbn [scan occurrences]; [|reflexivity].
    rewrite match_here_terms.
    destruct (first_term ws []) as [w|] eqn:E; [|reflexivity].
    exfalso. pose proof (first_term_in _ _ E) as Hin.
    rewrite Forall_forall in Hne. specialize (Hne _ Hin).
    clear Hin. induction ws as [|w0 ws IHws]; cbn in E; [discriminate|].
    destruct w0 as [|a w0]; cbn in E.
    + injection E as <-. congruence.
    + now apply IHws.
  - destruct skip; cbn [scan occurrences]; [|apply IH].
    rewrite match_here_terms.
    destruct (first_term ws (c :: t)) as [w|] eqn:E; [|apply IH].
    pose proof (first_term_in _ _ E) as Hin.
    rewrite Forall_forall in Hne. specialize (Hne _ Hin).
    destruct w as [|a w]; [congruence|]. now rewrite IH.
Qed.

(** The scan for the whole-word pattern of a non-empty term finds something
    exactly when the term stands as a whole word somewhere. *)
Lemma scan_whole_word (w : list ascii) :
  w <> [] ->
  forall s prev,
    (length (scan [WordBoundary :: map Lit w ++ [WordBoundary]] prev s 0) =? 0)
    = (whole_word_count w prev s =? 0).
Proof.
  intros Hne. induction s as [|c t IH]; intros prev.
  - cbn [scan match_here whole_word_count]. rewrite match_seq_whole_word.
    assert (Hno : whole_word_here w prev [] = false).
    { unfold whole_word_here. destruct w; [congruence|].
      cbn [is_prefix]. now rewrite andb_false_r. }
    now rewrite Hno.
  - cbn [scan match_here whole_word_count]. rewrite match_seq_whole_word.
    destruct (whole_word_here w prev (c :: t)).
    + cbn [andb]. destruct w as [|a w]; [congruence|]. reflexivity.
    + cbn [plus]. apply IH.
Qed.

(* ================================================================== *)
(** ** The constraint checker on plain terms *)

Lemma plain_chars (w : string) : plain w -> chars w <> [].
Proof. intros (Hne & _). destruct w; [congruence | discriminate]. Qed.

Lemma findall_join (v : list string) (s : string) :
  v <> [] -> Forall plain v ->
  findall (String.concat "|" v) s
  = Some (map string_of_list_ascii (occurrences (map chars v) (chars s) 0)).
Proof.
  intros Hv Hp. unfold findall. rewrite compile_join by assumption.
  rewrite <- (map_map chars (map Lit)), scan_terms; [reflexivity|].
  apply Forall_map. eapply Forall_impl; [|exact Hp].
  intros w. apply plain_chars.
Qed.

Lemma all_found_strict (v : list string) (s : string) :
  Forall plain v ->
  all_found word_pattern v s
  = Some (forallb (fun w => negb (whole_word_count (chars w) None (chars s) =? 0)) v).
Proof.
  induction 1 as [|w v Hw _ IH]; [reflexivity|].
  cbn [all_found forallb]. unfold findall.
  rewrite compile_word_pattern by exact Hw.
  rewrite length_map. fold (chars s).
  rewrite scan_whole_word by now apply plain_chars.
  destruct (whole_word_count (chars w) None (chars s) =? 0); [reflexivity|].
  exact IH.
Qed.

Lemma nodup_length_NoDup {A} (dec : forall x y : A, {x = y} + {x <> y})
      (l : list A) :
  (length (nodup dec l) =? length l) = true <-> NoDup l.
Proof.
  rewrite Nat.eqb_eq. split.
  - induction l as [|a l IH]; intros H; [constructor|].
    assert (Hle : forall l', length (nodup dec l') <= length l').
    { induction l' as [|b l' IHl]; cbn; [lia|].
      destruct (in_dec dec b l'); cbn; lia. }
    cbn in H. destruct (in_dec dec a l) as [Hin|Hn].
    + specialize (Hle l). lia.
    + cbn in H. constructor; [exact Hn|]. apply IH. lia.
  - intros H. now rewrite nodup_fixed_point.
Qed.

Lemma NoDup_strings (l : list (list ascii)) :
  NoDup (map string_of_list_ascii l) <-> NoDup l.
Proof.
  split; [apply NoDup_map_inv|].
  intros H. apply Finite.Injective_map_NoDup; [|exact H].
  intros x y Hxy. apply (f_equal list_ascii_of_string) in Hxy.
  now rewrite !list_ascii_of_string_of_list_ascii in Hxy.
Qed.

(** The strict test on a vocabulary of plain terms, computed on literal
    text. *)
Lemma admissible_strict_plain (v : list string) (s : string) :
  v <> [] -> Forall plain v ->
  let found := map string_of_list_ascii (occurrences (map chars v) (chars s) 0) in
  admissible false v s
  = Some (forallb (fun w => negb (whole_word_count (chars w) None (chars s) =? 0)) v
          && ((length (nodup string_dec found) =? length found)
              && (length found =? length v))).
Proof.
  intros Hv Hp. cbn zeta. unfold admissible, check_vocab.
  rewrite all_found_strict by exact Hp.
  rewrite findall_join by assumption.
  now destruct (forallb _ v).
Qed.

(** The empty pattern matches once at every position of the subject and once
    at its end. *)
Lemma scan_empty_pattern (s : list ascii) :
  forall prev, length (scan [[]] prev s 0) = S (length s).
Proof.
  induction s as [|c t IH]; intros prev; [reflexivity|].
  cbn [scan match_here match_seq length Nat.eqb andb]. now rewrite IH.
Qed.

Lemma admissible_empty (allow_subword : bool) (s : string) :
  admissible allow_subword [] s = Some false.
Proof.
  unfold admissible. cbn [all_found]. unfold check_vocab.
  cbn [String.concat]. unfold findall.
  change (compile "") with (Some [@nil atom]). cbv iota beta.
  rewrite length_map, scan_empty_pattern. cbn [length].
  now rewrite andb_false_r.
Qed.

(** C2, as the code has it.  For a non-empty vocabulary of plain ASCII terms
    (no character that [re] reads as an operator) and an ASCII sentence, the
    strict check admits the sentence exactly when every term stands as a
    whole word somewhere in it and the occurrences of the terms met from left
    to right, those inside longer words included, are pairwise different and
    as many as the vocabulary has terms.  An empty vocabulary admits no
    sentence, in either mode.  The three examples of the specification
    evaluate as stated; "the cat category" is refused for the vocabulary
    cat. *)
Theorem strict_check_on_plain_terms :
  (forall (v : list string) (s : string),
      v <> [] -> Forall plain v -> Forall ascii_text v -> ascii_text s ->
      (admissible false v s = Some true \/ admissible false v s = Some false)
      /\ (admissible false v s = Some true <->
          (forall w, In w v -> 0 < whole_word_count (chars w) None (chars s))
          /\ NoDup (occurrences (map chars v) (chars s) 0)
          /\ length (occurrences (map chars v) (chars s) 0) = length v))
  /\ (forall (allow_subword : bool) (s : string),
         admissible allow_subword [] s = Some false)
  /\ admissible false ["cat"] "the cat sat" = Some true
  /\ admissible false ["cat"] "the cat and cat" = Some false
  /\ admissible false ["cat"] "the category" = Some false
  /\ admissible true ["cat"] "the category" = Some true
  /\ admissible false ["cat"] "the cat category" = Some false.
Proof.
  split; [|split; [exact admissible_empty | repeat split]].
  intros v s Hv Hp _ _. rewrite (admissible_strict_plain s Hv Hp). cbn zeta.
  split; [destruct (_ && _); auto|].
  split.
  - intros H. injection H as H.
    apply andb_true_iff in H. destruct H as (Hall & H).
    apply andb_true_iff in H. destruct H as (Hnd & Hlen).
    rewrite forallb_forall in Hall.
    apply nodup_length_NoDup, NoDup_strings in Hnd.
    apply Nat.eqb_eq in Hlen. rewrite length_map in Hlen.
    repeat split; try assumption.
    intros w Hw. specialize (Hall w Hw).
    apply negb_true_iff, Nat.eqb_neq in Hall. lia.
  - intros (Hall & Hnd & Hlen). f_equal.
    apply andb_true_iff. split; [|apply andb_true_iff; split].
    + apply forallb_forall. intros w Hw. specialize (Hall w Hw).
      apply negb_true_iff, Nat.eqb_neq. lia.
    + now apply nodup_length_NoDup, NoDup_strings.
    + apply Nat.eqb_eq. now rewrite length_map.
Qed.

(** The vocabulary cat on "the cat sat". *)
Lemma strict_check_on_plain_terms_witness :
  (admissible false ["cat"] "the cat sat" = Some true
   \/ admissible false ["cat"] "the cat sat" = Some false)
  /\ (admissible false ["cat"] "the cat sat" = Some true <->
      (forall w, In w ["cat"] ->
                 0 < whole_word_count (chars w) None (chars "the cat sat"))
      /\ NoDup (occurrences (map chars ["cat"]) (chars "the cat sat") 0)
      /\ length (occurrences (map chars ["cat"]) (chars "the cat sat") 0)
         = length ["cat"]).
Proof.
  apply (proj1 strict_check_on_plain_terms ["cat"] "the cat sat").
  - discriminate.
  - repeat constructor. discriminate.
  - repeat constructor.
  - reflexivity.
Defined.

(** C2, as the claim states it, fails: in "the cat category" the term cat
    stands as a whole word exactly once, and there is no other whole-word
    occurrence of a term, so the rule of the specification admits the
    sentence; the code refuses it, because [check_vocab] also counts the cat
    inside category. *)
Lemma strict_check_counts_subwords :
  spec_strict_admissible "the cat category" ["cat"] = true
  /\ admissible false ["cat"] "the cat category" = Some false
  /\ check_vocab "the cat category" ["cat"] = Some false
  /\ findall "cat" "the cat category" = Some ["cat"; "cat"].
Proof. repeat split. Qed.

(* ================================================================== *)
(** ** Vocabulary terms are read as patterns *)

(** A bracketed set finds every character of the subject that it lists. *)
Lemma scan_char_set (cs : list ascii) :
  forall s prev,
    scan [[CharSet cs]] prev s 0
    = map (fun c => [c]) (filter (fun c => existsb (Ascii.eqb c) cs) s).
Proof.
  induction s as [|c t IH]; intros prev; [reflexivity|].
  cbn [scan match_here match_seq filter].
  destruct (existsb (Ascii.eqb c) cs); cbn [andb map length Nat.sub]; now rewrite IH.
Qed.

Lemma findall_mask_term (s : string) :
  findall "[MASK]" s
  = Some (map (fun c => String c "") (filter mask_letter (chars s))).
Proof.
  unfold findall. change (compile "[MASK]") with (Some [[CharSet (chars "MASK")]]).
  cbv iota beta. fold (chars s). rewrite scan_char_set, map_map. reflexivity.
Qed.

(** C10.  The term "[MASK]" is read as a set of four letters: for every
    sentence, [check_vocab] and the relaxed check count the letters M, A, S,
    K of the sentence and admit it exactly when there is one.  So the
    sentence "A dog", which does not contain the term, is admitted by the
    strict and by the relaxed check, and [decode_topk] keeps a fill of
    "A [MASK] dog" for the vocabulary ["[MASK]"], while the sentence "[MASK]"
    itself is refused.  Counting over the joined alternation goes wrong for
    overlapping terms too: in "the cat likes the category" each of cat and
    category stands once as a whole word, but the alternation cat|category
    finds cat twice and the sentence is refused. *)
Theorem vocabulary_terms_are_patterns :
  (forall s : string,
      check_vocab s ["[MASK]"]
      = Some (length (filter mask_letter (chars s)) =? 1)
      /\ admissible true ["[MASK]"] s
         = Some (length (filter mask_letter (chars s)) =? 1))
  /\ contains "[MASK]" "A dog" = false
  /\ admissible false ["[MASK]"] "A dog" = Some true
  /\ admissible true ["[MASK]"] "A dog" = Some true
  /\ decode_topk "[MASK]" (Some [["[MASK]"]]) 0 false ("A [MASK] dog", 1 # 2)
     = Ok (Some ("A [MASK] dog", 1 # 2))
  /\ findall "[MASK]" "SAM" = Some ["S"; "A"; "M"]
  /\ contains "[MASK]" "[MASK]" = true
  /\ check_vocab "[MASK]" ["[MASK]"] = Some false
  /\ findall (String.concat "|" ["cat"; "category"]) "the cat likes the category"
     = Some ["cat"; "cat"]
  /\ whole_word_count (chars "cat") None (chars "the cat likes the category") = 1
  /\ whole_word_count (chars "category") None (chars "the cat likes the category")
     = 1
  /\ admissible false ["cat"; "category"] "the cat likes the category"
     = Some false.
Proof.
  split; [|repeat split].
  intros s.
  assert (Hc : check_vocab s ["[MASK]"]
               = Some (length (filter mask_letter (chars s)) =? 1)).
  { unfold check_vocab. cbn [String.concat]. rewrite findall_mask_term.
    rewrite length_map.
    destruct (filter mask_letter (chars s)) as [|a [|b l]]; try reflexivity.
    cbn [length Nat.eqb]. now rewrite andb_false_r. }
  split; [exact Hc|].
  unfold admissible. cbn [all_found]. rewrite findall_mask_term, length_map.
  destruct (filter mask_letter (chars s)) as [|a l] eqn:E; [reflexivity|].
  cbn [length Nat.eqb]. exact Hc.
Qed.

(* ================================================================== *)
(** ** The answer of [replace_single_token] *)

Lemma mapM_length {A B} (f : A -> result B) (l : list A) (r : list B) :
  mapM f l = Ok r -> length r = length l.
Proof.
  intros H. apply mapM_Forall2 in H. symmetry. eapply Forall2_length; eassumption.
Qed.

Lemma rerank_length (greedy_filling : list (list string)) :
  forall list_ppl best,
    rerank greedy_filling list_ppl = Ok best ->
    length best = Nat.min (length greedy_filling) (length list_ppl).
Proof.
  induction greedy_filling as [|sent g IH]; intros [|ppl p] best H; cbn in H;
    try (injection H as <-; reflexivity).
  inv_bind H as b Hb. inv_bind H as r Hr. injection H as <-.
  cbn. f_equal. now apply IH.
Qed.

(** Whatever the tokenizer, the model and the scorer, an answer of
    [replace_single_token] holds one sentence and one score per seed
    sentence. *)
Lemma replace_single_token_lengths
      (mask_token : string) (set_iter : list string -> list string)
      (encoding : Type) (get_encoding : string -> result (list encoding))
      (model_fills : encoding -> list (list entry))
      (get_perplexity : list string -> list Q)
      (seeds : list string) (vocab : option (list (list string))) (topk : nat)
      (best_edit : list string) (ppl : list Q) :
  replace_single_token mask_token set_iter get_encoding model_fills get_perplexity
                       seeds vocab topk
  = Ok (best_edit, ppl) ->
  length best_edit = length seeds /\ length ppl = length seeds.
Proof.
  unfold replace_single_token. intros H.
  inv_bind H as u Hu. inv_bind H as data Hdata.
  inv_bind H as greedy Hgreedy. inv_bind H as best Hbest.
  injection H as <- <-. rewrite !length_map.
  apply mapM_length in Hdata, Hgreedy. apply rerank_length in Hbest.
  rewrite length_combine, length_seq, Nat.min_id, get_partition_length in Hgreedy.
  unfold regroup in Hbest. rewrite length_map, get_partition_length in Hbest.
  lia.
Qed.

(* ================================================================== *)
(** ** Well-formed states from round to round *)

(** An answer with one sentence and one score per active candidate fits a
    state that is in order. *)
Lemma state_ok_well_formed data_key best_edit ppl st :
  state_ok data_key st ->
  length best_edit = length (seed_sentences st) ->
  length ppl = length best_edit ->
  well_formed data_key best_edit ppl st.
Proof.
  intros (He & Hp & Hd & Hne & Hnp & Hk & Hv & Hnd) Hb Hq.
  unfold well_formed. rewrite Hb. repeat split; try assumption; congruence.
Qed.

(** A round leaves the state in order for the next one. *)
Lemma round_closed_form_ok data_key best_edit ppl st :
  well_formed data_key best_edit ppl st ->
  state_ok data_key (round_closed_form data_key best_edit ppl st).
Proof.
  intros Hwf. pose proof (well_formed_keys Hwf) as Hkeys.
  destruct Hwf as (Hq & He & Hp & Hd & Hne & Hnp & Hk & Hv & Hnd).
  assert (Hin : forall x, In x (improved_positions best_edit ppl st) ->
                          x < length best_edit).
  { intros x Hx. apply filter_In in Hx. destruct Hx as (Hx & _).
    apply in_seq in Hx. lia. }
  unfold state_ok, round_closed_form.
  cbn [seed_sentences edit edit_ppl data_index vocab_to_keep].
  rewrite !length_map. repeat split.
  - apply Forall_map, Forall_forall. intros x _ H.
    apply app_eq_nil in H. destruct H as (_ & H). discriminate.
  - apply Forall_map, Forall_forall. intros x _ H.
    apply app_eq_nil in H. destruct H as (_ & H). discriminate.
  - apply Forall_map, Forall_forall. intros x Hx.
    rewrite Forall_forall in Hk. apply Hk, nth_In. specialize (Hin x Hx). lia.
  - intros vs Hvs Hnil.
    destruct (vocab_to_keep st) as [[|v0 vs0]|]; try congruence.
    injection Hvs as <-. now rewrite length_map.
  - rewrite map_map. unfold improved_positions. now apply NoDup_map_filter.
Qed.

(* ================================================================== *)
(** ** The whole pipeline on a stub backend *)

(** The pair dog, cat with one blank, [topk = 1] and [n_revision = 1]: one
    call fills the mask under the constraint that dog and cat stay, the next
    finds the sentence unchanged, and the run returns one entry with two
    snapshots and one score. *)
Example generate_end_to_end :
  generate "[MASK]" stub_replace_single_token 10 true (WP_list [["dog"; "cat"]])
           SS_None None 1 1 1 0 0
  = (2, Ok [("dog||cat", (["dog [MASK] cat"; "dog is cat"], [7 # 1]))]).
Proof. vm_compute. reflexivity. Qed.

(* ================================================================== *)
(** * Further properties of the code *)

(** ** The revision loop always comes to an end *)

Lemma bind_raise {A B} (m : result A) (f : A -> result B) (e : exn) :
  bind m f = Raise e -> m = Raise e \/ exists a, m = Ok a /\ f a = Raise e.
Proof.
  destruct m as [a|e']; cbn; intros H; [right; eauto | left; congruence].
Qed.

Lemma mapM_raise {A B} (f : A -> result B) (l : list A) (e : exn) :
  mapM f l = Raise e -> exists x, In x l /\ f x = Raise e.
Proof.
  induction l as [|a l IH]; cbn; [discriminate|]. intros H.
  apply bind_raise in H. destruct H as [H|(b & _ & H)].
  - exists a. split; [now left | exact H].
  - apply bind_raise in H. destruct H as [H|(bs & _ & H)]; [|discriminate].
    destruct (IH H) as (x & Hx & Hf). exists x. split; [now right | exact Hf].
Qed.

Lemma filterM_raise {A} (f : A -> result bool) (l : list A) (e : exn) :
  filterM f l = Raise e -> exists x, In x l /\ f x = Raise e.
Proof.
  induction l as [|a l IH]; cbn; [discriminate|]. intros H.
  apply bind_raise in H. destruct H as [H|(b & _ & H)].
  - exists a. split; [now left | exact H].
  - apply bind_raise in H. destruct H as [H|(bs & _ & H)]; [|discriminate].
    destruct (IH H) as (x & Hx & Hf). exists x. split; [now right | exact Hf].
Qed.

Lemma index_raise {A} (l : list A) (n : nat) (e : exn) :
  index l n = Raise e -> e = IndexError.
Proof. unfold index. destruct (nth_error l n); congruence. Qed.

Lemma last_item_raise {A} (l : list A) (e : exn) :
  last_item l = Raise e -> e = IndexError.
Proof. unfold last_item. destruct (rev l); congruence. Qed.

Lemma data_key_get_raise (data_key : list string) (d : nat) (e : exn) :
  data_key_get data_key d = Raise e -> e = KeyError.
Proof. unfold data_key_get. destruct (nth_error data_key d); congruence. Qed.

(** Splits a hypothesis [_ = Raise e] along the binds and the loops of the
    computation that raised. *)
Ltac raise_cases H :=
  match type of H with
  | bind _ _ = Raise _ =>
      apply bind_raise in H;
      let a := fresh "a" in
      let Ha := fresh "Ha" in
      destruct H as [H|(a & Ha & H)]; raise_cases H
  | mapM _ _ = Raise _ =>
      apply mapM_raise in H;
      let x := fresh "x" in
      let Hx := fresh "Hx" in
      destruct H as (x & Hx & H); raise_cases H
  | filterM _ _ = Raise _ =>
      apply filterM_raise in H;
      let x := fresh "x" in
      let Hx := fresh "Hx" in
      destruct H as (x & Hx & H); raise_cases H
  | index _ _ = Raise _ => apply index_raise in H
  | last_item _ = Raise _ => apply last_item_raise in H
  | data_key_get _ _ = Raise _ => apply data_key_get_raise in H
  | Ok _ = Raise _ => discriminate H
  | (if ?c then _ else _) = Raise _ => destruct c; raise_cases H
  | _ => idtac
  end.

(** The bookkeeping of a round raises nothing but [IndexError] and
    [KeyError]. *)
Lemma revision_round_raises (data_key : list string) (best : list string * list Q)
      (st : loop_state) (e : exn) :
  revision_round data_key best st = Raise e -> e = IndexError \/ e = KeyError.
Proof.
  destruct best as [best_edit ppl]. unfold revision_round.
  unfold index_fixed, index_unfixed, entries. intros H.
  raise_cases H; auto.
Qed.

Lemma revision_loop_raises
      (rst : nat -> list string -> option (list (list string)) -> nat ->
             result (list string * list Q))
      (data_key : list string) (n_revision : Z) (topk : nat) (k : nat) :
  forall (i : Z) (t : nat) (st : loop_state) (e : exn),
    rounds_left n_revision i <= k ->
    snd (revision_loop rst k data_key n_revision topk t i st) = Raise e ->
    e = IndexError \/ e = KeyError
    \/ exists t' seeds vocab, rst t' seeds vocab topk = Raise e.
Proof.
  induction k as [|k IH]; intros i t st e Hk H.
  - unfold rounds_left in Hk. lia.
  - cbn [revision_loop] in H.
    destruct (rst t (seed_sentences st) (vocab_to_keep st) topk) as [best|e0]
      eqn:Hrst.
    + destruct (revision_round data_key best st) as [st'|e1] eqn:Hround.
      * destruct (length (seed_sentences st') =? 0); [discriminate|].
        destruct (i >? n_revision)%Z eqn:Ei; [discriminate|].
        apply (IH (i + 1)%Z (S t) st' e); [|exact H].
        rewrite Z.gtb_ltb in Ei. apply Z.ltb_ge in Ei.
        unfold rounds_left in *. lia.
      * cbn [snd] in H. injection H as <-.
        destruct (revision_round_raises _ _ _ Hround); auto.
    + cbn [snd] in H. injection H as <-. right. right. eauto.
Qed.

(** X1.  Whatever the backend and the state, the revision loop stops by
    itself: with fuel for [rounds_left n_revision i] rounds any further fuel
    changes nothing, and the loop makes at least one and at most
    [rounds_left n_revision i] calls of [replace_single_token]; from the
    start ([i = 0]) with a non-negative [n_revision] that is
    [n_revision + 2] rounds.  With that fuel the loop ends at a [break], or
    in an exception of the backend, or in an [IndexError] or [KeyError] of
    the bookkeeping. *)
Theorem revision_loop_terminates
        (rst : nat -> list string -> option (list (list string)) -> nat ->
               result (list string * list Q))
        (data_key : list string) (n_revision : Z) (topk : nat)
        (i : Z) (t : nat) (st : loop_state) (fuel : nat) :
  rounds_left n_revision i <= fuel ->
  revision_loop rst fuel data_key n_revision topk t i st
  = revision_loop rst (rounds_left n_revision i) data_key n_revision topk t i st
  /\ t < fst (revision_loop rst fuel data_key n_revision topk t i st)
     <= t + rounds_left n_revision i
  /\ ((0 <= n_revision)%Z -> rounds_left n_revision 0 = Z.to_nat n_revision + 2)
  /\ ((exists st', snd (revision_loop rst fuel data_key n_revision topk t i st)
                   = Ok st')
      \/ snd (revision_loop rst fuel data_key n_revision topk t i st)
         = Raise IndexError
      \/ snd (revision_loop rst fuel data_key n_revision topk t i st)
         = Raise KeyError
      \/ exists e t' seeds vocab,
          snd (revision_loop rst fuel data_key n_revision topk t i st) = Raise e
          /\ rst t' seeds vocab topk = Raise e).
Proof.
  intros Hfuel.
  destruct (@revision_loop_bound rst data_key n_revision topk
              (rounds_left n_revision i) i t st fuel (Nat.le_refl _) Hfuel)
    as (Heq & Hcalls).
  split; [exact Heq|]. split; [now rewrite Heq|].
  split; [intros Hn; unfold rounds_left; lia|].
  destruct (snd (revision_loop rst fuel data_key n_revision topk t i st))
    as [st'|e] eqn:Hres; [left; eauto|].
  right.
  destruct (@revision_loop_raises rst data_key n_revision topk fuel i t st e
                                  Hfuel Hres)
    as [->|[->|(t' & seeds & vocab & Hrst)]]; auto.
  right. right. exists e, t', seeds, vocab. now split.
Qed.

(** Ten units of fuel for [n_revision = 0], from the state of the pair
    dog, cat. *)
Lemma revision_loop_terminates_witness :
  revision_loop restless_backend 10 ["dog||cat"] 0 10 1 0 dog_cat_state
  = revision_loop restless_backend (rounds_left 0 0) ["dog||cat"] 0 10 1 0
                  dog_cat_state
  /\ 1 < fst (revision_loop restless_backend 10 ["dog||cat"] 0 10 1 0 dog_cat_state)
     <= 1 + rounds_left 0 0.
Proof.
  destruct (@revision_loop_terminates restless_backend ["dog||cat"] 0%Z 10 0%Z 1
                                      dog_cat_state 10)
    as (H1 & H2 & _).
  - vm_compute. lia.
  - split; [exact H1 | exact H2].
Defined.

(** ** A round on a state in order *)

(** X2.  When the lockstep lists of the state are in order and the backend
    answers with one sentence and one score per active candidate, the
    bookkeeping of a round raises nothing, leaves the state in order for the
    next round, and never lets the active set grow. *)
Theorem revision_round_keeps_order data_key best_edit ppl st :
  state_ok data_key st ->
  length best_edit = length (seed_sentences st) ->
  length ppl = length best_edit ->
  exists st',
    revision_round data_key (best_edit, ppl) st = Ok st'
    /\ state_ok data_key st'
    /\ length (seed_sentences st') <= length (seed_sentences st).
Proof.
  intros Hok Hb Hq.
  assert (Hwf : well_formed data_key best_edit ppl st)
    by now apply state_ok_well_formed.
  exists (round_closed_form data_key best_edit ppl st).
  split; [now apply revision_round_closed|].
  split; [now apply round_closed_form_ok|].
  unfold round_closed_form, improved_positions. cbn [seed_sentences].
  rewrite length_map, <- Hb.
  etransitivity; [apply filter_length_le|]. now rewrite length_seq.
Qed.

Lemma revision_round_keeps_order_witness :
  exists st',
    revision_round ["dog||cat"] (["dog is a cat"], [3 # 1]) settled_state = Ok st'
    /\ state_ok ["dog||cat"] st'
    /\ length (seed_sentences st') <= length (seed_sentences settled_state).
Proof.
  apply (@revision_round_keeps_order ["dog||cat"] ["dog is a cat"] [3 # 1]
                                     settled_state).
  - unfold state_ok, settled_state; cbn.
    repeat split; try reflexivity;
      try (repeat constructor; try discriminate; cbn; lia).
    intros vs H _. now injection H as <-.
  - reflexivity.
  - reflexivity.
Defined.

(** ** The answer of the proposer *)

(** X3.  Whatever the tokenizer, the model, the scorer and the iteration
    order of sets, an answer of [replace_single_token] holds exactly one
    sentence and one score per seed sentence. *)
Theorem replace_single_token_one_per_seed
        (mask_token : string) (set_iter : list string -> list string)
        (encoding : Type) (get_encoding : string -> result (list encoding))
        (model_fills : encoding -> list (list entry))
        (get_perplexity : list string -> list Q)
        (seeds : list string) (vocab : option (list (list string))) (topk : nat)
        (best_edit : list string) (ppl : list Q) :
  replace_single_token mask_token set_iter get_encoding model_fills get_perplexity
                       seeds vocab topk
  = Ok (best_edit, ppl) ->
  length best_edit = length seeds /\ length ppl = length seeds.
Proof. apply replace_single_token_lengths. Qed.

Lemma replace_single_token_one_per_seed_witness :
  length ["dog is cat"] = length ["dog [MASK] cat"]
  /\ length [7 # 1] = length ["dog [MASK] cat"].
Proof.
  apply (@replace_single_token_one_per_seed
           "[MASK]" first_occurrence string stub_encoding stub_fills
           stub_perplexity ["dog [MASK] cat"] (Some [["dog"; "cat"]]) 1).
  vm_compute. reflexivity.
Defined.

(** ** The fallback ladder, stage by stage *)

(** X4.  The ladder first runs the strict check over the top [topk]
    predictions; the strict check over the pool of 100 runs only when that came
    back empty and [topk < 100]; the relaxed check runs only when every strict
    stage that ran came back empty.  A shortlist that leaves the ladder is not
    empty and is the answer of one of the three stages.  When all three come
    back empty and the candidate has a vocabulary and a sentence, the
    [ValueError] raised carries both. *)
Theorem fallback_ladder_stages
        (psp : nat -> bool -> result (list entry)) (topk : nat)
        (vocab : option (list (list string))) (seeds : list string) (n : nat) :
  (exists rest,
      fst (fallback_ladder psp topk vocab seeds n) = StageRun topk false :: rest
      /\ (In (StageRun 100 false) rest -> psp topk false = Ok [] /\ topk < 100)
      /\ (In (StageRun 100 true) rest ->
          psp topk false = Ok [] /\ (topk < 100 -> psp 100 false = Ok [])))
  /\ (forall l, snd (fallback_ladder psp topk vocab seeds n) = Ok l ->
                l <> []
                /\ (psp topk false = Ok l \/ psp 100 false = Ok l
                    \/ psp 100 true = Ok l))
  /\ (forall vs v s,
         vocab = Some vs -> nth_error vs n = Some v -> nth_error seeds n = Some s ->
         psp topk false = Ok [] -> psp 100 false = Ok [] -> psp 100 true = Ok [] ->
         snd (fallback_ladder psp topk vocab seeds n)
         = Raise (ValueError_no_valid_sentence v s)).
Proof.
  split; [apply fallback_ladder_escalates|]. split.
  - intros l Hl. split; [eapply fallback_ladder_nonempty; eassumption|].
    revert Hl.
    unfold fallback_ladder, escalate, warn_subword, topk_per_position.
    destruct (psp topk false) as [[|x1 r1]|e1];
      destruct (Nat.ltb_spec topk 100);
      destruct (psp 100 false) as [[|x2 r2]|e2];
      destruct (psp 100 true) as [[|x3 r3]|e3];
      destruct vocab as [vs|]; try destruct (nth_error vs n);
      cbn [fst snd app]; intros Hl; try discriminate; auto.
  - intros vs v s -> Hv Hs H1 H2 H3.
    rewrite (@fallback_ladder_exhausted psp topk (Some vs) seeds n H1 H2 H3).
    f_equal. now apply no_valid_sentence_reports.
Qed.

(** A candidate whose stages all come back empty, with the vocabulary
    dog, cat. *)
Lemma fallback_ladder_stages_witness :
  snd (fallback_ladder (fun _ _ => Ok []) 10 (Some [["dog"; "cat"]])
                       ["dog [MASK] cat"] 0)
  = Raise (ValueError_no_valid_sentence ["dog"; "cat"] "dog [MASK] cat").
Proof.
  apply (proj2 (proj2 (@fallback_ladder_stages
                         (fun _ _ => Ok []) 10 (Some [["dog"; "cat"]])
                         ["dog [MASK] cat"] 0))
               [["dog"; "cat"]] ["dog"; "cat"] "dog [MASK] cat");
    reflexivity.
Defined.

(* ================================================================== *)
(** ** The keys of the returned dictionary *)

Section KeysOfTheOutput.

Variable mask_token : string.
Variable rst :
  nat -> list string -> option (list (list string)) -> nat ->
  result (list string * list Q).

Lemma initial_state_keys fuel word_pairs seeds vocab topk n_blank n_blank_b
      n_blank_e t data_key st :
  initial_state mask_token rst fuel word_pairs seeds vocab topk
                n_blank n_blank_b n_blank_e
  = (t, Ok (data_key, st)) ->
  data_key = candidate_keys word_pairs seeds
  /\ data_index st = seq 0 (length data_key)
  /\ output_dict st = [].
Proof.
  unfold initial_state, candidate_keys. intros H.
  destruct (ss_truthy seeds).
  - destruct (wp_truthy word_pairs); [discriminate|].
    injection H as <- <- <-. now repeat split.
  - destruct (negb (wp_truthy word_pairs)); [discriminate|].
    destruct (mapM _ _) as [seeds0|e]; [|discriminate].
    destruct (replace_mask _ _ _ _ _ _ _ _ _) as [t1 [[[s1 e1] p1]|err]];
      [|discriminate].
    injection H as <- <- <-. now repeat split.
Qed.

(** [generate] unfolded past the test of line 240. *)
Lemma generate_ok_inv fuel stdin word_pairs seeds vocab n_revision topk
      n_blank n_blank_b n_blank_e t out :
  generate mask_token rst fuel stdin word_pairs seeds vocab n_revision topk
           n_blank n_blank_b n_blank_e
  = (t, Ok out) ->
  exists t0 data_key st0 st kvs,
    initial_state mask_token rst fuel word_pairs seeds vocab topk
                  n_blank n_blank_b n_blank_e
    = (t0, Ok (data_key, st0))
    /\ revision_loop rst fuel data_key n_revision topk t0 0%Z st0 = (t, Ok st)
    /\ entries data_key st (seq 0 (length (data_index st))) = Ok kvs
    /\ out = dict_update (output_dict st) kvs.
Proof.
  unfold generate. intros H.
  assert (Hgo :
    match initial_state mask_token rst fuel word_pairs seeds vocab topk
                        n_blank n_blank_b n_blank_e with
    | (t0, Raise e) => (t0, Raise e)
    | (t0, Ok (data_key, st0)) =>
        if negb stdin then (t0, Raise EOFError)
        else
          match revision_loop rst fuel data_key n_revision topk t0 0%Z st0 with
          | (t', Raise e) => (t', Raise e)
          | (t', Ok st) =>
              (t', kvs <- entries data_key st (seq 0 (length (data_index st))) ;;
                   Ok (dict_update (output_dict st) kvs))
          end
    end = (t, Ok out)) by (destruct word_pairs; [discriminate | exact H | exact H]).
  clear H.
  destruct (initial_state _ _ _ _ _ _ _ _ _ _) as [t0 [[data_key st0]|e]]
    eqn:Hinit; [|discriminate].
  destruct (negb stdin); [discriminate|].
  destruct (revision_loop _ _ _ _ _ _ _ _) as [t1 [st1|e]] eqn:Hloop;
    [|discriminate].
  injection Hgo as <- Hout. inv_bind Hout as kvs Hkvs. injection Hout as <-.
  exists t0, data_key, st0, st1, kvs. now repeat split.
Qed.

End KeysOfTheOutput.

(** X5.  Every key of the dictionary that [generate] returns is the key of
    one of the candidates it was given: a word pair joined by "||", or a seed
    sentence.  The run adds no key of its own. *)
Theorem generate_keys_are_candidates
        mask_token rst fuel stdin word_pairs seeds vocab n_revision topk
        n_blank n_blank_b n_blank_e t out (k : string) (h : history) :
  generate mask_token rst fuel stdin word_pairs seeds vocab n_revision topk
           n_blank n_blank_b n_blank_e
  = (t, Ok out) ->
  dict_get out k = Some h ->
  In k (candidate_keys word_pairs seeds).
Proof.
  intros Hgen Hget.
  apply generate_ok_inv in Hgen.
  destruct Hgen as (t0 & data_key & st0 & st & kvs & Hinit & Hloop & Hent & ->).
  apply initial_state_keys in Hinit. destruct Hinit as (<- & Hdi & Hout).
  assert (Hknown : key_known data_key st k)
    by (eapply final_update_provenance; [exact Hent | congruence]).
  apply (revision_loop_provenance _ _ _ _ _ _ _ Hloop) in Hknown.
  destruct Hknown as [Hk|(d & _ & Hk)].
  - rewrite Hout in Hk. now contradiction Hk.
  - eapply nth_error_In; eassumption.
Qed.

Lemma generate_keys_are_candidates_witness :
  In "dog||cat" (candidate_keys (WP_list [["dog"; "cat"]]) SS_None).
Proof.
  apply (@generate_keys_are_candidates
           "[MASK]" restless_backend 10 true (WP_list [["dog"; "cat"]]) SS_None
           None 0%Z 10 1%Z 0%Z 0%Z 3
           [("dog||cat",
             (["dog [MASK] cat"; "dog is cat"; "dog is cat so";
               "dog is cat so so"],
              [1 # 1; 1 # 2; 1 # 3]%Q))]
           "dog||cat"
           (["dog [MASK] cat"; "dog is cat"; "dog is cat so"; "dog is cat so so"],
            [1 # 1; 1 # 2; 1 # 3]%Q)).
  - vm_compute. reflexivity.
  - reflexivity.
Defined.

(* ================================================================== *)
(** ** Candidates that enter the loop without a score *)

(** Line 292 reads the last score of every candidate the backend answered
    for: when no candidate has one, a round can only go through on an answer
    without sentences, and then the active set is empty. *)
Lemma revision_round_without_scores data_key best_edit ppl st st' :
  (forall x p, nth_error (edit_ppl st) x = Some p -> p = []) ->
  revision_round data_key (best_edit, ppl) st = Ok st' ->
  best_edit = []
  /\ seed_sentences st' = [] /\ data_index st' = []
  /\ output_dict st' = output_dict st.
Proof.
  intros Hnone H. unfold revision_round in H.
  inv_bind H as fixed Hfixed. inv_bind H as kvs Hkvs.
  inv_bind H as unfixed Hunfixed. inv_bind H as edit' He.
  inv_bind H as edit_ppl' Hp. inv_bind H as seeds' Hs.
  inv_bind H as ppl' Hq. inv_bind H as data_index' Hdi.
  inv_bind H as vocab' Hv. injection H as <-.
  cbn [seed_sentences data_index output_dict].
  destruct best_edit as [|b best_edit].
  - cbn in Hfixed, Hunfixed. injection Hfixed as <-. injection Hunfixed as <-.
    cbn in Hkvs, Hs, Hdi. injection Hkvs as <-. injection Hs as <-.
    injection Hdi as <-. now repeat split.
  - exfalso. unfold index_unfixed in Hunfixed. cbn [length seq filterM] in Hunfixed.
    inv_bind Hunfixed as keep Hkeep.
    inv_bind Hkeep as q Hq0. inv_bind Hkeep as ep Hep. inv_bind Hkeep as l Hl.
    apply index_ok in Hep. rewrite (Hnone _ _ Hep) in Hl. discriminate.
Qed.

Lemma revision_loop_without_scores rst data_key n_revision topk fuel t i st t' st' :
  (forall x p, nth_error (edit_ppl st) x = Some p -> p = []) ->
  revision_loop rst fuel data_key n_revision topk t i st = (t', Ok st') ->
  (exists ppl, rst t (seed_sentences st) (vocab_to_keep st) topk = Ok ([], ppl))
  /\ data_index st' = [] /\ output_dict st' = output_dict st.
Proof.
  intros Hnone H. destruct fuel as [|fuel]; cbn in H; [discriminate|].
  destruct (rst t _ _ topk) as [[best_edit ppl]|e]; [|discriminate].
  destruct (revision_round data_key (best_edit, ppl) st) as [st1|e] eqn:Hround;
    [|discriminate].
  destruct (@revision_round_without_scores _ _ _ _ _ Hnone Hround)
    as (-> & Hs & Hd & Ho).
  rewrite Hs in H. cbn in H. injection H as <- <-.
  split; [now exists ppl | now split].
Qed.

(** X6.  Called with seed sentences (and [word_pairs=[]], which line 240
    needs), [generate] never returns an entry: every candidate enters the
    revision loop with an empty score history, whose last item line 292 reads,
    so the call raises unless the backend's first answer holds no sentence,
    and then the dictionary returned is empty. *)
Theorem generate_seed_sentences_no_entry
        mask_token rst fuel stdin word_pairs seeds vocab n_revision topk
        n_blank n_blank_b n_blank_e t out :
  ss_truthy seeds = true ->
  generate mask_token rst fuel stdin word_pairs seeds vocab n_revision topk
           n_blank n_blank_b n_blank_e
  = (t, Ok out) ->
  out = []
  /\ exists ppl, rst 0 (candidate_keys word_pairs seeds) vocab topk = Ok ([], ppl).
Proof.
  intros Hss Hgen. apply generate_ok_inv in Hgen.
  destruct Hgen as (t0 & data_key & st0 & st & kvs & Hinit & Hloop & Hent & ->).
  unfold initial_state in Hinit. unfold candidate_keys. rewrite Hss in *.
  destruct (wp_truthy word_pairs); [discriminate|].
  injection Hinit as <- <- <-.
  apply revision_loop_without_scores in Hloop.
  - destruct Hloop as ((ppl & Hrst) & Hd & Ho). cbn in Hrst, Ho.
    rewrite Hd in Hent. cbn in Hent. injection Hent as <-.
    rewrite Ho. split; [reflexivity | now exists ppl].
  - cbn [edit_ppl]. intros x p Hp. apply nth_error_In in Hp.
    now apply repeat_spec in Hp.
Qed.

Lemma generate_seed_sentences_no_entry_witness :
  @nil (string * history) = []
  /\ exists ppl,
      silent_backend 0 (candidate_keys (WP_list []) (SS_list ["a dog"])) None 10
      = Ok ([], ppl).
Proof.
  apply (@generate_seed_sentences_no_entry
           "[MASK]" silent_backend 1 true (WP_list []) (SS_list ["a dog"]) None
           0%Z 10 1%Z 0%Z 0%Z 1 []);
    reflexivity.
Defined.

(** Without blanks the seed of a pair is its two words with a space between
    them. *)
Lemma seeds_without_blanks mask_token (wps : list (list string))
      (n_blank n_blank_b n_blank_e : Z) :
  (n_blank <= 0)%Z -> (n_blank_b <= 0)%Z -> (n_blank_e <= 0)%Z ->
  Forall (fun p => exists h t, p = [h; t]
                               /\ contains mask_token (h ++ " " ++ t) = false) wps ->
  exists seeds0,
    mapM (fun x => pair_to_seed mask_token x n_blank n_blank_b n_blank_e) wps
    = Ok seeds0
    /\ length seeds0 = length wps
    /\ forallb (fun x => negb (contains mask_token x)) seeds0 = true.
Proof.
  intros Hn Hb He. induction 1 as [|p wps (h & t & -> & Hm) _ IH].
  - exists []. now repeat split.
  - destruct IH as (seeds0 & Hs & Hlen & Hall).
    exists ((h ++ " " ++ t)%string :: seeds0). cbn [mapM]. rewrite Hs.
    unfold pair_to_seed.
    replace (Z.to_nat n_blank) with 0 by lia.
    replace (Z.to_nat n_blank_b) with 0 by lia.
    replace (Z.to_nat n_blank_e) with 0 by lia.
    cbn [repeat app String.concat bind forallb length].
    rewrite Hm, Hall, Hlen. now repeat split.
Qed.

(** X7.  Called with word pairs and no blank at all (the three counts zero
    or negative, no mask token in the words), [generate] never returns an
    entry either: no mask is there to fill, so no score is recorded before the
    revision loop, [zip( *[])] leaves no score history, and the first round
    raises unless the backend's answer holds no sentence. *)
Theorem generate_without_blanks_no_entry
        mask_token rst fuel stdin (wps : list (list string)) vocab n_revision topk
        n_blank n_blank_b n_blank_e t out :
  (n_blank <= 0)%Z -> (n_blank_b <= 0)%Z -> (n_blank_e <= 0)%Z ->
  Forall (fun p => exists h t, p = [h; t]
                               /\ contains mask_token (h ++ " " ++ t) = false) wps ->
  generate mask_token rst fuel stdin (WP_list wps) SS_None vocab n_revision topk
           n_blank n_blank_b n_blank_e
  = (t, Ok out) ->
  out = [].
Proof.
  intros Hn Hb He Hw Hgen. apply generate_ok_inv in Hgen.
  destruct Hgen as (t0 & data_key & st0 & st & kvs & Hinit & Hloop & Hent & ->).
  unfold initial_state in Hinit. cbn [ss_truthy] in Hinit.
  destruct (negb (wp_truthy (WP_list wps))) eqn:Ewp; [discriminate|].
  destruct (@seeds_without_blanks mask_token wps _ _ _ Hn Hb He Hw)
    as (seeds0 & Hs & Hlen & Hall).
  rewrite Hs in Hinit.
  assert (Hne : existsb (fun x => negb (contains mask_token x)) seeds0 = true).
  { destruct wps as [|p wps]; [discriminate|].
    destruct seeds0 as [|s seeds0]; [discriminate|].
    cbn [forallb] in Hall. apply andb_true_iff in Hall. destruct Hall as (Hh & _).
    cbn [existsb]. now rewrite Hh. }
  destruct fuel as [|fuel]; [discriminate|].
  cbn [replace_mask] in Hinit. rewrite Hne, Hall in Hinit.
  injection Hinit as <- <- <-.
  apply revision_loop_without_scores in Hloop.
  - destruct Hloop as (_ & Hd & Ho). cbn in Ho.
    rewrite Hd in Hent. cbn in Hent. injection Hent as <-. now rewrite Ho.
  - cbn. intros [|x] p Hp; discriminate.
Qed.

Lemma generate_without_blanks_no_entry_witness :
  @nil (string * history) = [].
Proof.
  apply (@generate_without_blanks_no_entry
           "[MASK]" silent_backend 1 true [["dog"; "cat"]] None 0%Z 10
           0%Z 0%Z 0%Z 1 []); try lia.
  - repeat constructor. exists "dog", "cat". split; reflexivity.
  - reflexivity.
Defined.

(* ================================================================== *)
(** ** The shape of the partition map *)

Lemma get_partition_nth {A} (groups : list (list A)) (i : nat) :
  i < length groups ->
  nth_error (get_partition groups) i
  = Some (list_sum (firstn i (map (@length A) groups)),
          list_sum (firstn (i + 1) (map (@length A) groups))).
Proof.
  intros Hi. unfold get_partition.
  rewrite (map_nth_error _ i (seq 0 (length groups)) (d := i)); [reflexivity|].
  rewrite nth_error_nth' with (d := 0) by (rewrite length_seq; lia).
  now rewrite seq_nth.
Qed.

(** X8.  The ranges of the partition map lie end to end: there is one per
    group, the first starts at 0, each is as long as its group and starts
    where the one before it ends, and the last ends at the length of the
    flattened list; so they neither overlap nor leave a gap. *)
Theorem get_partition_contiguous {A : Type} (groups : list (list A)) :
  length (get_partition groups) = length groups
  /\ (forall s e, nth_error (get_partition groups) 0 = Some (s, e) -> s = 0)
  /\ (forall i s e g,
         nth_error (get_partition groups) i = Some (s, e) ->
         nth_error groups i = Some g ->
         e = s + length g)
  /\ (forall i s e s' e',
         nth_error (get_partition groups) i = Some (s, e) ->
         nth_error (get_partition groups) (S i) = Some (s', e') ->
         s' = e)
  /\ (forall s e,
         nth_error (get_partition groups) (length groups - 1) = Some (s, e) ->
         e = length (concat groups)).
Proof.
  assert (Hlt : forall i se, nth_error (get_partition groups) i = Some se ->
                             i < length groups).
  { intros i se H. rewrite <- (get_partition_length groups).
    apply nth_error_Some. congruence. }
  split; [apply get_partition_length|]. split; [|split; [|split]].
  - intros s e H. rewrite get_partition_nth in H by (eapply Hlt; eassumption).
    now injection H as <- _.
  - intros i s e g H Hg. rewrite get_partition_nth in H by (eapply Hlt; eassumption).
    injection H as <- <-.
    rewrite Nat.add_1_r, (firstn_succ_nth 0)
      by (rewrite length_map; eapply Hlt, get_partition_nth, nth_error_Some;
          congruence).
    rewrite list_sum_app. cbn [list_sum fold_right]. rewrite Nat.add_0_r. f_equal.
    replace (nth i (map (@length A) groups) 0) with (length (nth i groups []))
      by (symmetry; apply (map_nth (@length A) groups [] i)).
    f_equal. now apply nth_error_nth.
  - intros i s e s' e' H H'.
    rewrite get_partition_nth in H by (eapply Hlt; eassumption).
    rewrite get_partition_nth in H' by (eapply Hlt; eassumption).
    injection H as _ <-. injection H' as <- _. now rewrite Nat.add_1_r.
  - intros s e H. pose proof (Hlt _ _ H) as Hi.
    rewrite get_partition_nth in H by exact Hi. injection H as _ <-.
    replace (length groups - 1 + 1) with (length (map (@length A) groups))
      by (rewrite length_map; lia).
    now rewrite firstn_all, length_concat.
Qed.

Lemma get_partition_contiguous_witness :
  length (get_partition [[1; 2]; []; [3]]) = length [[1; 2]; []; [3]]
  /\ (forall s e, nth_error (get_partition [[1; 2]; []; [3]]) 0 = Some (s, e) ->
                  s = 0)
  /\ (forall i s e g,
         nth_error (get_partition [[1; 2]; []; [3]]) i = Some (s, e) ->
         nth_error [[1; 2]; []; [3]] i = Some g ->
         e = s + length g)
  /\ (forall i s e s' e',
         nth_error (get_partition [[1; 2]; []; [3]]) i = Some (s, e) ->
         nth_error (get_partition [[1; 2]; []; [3]]) (S i) = Some (s', e') ->
         s' = e)
  /\ (forall s e,
         nth_error (get_partition [[1; 2]; []; [3]])
                   (length [[1; 2]; []; [3]] - 1) = Some (s, e) ->
         e = length (concat [[1; 2]; []; [3]])).
Proof. exact (@get_partition_contiguous nat [[1; 2]; []; [3]]). Defined.

(* ================================================================== *)
(** ** Substrings *)

Lemma prefix_empty (s : string) : String.prefix "" s = true.
Proof. now destruct s. Qed.

Lemma prefix_refl (x : string) : String.prefix x x = true.
Proof.
  induction x as [|c x IH]; [reflexivity|]. cbn.
  destruct (ascii_dec c c); [exact IH | congruence].
Qed.

Lemma prefix_app_l (x : string) :
  forall a b, String.prefix x a = true -> String.prefix x (a ++ b) = true.
Proof.
  induction x as [|c x IH]; intros a b H; [apply prefix_empty|].
  destruct a as [|d a]; [discriminate|]. cbn in *.
  destruct (ascii_dec c d); [now apply IH | discriminate].
Qed.

Lemma prefix_self_app (x b : string) : String.prefix x (x ++ b) = true.
Proof. apply prefix_app_l, prefix_refl. Qed.

Lemma contains_prefix (x s : string) :
  String.prefix x s = true -> contains x s = true.
Proof. intros H. destruct s; cbn [contains]; now rewrite H. Qed.

Lemma contains_app_r (x a b : string) :
  contains x b = true -> contains x (a ++ b) = true.
Proof.
  intros H. induction a as [|c a IH]; [exact H|].
  cbn [append contains]. rewrite IH. apply orb_true_r.
Qed.

Lemma contains_app_l (x a b : string) :
  contains x a = true -> contains x (a ++ b) = true.
Proof.
  induction a as [|c a IH]; intros H.
  - cbn [contains] in H. rewrite orb_false_r in H.
    destruct x; [|discriminate]. apply contains_prefix, prefix_empty.
  - cbn [contains] in H. apply orb_true_iff in H. destruct H as [H|H].
    + apply contains_prefix. now apply (prefix_app_l _ (String c a)).
    + cbn [append contains]. rewrite IH by exact H. apply orb_true_r.
Qed.

Lemma contains_concat (sep x : string) (l : list string) :
  In x l -> contains x (String.concat sep l) = true.
Proof.
  induction l as [|y l IH]; intros Hin; [destruct Hin|].
  destruct l as [|z l].
  - destruct Hin as [->|[]]. cbn [String.concat].
    apply contains_prefix, prefix_refl.
  - change (String.concat sep (y :: z :: l))
      with (y ++ sep ++ String.concat sep (z :: l))%string.
    destruct Hin as [->|Hin].
    + apply contains_prefix, prefix_self_app.
    + now apply contains_app_r, contains_app_r, IH.
Qed.

(* ================================================================== *)
(** ** Seeds and keys of word pairs *)

(** X9.  [pair_to_seed] answers exactly for lists of two words; the seed
    contains both words, and it contains the mask token as soon as one of the
    three counts of blanks is positive. *)
Theorem pair_to_seed_shape (mask_token : string) (word_pair : list string)
        (n_blank n_blank_b n_blank_e : Z) :
  (length word_pair <> 2 ->
   pair_to_seed mask_token word_pair n_blank n_blank_b n_blank_e
   = Raise (AssertionError "word_pair contains wrong number of tokens"))
  /\ (forall h t,
         word_pair = [h; t] ->
         exists seed,
           pair_to_seed mask_token word_pair n_blank n_blank_b n_blank_e = Ok seed
           /\ contains h seed = true /\ contains t seed = true
           /\ ((0 < n_blank \/ 0 < n_blank_b \/ 0 < n_blank_e)%Z ->
               contains mask_token seed = true)).
Proof.
  split.
  - intros Hlen. destruct word_pair as [|h [|t [|u r]]]; try reflexivity.
    now contradiction Hlen.
  - intros h t ->. cbn [pair_to_seed]. eexists. split; [reflexivity|].
    split; [|split].
    + apply contains_concat. rewrite !in_app_iff. right. left. now left.
    + apply contains_concat. rewrite !in_app_iff. right. right. right. left.
      now left.
    + intros Hpos. apply contains_concat. rewrite !in_app_iff.
      assert (Hrep : forall n, (0 < n)%Z -> In mask_token (repeat mask_token (Z.to_nat n))).
      { intros n Hn. destruct (Z.to_nat n) as [|k] eqn:E; [lia|]. now left. }
      destruct Hpos as [H|[H|H]].
      * right. right. left. now apply Hrep.
      * left. now apply Hrep.
      * right. right. right. right. now apply Hrep.
Qed.

Lemma pair_to_seed_shape_witness :
  exists seed,
    pair_to_seed "[MASK]" ["dog"; "cat"] 1 0 0 = Ok seed
    /\ contains "dog" seed = true /\ contains "cat" seed = true
    /\ ((0 < 1 \/ 0 < 0 \/ 0 < 0)%Z -> contains "[MASK]" seed = true).
Proof.
  apply (proj2 (@pair_to_seed_shape "[MASK]" ["dog"; "cat"] 1 0 0) "dog" "cat").
  reflexivity.
Defined.

Lemma contains_bar_cons (c : ascii) (r : string) :
  contains "|" (String c r) = false -> c <> "|"%char /\ contains "|" r = false.
Proof.
  cbn [contains]. intros H. apply orb_false_iff in H.
  destruct H as (Hp & Hr). split; [|exact Hr].
  intros ->. cbn in Hp. rewrite prefix_empty in Hp. discriminate.
Qed.

Lemma join_key_injective (h : string) :
  forall t h' t',
    contains "|" h = false -> contains "|" h' = false ->
    (h ++ "||" ++ t)%string = (h' ++ "||" ++ t')%string ->
    h = h' /\ t = t'.
Proof.
  induction h as [|c h IH]; intros t h' t' Hh Hh' Heq.
  - destruct h' as [|c' h']; cbn in Heq.
    + injection Heq as ->. now split.
    + injection Heq as <- _. apply contains_bar_cons in Hh'. now destruct Hh'.
  - destruct h' as [|c' h']; cbn in Heq.
    + injection Heq as -> _. apply contains_bar_cons in Hh. now destruct Hh.
    + injection Heq as <- Heq.
      apply contains_bar_cons in Hh, Hh'.
      destruct (IH t h' t' (proj2 Hh) (proj2 Hh') Heq) as (-> & ->). now split.
Qed.

(** X10.  The key of a word pair, its two words joined by "||", tells the
    pair: two pairs whose first words hold no "|" and whose keys are equal
    are the same pair, so a list of different such pairs gets different
    keys in [data_key]. *)
Theorem pair_keys_distinct :
  (forall h t h' t',
      contains "|" h = false -> contains "|" h' = false ->
      String.concat "||" [h; t] = String.concat "||" [h'; t'] ->
      h = h' /\ t = t')
  /\ (forall wps : list (list string),
         Forall (fun p => exists h t, p = [h; t] /\ contains "|" h = false) wps ->
         NoDup wps ->
         NoDup (map (String.concat "||") wps)).
Proof.
  split.
  - intros h t h' t' Hh Hh' Heq. now apply (join_key_injective h t h' t').
  - intros wps Hw Hnd. induction Hnd as [|p wps Hn Hnd IH]; [constructor|].
    inversion Hw as [|? ? (h & t & -> & Hh) Hw']; subst.
    cbn [map]. constructor; [|now apply IH].
    intros Hin. apply in_map_iff in Hin. destruct Hin as (q & Hq & Hin).
    rewrite Forall_forall in Hw'. destruct (Hw' q Hin) as (h' & t' & -> & Hh').
    apply Hn. cbn [String.concat] in Hq.
    destruct (join_key_injective h' t' h t Hh' Hh Hq) as (-> & ->). exact Hin.
Qed.

Lemma pair_keys_distinct_witness :
  NoDup (map (String.concat "||") [["dog"; "cat"]; ["cat"; "dog"]]).
Proof.
  apply (proj2 pair_keys_distinct [["dog"; "cat"]; ["cat"; "dog"]]).
  - repeat constructor; eexists; eexists; (split; [reflexivity|]); reflexivity.
  - repeat constructor; cbn; intuition discriminate.
Defined.

(* ================================================================== *)
(** ** Scores go down during the revision *)

Lemma decreasing_app (ext1 : list Q) :
  forall q ext2,
    ext1 <> [] -> decreasing_from q ext1 ->
    decreasing_from (last ext1 0%Q) ext2 ->
    decreasing_from q (ext1 ++ ext2).
Proof.
  induction ext1 as [|y ext1 IH]; intros q ext2 Hne H1 H2; [congruence|].
  destruct H1 as (Hy & H1). cbn [app decreasing_from]. split; [exact Hy|].
  destruct ext1 as [|z ext1]; [exact H2|].
  apply IH; [discriminate | exact H1 | exact H2].
Qed.

Lemma last_app_nonempty {A} (d : A) (l l' : list A) :
  l' <> [] -> last (l ++ l') d = last l' d.
Proof.
  intros Hne. induction l as [|a l IH]; [reflexivity|].
  cbn [app]. rewrite <- IH. destruct (l ++ l') eqn:E; [|reflexivity].
  apply app_eq_nil in E. now destruct E.
Qed.

Lemma continues_refl (h : history) : continues h h.
Proof.
  exists [], []. rewrite !app_nil_r. repeat split. now left.
Qed.

Lemma continues_trans (h0 h1 h2 : history) :
  continues h0 h1 -> continues h1 h2 -> continues h0 h2.
Proof.
  intros (es1 & ext1 & He1 & Hp1 & Hl1 & H1) (es2 & ext2 & He2 & Hp2 & Hl2 & H2).
  exists (es1 ++ es2), (ext1 ++ ext2).
  rewrite He2, Hp2, He1, Hp1, <- !app_assoc, !length_app.
  repeat split; [lia|].
  destruct H2 as [->|(Hne2 & Hd2)]; [rewrite app_nil_r; exact H1|].
  destruct H1 as [->|(Hne1 & Hd1)].
  - right. rewrite Hp1, app_nil_r in Hne2, Hd2. now split.
  - right. split; [exact Hne1|].
    destruct ext1 as [|y ext1].
    + rewrite Hp1, app_nil_r in Hd2. exact Hd2.
    + apply decreasing_app; [discriminate | exact Hd1|].
      rewrite Hp1 in Hd2. now rewrite last_app_nonempty in Hd2 by discriminate.
Qed.

Lemma last_item_ok {A} (d : A) (l : list A) (a : A) :
  last_item l = Ok a -> l <> [] /\ a = last l d.
Proof.
  intros H. destruct l as [|x l]; [discriminate|].
  split; [discriminate|].
  rewrite (last_item_last d) in H by discriminate. now injection H.
Qed.

Lemma filterM_ok_In {A} (p : A -> result bool) (l : list A) :
  forall r, filterM p l = Ok r -> forall a, In a r -> p a = Ok true.
Proof.
  induction l as [|x l IH]; intros r H a Ha; cbn in H.
  - injection H as <-. destruct Ha.
  - inv_bind H as b Hb. inv_bind H as r' Hr'. injection H as <-.
    destruct b; [destruct Ha as [<-|Ha]|]; eauto.
Qed.

Lemma dict_update_Forall (P : string * history -> Prop) :
  (forall k k' v, String.eqb k' k = true -> P (k, v) -> P (k', v)) ->
  forall kvs d, Forall P d -> Forall P kvs -> Forall P (dict_update d kvs).
Proof.
  intros Hkey. unfold dict_update.
  induction kvs as [|[k v] kvs IH]; intros d Hd Hk; cbn [fold_left]; [exact Hd|].
  inversion Hk as [|? ? Hkv Hk']; subst. apply IH; [|exact Hk'].
  cbn [fst snd]. clear IH Hk Hk'.
  induction d as [|[k0 v0] d IHd]; cbn [dict_set]; [now repeat constructor|].
  inversion Hd as [|? ? H0 Hd']; subst.
  destruct (String.eqb k0 k) eqn:E; constructor; eauto.
Qed.

Section ScoresGoDown.

Variable data_key : list string.
Variable st0 : loop_state.

Lemma entries_descend (st : loop_state) (ns : list nat) (kvs : list (string * history)) :
  descends st0 st ->
  entries data_key st ns = Ok kvs ->
  Forall (entry_descends data_key st0) kvs.
Proof.
  intros Hdesc H. apply mapM_Forall2 in H.
  induction H as [|n kv ns kvs Hn _ IH]; constructor; [|exact IH].
  inv_bind Hn as d Hd. inv_bind Hn as k Hk. inv_bind Hn as e He.
  inv_bind Hn as p Hp. injection Hn as <-.
  apply index_ok in Hd, He, Hp.
  destruct (Hdesc _ _ _ _ Hd He Hp) as (x & e0 & p0 & Hx & He0 & Hp0 & Hc).
  exists x, d, e0, p0. cbn [fst snd]. repeat split; try assumption.
  unfold data_key_get in Hk. destruct (nth_error data_key d); [|discriminate].
  now injection Hk as <-.
Qed.

Lemma entry_descends_key (k k' : string) (v : history) :
  String.eqb k' k = true ->
  entry_descends data_key st0 (k, v) -> entry_descends data_key st0 (k', v).
Proof. intros E H. apply String.eqb_eq in E. now subst. Qed.

Lemma revision_round_descends best st st' :
  descends st0 st ->
  Forall (entry_descends data_key st0) (output_dict st) ->
  revision_round data_key best st = Ok st' ->
  descends st0 st' /\ Forall (entry_descends data_key st0) (output_dict st').
Proof.
  intros Hdesc Hdict H. destruct best as [best_edit ppl].
  unfold revision_round in H.
  inv_bind H as fixed Hfixed. inv_bind H as kvs Hkvs.
  inv_bind H as unfixed Hunfixed. inv_bind H as edit' He.
  inv_bind H as edit_ppl' Hp. inv_bind H as seeds' Hs.
  inv_bind H as ppl' Hq. inv_bind H as data_index' Hdi.
  inv_bind H as vocab' Hv. injection H as <-.
  cbn [edit edit_ppl data_index output_dict]. split.
  - intros y d e' p' Hy He' Hp'.
    apply mapM_Forall2 in He, Hp, Hdi.
    destruct (Forall2_nth_error_r He _ He') as (x & Hx & Hex).
    destruct (Forall2_nth_error_r Hp _ Hp') as (x1 & Hx1 & Hpx).
    destruct (Forall2_nth_error_r Hdi _ Hy) as (x2 & Hx2 & Hdx).
    assert (x1 = x) by congruence. assert (x2 = x) by congruence. subst x1 x2.
    inv_bind Hex as e He0. inv_bind Hex as s Hs0. injection Hex as <-.
    inv_bind Hpx as p Hp0. inv_bind Hpx as q Hq0. injection Hpx as <-.
    apply index_ok in He0, Hp0, Hdx.
    destruct (Hdesc _ _ _ _ Hdx He0 Hp0) as (x0 & e0 & p0 & Hx0 & He00 & Hp00 & Hc).
    exists x0, e0, p0. repeat split; try assumption.
    apply (continues_trans Hc).
    pose proof (filterM_ok_In _ _ Hunfixed x (nth_error_In _ _ Hx)) as Hkeep.
    cbn beta in Hkeep.
    inv_bind Hkeep as q1 Hq1. inv_bind Hkeep as p1 Hp1. inv_bind Hkeep as l Hl.
    injection Hkeep as Hlt.
    apply index_ok in Hp1. assert (p1 = p) by congruence. subst p1.
    assert (q1 = q) by congruence. subst q1.
    destruct (last_item_ok 0%Q _ Hl) as (Hne & ->). apply Qltb_true in Hlt.
    exists [s], [q]. cbn [fst snd length decreasing_from]. repeat split.
    right. now repeat split.
  - apply dict_update_Forall; [apply entry_descends_key | exact Hdict|].
    eapply entries_descend; eassumption.
Qed.

Lemma revision_loop_descends rst n_revision topk fuel :
  forall t i st t' st',
    descends st0 st ->
    Forall (entry_descends data_key st0) (output_dict st) ->
    revision_loop rst fuel data_key n_revision topk t i st = (t', Ok st') ->
    descends st0 st' /\ Forall (entry_descends data_key st0) (output_dict st').
Proof.
  induction fuel as [|fuel IH]; intros t i st t' st' Hdesc Hdict H; cbn in H;
    [discriminate|].
  destruct (rst t _ _ topk) as [best|e]; [|discriminate].
  destruct (revision_round data_key best st) as [st1|e] eqn:Hround; [|discriminate].
  destruct (@revision_round_descends _ _ _ Hdesc Hdict Hround) as (Hd1 & Ho1).
  destruct (length (seed_sentences st1) =? 0);
    [injection H as <- <-; now split|].
  destruct (i >? n_revision)%Z; [injection H as <- <-; now split|].
  eapply IH; eassumption.
Qed.

End ScoresGoDown.

Lemma descends_refl (st : loop_state) : descends st st.
Proof.
  intros y d e p Hd He Hp. exists y, e, p. repeat split; try assumption.
  apply continues_refl.
Qed.

(** X11.  Every history that [generate] returns continues the history its
    candidate had when the revision loop started: the snapshots and scores
    recorded while the masks were filled come first, then one snapshot per
    score, and the scores appended by the revision go strictly down, the first
    of them strictly below the last score recorded before. *)
Theorem generate_scores_go_down
        mask_token rst fuel stdin word_pairs seeds vocab n_revision topk
        n_blank n_blank_b n_blank_e t out (k : string) (e : list string)
        (p : list Q) :
  generate mask_token rst fuel stdin word_pairs seeds vocab n_revision topk
           n_blank n_blank_b n_blank_e
  = (t, Ok out) ->
  dict_get out k = Some (e, p) ->
  exists t0 data_key st0 x d e0 p0,
    initial_state mask_token rst fuel word_pairs seeds vocab topk
                  n_blank n_blank_b n_blank_e
    = (t0, Ok (data_key, st0))
    /\ nth_error (data_index st0) x = Some d
    /\ nth_error data_key d = Some k
    /\ nth_error (edit st0) x = Some e0
    /\ nth_error (edit_ppl st0) x = Some p0
    /\ continues (e0, p0) (e, p).
Proof.
  intros Hgen Hget. apply generate_ok_inv in Hgen.
  destruct Hgen as (t0 & data_key & st0 & st & kvs & Hinit & Hloop & Hent & ->).
  pose proof (initial_state_keys _ _ _ _ _ _ _ _ _ _ Hinit) as (_ & _ & Hout).
  assert (H0 : Forall (entry_descends data_key st0) (output_dict st0))
    by (rewrite Hout; constructor).
  destruct (@revision_loop_descends data_key st0 rst n_revision topk fuel
              _ _ _ _ _ (descends_refl st0) H0 Hloop) as (Hdesc & Hdict).
  assert (Hall : Forall (entry_descends data_key st0)
                        (dict_update (output_dict st) kvs)).
  { apply dict_update_Forall; [apply entry_descends_key | exact Hdict|].
    eapply entries_descend; eassumption. }
  apply dict_get_In in Hget. rewrite Forall_forall in Hall.
  destruct (Hall _ Hget) as (x & d & e0 & p0 & Hx & Hk & He0 & Hp0 & Hc).
  exists t0, data_key, st0, x, d, e0, p0. now repeat split.
Qed.

Lemma generate_scores_go_down_witness :
  exists t0 data_key st0 x d e0 p0,
    initial_state "[MASK]" restless_backend 10 (WP_list [["dog"; "cat"]]) SS_None
                  None 10 1 0 0
    = (t0, Ok (data_key, st0))
    /\ nth_error (data_index st0) x = Some d
    /\ nth_error data_key d = Some "dog||cat"
    /\ nth_error (edit st0) x = Some e0
    /\ nth_error (edit_ppl st0) x = Some p0
    /\ continues (e0, p0)
                 (["dog [MASK] cat"; "dog is cat"; "dog is cat so";
                   "dog is cat so so"],
                  [1 # 1; 1 # 2; 1 # 3]%Q).
Proof.
  apply (@generate_scores_go_down
           "[MASK]" restless_backend 10 true (WP_list [["dog"; "cat"]]) SS_None
           None 0%Z 10 1%Z 0%Z 0%Z 3
           [("dog||cat",
             (["dog [MASK] cat"; "dog is cat"; "dog is cat so";
               "dog is cat so so"],
              [1 # 1; 1 # 2; 1 # 3]%Q))]
           "dog||cat").
  - vm_compute. reflexivity.
  - reflexivity.
Defined.

(* ================================================================== *)
(** ** What the proposer returns passes the check *)

Lemma In_firstn {A} (n : nat) (l : list A) (a : A) : In a (firstn n l) -> In a l.
Proof.
  revert n. induction l as [|x l IH]; intros [|n] H; cbn in H; try contradiction.
  destruct H as [->|H]; [now left | right; eauto].
Qed.

Lemma Forall2_In_r {A B} (R : A -> B -> Prop) (l : list A) (r : list B) (v : B) :
  Forall2 R l r -> In v r -> exists x, In x l /\ R x v.
Proof.
  intros H Hv. apply In_nth_error in Hv. destruct Hv as (y & Hy).
  destruct (Forall2_nth_error_r H _ Hy) as (x & Hx & HR).
  exists x. split; [eapply nth_error_In; eassumption | exact HR].
Qed.

Lemma filter_none_In {A} (l : list (option A)) (a : A) :
  In a (filter_none l) -> In (Some a) l.
Proof.
  induction l as [|[x|] l IH]; cbn; [tauto| |auto].
  intros [->|H]; [now left | right; auto].
Qed.

Lemma combine_seq_nth {B} (l : list B) :
  forall k len n a b,
    nth_error (combine (seq k len) l) n = Some (a, b) -> a = k + n.
Proof.
  induction l as [|x l IH]; intros k [|len] [|n] a b H; cbn in H; try discriminate.
  - injection H as <- _. lia.
  - apply IH in H. lia.
Qed.

(** A fill that [decode_topk] keeps is the fill it was given, and it passes
    the check of the mode in force when a vocabulary is there. *)
Lemma decode_topk_kept mask_token vocab n allow_subword (c c' : entry) :
  decode_topk mask_token vocab n allow_subword c = Ok (Some c') ->
  c' = c
  /\ forall vs, vocab = Some vs -> vs <> [] ->
       exists v, nth_error vs n = Some v
                 /\ admissible allow_subword v (remove_all mask_token (fst c))
                    = Some true.
Proof.
  unfold decode_topk. intros H.
  destruct vocab as [[|v0 vs0]|]; cbn [truthy] in H.
  - injection H as <-. split; [reflexivity|]. intros vs Hvs. now injection Hvs as <-.
  - inv_bind H as v Hv. apply index_ok in Hv.
    destruct (admissible allow_subword v _) as [[|]|] eqn:E; try discriminate.
    injection H as <-. split; [reflexivity|].
    intros vs Hvs _. injection Hvs as <-. now exists v.
  - injection H as <-. split; [reflexivity|]. discriminate.
Qed.

Lemma process_single_pair_kept mask_token vocab n total s e k allow_subword r :
  process_single_pair mask_token vocab n total s e k allow_subword = Ok r ->
  forall c, In c r ->
    forall vs, vocab = Some vs -> vs <> [] ->
      exists v, nth_error vs n = Some v
                /\ admissible allow_subword v (remove_all mask_token (fst c))
                   = Some true.
Proof.
  unfold process_single_pair. intros H c Hc.
  inv_bind H as per_i Hi. injection H as <-.
  apply in_concat in Hc. destruct Hc as (l1 & Hl1 & Hc).
  apply mapM_Forall2 in Hi.
  destruct (@Forall2_In_r _ _ _ _ _ _ Hi Hl1) as (i & _ & Hi1).
  inv_bind Hi1 as filtered Hf. inv_bind Hi1 as per_pos Hpos. injection Hi1 as <-.
  apply in_concat in Hc. destruct Hc as (l2 & Hl2 & Hc).
  apply mapM_Forall2 in Hpos.
  destruct (@Forall2_In_r _ _ _ _ _ _ Hpos Hl2) as (ranked & _ & Hr).
  inv_bind Hr as opts Hopts. injection Hr as <-.
  apply filter_none_In in Hc. apply mapM_Forall2 in Hopts.
  destruct (@Forall2_In_r _ _ _ _ _ _ Hopts Hc) as (j & _ & Hj).
  inv_bind Hj as c0 Hc0.
  destruct (@decode_topk_kept _ _ _ _ _ _ Hj) as (-> & Hadm). exact Hadm.
Qed.

Lemma fallback_ladder_answer psp topk vocab seeds n (l : list entry) :
  snd (fallback_ladder psp topk vocab seeds n) = Ok l ->
  psp topk false = Ok l \/ psp 100 false = Ok l \/ psp 100 true = Ok l.
Proof.
  unfold fallback_ladder, escalate, warn_subword, topk_per_position.
  destruct (psp topk false) as [[|x1 r1]|e1];
    destruct (Nat.ltb_spec topk 100);
    destruct (psp 100 false) as [[|x2 r2]|e2];
    destruct (psp 100 true) as [[|x3 r3]|e3];
    destruct vocab as [vs|]; try destruct (nth_error vs n);
    cbn [fst snd app]; intros Hl; try discriminate; auto.
Qed.

Lemma max_likelihood_In (l : list entry) (b : entry) :
  max_likelihood l = Ok b -> In b l.
Proof.
  intros H. destruct l as [|x t]; [discriminate|].
  assert (Hne : x :: t <> []) by discriminate.
  destruct (max_likelihood_spec Hne) as (b' & Hb & Hin & _). congruence.
Qed.

(** Deduplication returns pairs it was given, whatever the order in which
    the set of sentences is iterated. *)
Lemma drop_duplicated_subset (texts : list string) (l out : list entry) :
  drop_duplicated texts l = Ok out -> forall c, In c out -> In c l.
Proof.
  unfold drop_duplicated. intros H c Hc.
  destruct l as [|x l]; [discriminate|].
  inv_bind H as kept Hkept. injection H as <-.
  apply (Permutation_in _ (sorted_desc_perm kept)) in Hc.
  apply mapM_Forall2 in Hkept.
  destruct (@Forall2_In_r _ _ _ _ _ _ Hkept Hc) as (d & _ & Hd).
  apply max_likelihood_In in Hd. now apply filter_In in Hd.
Qed.

Lemma shortlist_subset (topk : nat) (out : list entry) (short : list string) :
  shortlist topk out = Ok short ->
  forall s, In s short -> exists c, In c out /\ fst c = s.
Proof.
  unfold shortlist. intros H s Hs. destruct out as [|x out]; [discriminate|].
  injection H as <-. apply In_firstn in Hs.
  change (In s (map fst (x :: out))) in Hs. apply in_map_iff in Hs.
  destruct Hs as (c & Hc & Hin). now exists c.
Qed.

Lemma best_of_In (sent : list string) (ppl : list Q) (s : string) (m : Q) :
  best_of sent ppl = Ok (s, m) -> In s sent.
Proof.
  unfold best_of. intros H.
  inv_bind H as m' Hm. inv_bind H as i Hi. inv_bind H as s' Hs.
  injection H as <- _. apply index_ok in Hs. eapply nth_error_In; eassumption.
Qed.

Lemma rerank_In (greedy_filling : list (list string)) :
  forall list_ppl best n b,
    rerank greedy_filling list_ppl = Ok best ->
    nth_error best n = Some b ->
    exists sent, nth_error greedy_filling n = Some sent /\ In (fst b) sent.
Proof.
  induction greedy_filling as [|sent g IH]; intros [|ppl p] best n b H Hn;
    cbn in H; try (injection H as <-; destruct n; discriminate).
  inv_bind H as b0 Hb0. inv_bind H as r Hr. injection H as <-.
  destruct n as [|n]; cbn in Hn.
  - injection Hn as <-. exists sent. split; [reflexivity|].
    destruct b0 as [s m]. eapply best_of_In; eassumption.
  - cbn [nth_error]. eapply IH; eassumption.
Qed.

(** A sentence of the answer passed the check of its candidate's vocabulary
    at one of the stages of the ladder. *)
Lemma replace_single_token_kept
        (mask_token : string) (set_iter : list string -> list string)
        (encoding : Type) (get_encoding : string -> result (list encoding))
        (model_fills : encoding -> list (list entry))
        (get_perplexity : list string -> list Q)
        (seeds : list string) (vs : list (list string)) (topk : nat)
        (best_edit : list string) (ppl : list Q) :
  vs <> [] ->
  replace_single_token mask_token set_iter get_encoding model_fills get_perplexity
                       seeds (Some vs) topk
  = Ok (best_edit, ppl) ->
  forall n s,
    nth_error best_edit n = Some s ->
    exists v allow_subword,
      nth_error vs n = Some v
      /\ admissible allow_subword v (remove_all mask_token s) = Some true.
Proof.
  intros Hvs H n s Hs. unfold replace_single_token in H.
  inv_bind H as u Hu. inv_bind H as data Hdata.
  inv_bind H as greedy Hgreedy. inv_bind H as best Hbest.
  injection H as <- _.
  rewrite nth_error_map in Hs. destruct (nth_error best n) as [b|] eqn:Hb;
    [|discriminate]. cbn in Hs. injection Hs as <-.
  destruct (@rerank_In _ _ _ _ _ Hbest Hb) as (sent & Hsent & Hin).
  apply mapM_Forall2 in Hgreedy.
  destruct (Forall2_nth_error_r Hgreedy _ Hsent) as ([pn [s0 e0]] & Hnth & Hcand).
  apply combine_seq_nth in Hnth. cbn in Hnth. subst pn. cbn [fst snd] in Hcand.
  inv_bind Hcand as topk_edit Hladder. inv_bind Hcand as out Hout.
  destruct (@shortlist_subset _ _ _ Hcand _ Hin) as (c & Hc & Hfst).
  apply (@drop_duplicated_subset _ _ _ Hout) in Hc.
  apply fallback_ladder_answer in Hladder.
  assert (Hkept : forall k sub,
             process_single_pair mask_token (Some vs) n
                                 (map model_fills (concat data)) s0 e0 k sub
             = Ok topk_edit ->
             exists v allow_subword,
               nth_error vs n = Some v
               /\ admissible allow_subword v (remove_all mask_token (fst b))
                  = Some true).
  { intros k sub Hpsp.
    destruct (@process_single_pair_kept _ _ _ _ _ _ _ _ _ Hpsp c Hc vs eq_refl Hvs)
      as (v & Hv & Hadm).
    exists v, sub. rewrite <- Hfst. now split. }
  destruct Hladder as [Hl|[Hl|Hl]]; eapply Hkept; exact Hl.
Qed.

(** X12.  When a vocabulary is passed, every sentence that
    [replace_single_token] returns passes the constraint check of its own
    candidate's vocabulary, in strict or in relaxed mode, once its mask tokens
    are taken out: no stage of the ladder, nor the deduplication, nor the
    re-ranking lets a refused sentence through. *)
Theorem replace_single_token_respects_vocabulary
        (mask_token : string) (set_iter : list string -> list string)
        (encoding : Type) (get_encoding : string -> result (list encoding))
        (model_fills : encoding -> list (list entry))
        (get_perplexity : list string -> list Q)
        (seeds : list string) (vs : list (list string)) (topk : nat)
        (best_edit : list string) (ppl : list Q) :
  vs <> [] ->
  replace_single_token mask_token set_iter get_encoding model_fills get_perplexity
                       seeds (Some vs) topk
  = Ok (best_edit, ppl) ->
  forall n s,
    nth_error best_edit n = Some s ->
    exists v allow_subword,
      nth_error vs n = Some v
      /\ admissible allow_subword v (remove_all mask_token s) = Some true.
Proof. apply replace_single_token_kept. Qed.

Lemma replace_single_token_respects_vocabulary_witness :
  exists v allow_subword,
    nth_error [["dog"; "cat"]] 0 = Some v
    /\ admissible allow_subword v (remove_all "[MASK]" "dog is cat") = Some true.
Proof.
  apply (@replace_single_token_respects_vocabulary
           "[MASK]" first_occurrence string stub_encoding stub_fills
           stub_perplexity ["dog [MASK] cat"] [["dog"; "cat"]] 1
           ["dog is cat"] [7 # 1]).
  - discriminate.
  - vm_compute. reflexivity.
  - reflexivity.
Defined.

(* ================================================================== *)
(** ** The relaxed check, and vocabularies that admit nothing *)

Lemma first_term_prefix (ws : list (list ascii)) (s w : list ascii) :
  first_term ws s = Some w -> is_prefix w s = true.
Proof.
  induction ws as [|w0 ws IH]; cbn; [discriminate|].
  destruct (is_prefix w0 s) eqn:E; [|exact IH].
  intros H. now injection H as <-.
Qed.

Lemma occurrences_single (w : list ascii) (s : list ascii) :
  w <> [] ->
  (length (occurrences [w] s 0) =? 0) = negb (stands_in w s).
Proof.
  intros Hne. induction s as [|c t IH].
  - destruct w; [congruence | reflexivity].
  - cbn [occurrences first_term stands_in].
    destruct (is_prefix w (c :: t)); [reflexivity | exact IH].
Qed.

Lemma occurrences_stand (ws : list (list ascii)) (w : list ascii) :
  forall s skip, In w (occurrences ws s skip) -> In w ws /\ stands_in w s = true.
Proof.
  induction s as [|c t IH]; intros skip H; [contradiction|].
  cbn [occurrences] in H. cbn [stands_in].
  destruct skip as [|k].
  - destruct (first_term ws (c :: t)) as [w0|] eqn:E.
    + destruct H as [->|H].
      * split; [eapply first_term_in; eassumption|].
        now rewrite (first_term_prefix _ _ E).
      * destruct (IH _ H) as (Hin & Hst). split; [exact Hin|].
        rewrite Hst. apply orb_true_r.
    + destruct (IH _ H) as (Hin & Hst). split; [exact Hin|].
      rewrite Hst. apply orb_true_r.
  - destruct (IH _ H) as (Hin & Hst). split; [exact Hin|].
    rewrite Hst. apply orb_true_r.
Qed.

(** The relaxed per-term test on plain terms: each term stands somewhere in
    the sentence. *)
Lemma all_found_relaxed (v : list string) (s : string) :
  Forall plain v ->
  all_found (fun x => x) v s
  = Some (forallb (fun w => stands_in (chars w) (chars s)) v).
Proof.
  induction 1 as [|w v Hw _ IH]; [reflexivity|].
  cbn [all_found forallb].
  assert (Hj : findall w s
               = Some (map string_of_list_ascii
                           (occurrences [chars w] (chars s) 0))).
  { apply (@findall_join [w] s); [discriminate | now constructor]. }
  rewrite Hj, length_map, occurrences_single by now apply plain_chars.
  destruct (stands_in (chars w) (chars s)); [exact IH | reflexivity].
Qed.

(** [check_vocab] on plain terms. *)
Lemma check_vocab_plain (v : list string) (s : string) :
  v <> [] -> Forall plain v ->
  (check_vocab s v = Some true \/ check_vocab s v = Some false)
  /\ (check_vocab s v = Some true <->
      NoDup (occurrences (map chars v) (chars s) 0)
      /\ length (occurrences (map chars v) (chars s) 0) = length v).
Proof.
  intros Hv Hp. unfold check_vocab. rewrite findall_join by assumption.
  split; [destruct (_ && _); auto|].
  rewrite length_map. split.
  - intros H. injection H as H. apply andb_true_iff in H.
    destruct H as (Hnd & Hlen).
    rewrite <- (length_map string_of_list_ascii) in Hnd.
    apply nodup_length_NoDup, NoDup_strings in Hnd.
    apply Nat.eqb_eq in Hlen. now split.
  - intros (Hnd & Hlen). f_equal. apply andb_true_iff. split.
    + rewrite <- (length_map string_of_list_ascii).
      now apply nodup_length_NoDup, NoDup_strings.
    + now apply Nat.eqb_eq.
Qed.

Lemma NoDup_chars (v : list string) : NoDup (map chars v) <-> NoDup v.
Proof.
  split; [apply NoDup_map_inv|].
  intros H. apply Finite.Injective_map_NoDup; [|exact H].
  intros x y Hxy. unfold chars in Hxy.
  apply (f_equal string_of_list_ascii) in Hxy.
  now rewrite !string_of_list_ascii_of_string in Hxy.
Qed.

(** Pairwise different occurrences, as many as the vocabulary has terms, are
    the terms of the vocabulary, each once. *)
Lemma check_vocab_cover (v : list string) (s : string) :
  v <> [] -> Forall plain v ->
  check_vocab s v = Some true ->
  NoDup v /\ Permutation (occurrences (map chars v) (chars s) 0) (map chars v).
Proof.
  intros Hv Hp H. apply (@check_vocab_plain _ s Hv Hp) in H.
  destruct H as (Hnd & Hlen).
  assert (Hincl : incl (occurrences (map chars v) (chars s) 0) (map chars v)).
  { intros w Hw. now apply occurrences_stand in Hw. }
  assert (Hle : length (map chars v)
                <= length (occurrences (map chars v) (chars s) 0)).
  { rewrite length_map. lia. }
  split.
  - apply NoDup_chars. eapply NoDup_incl_NoDup; eassumption.
  - apply NoDup_Permutation_bis; assumption.
Qed.

Lemma admissible_check_vocab (allow_subword : bool) (v : list string) (s : string) :
  admissible allow_subword v s = Some true -> check_vocab s v = Some true.
Proof.
  unfold admissible. now destruct (all_found _ v s) as [[|]|].
Qed.

Lemma admissible_relaxed_plain (v : list string) (s : string) :
  v <> [] -> Forall plain v ->
  admissible true v s = check_vocab s v.
Proof.
  intros Hv Hp. unfold admissible. rewrite all_found_relaxed by exact Hp.
  destruct (forallb _ v) eqn:E; [reflexivity|].
  destruct (@check_vocab_plain _ s Hv Hp) as ([H|H] & _); [|now rewrite H].
  exfalso. destruct (@check_vocab_cover _ _ Hv Hp H) as (_ & Hperm).
  assert (Hall : forallb (fun w : string => stands_in (chars w) (chars s)) v = true).
  { apply forallb_forall. intros w Hw.
    assert (Hin : In (chars w) (occurrences (map chars v) (chars s) 0)).
    { eapply Permutation_in; [apply Permutation_sym; exact Hperm|].
      now apply in_map. }
    now apply occurrences_stand in Hin. }
  congruence.
Qed.

(** X13.  On a vocabulary of plain terms the relaxed check is [check_vocab]
    alone: the test that each term is found somewhere adds nothing.  It admits
    a sentence exactly when the vocabulary has no repeated term and the
    occurrences of terms met from left to right are the terms of the
    vocabulary, each once, in any order. *)
Theorem relaxed_check_on_plain_terms (v : list string) (s : string) :
  v <> [] -> Forall plain v ->
  admissible true v s = check_vocab s v
  /\ (admissible true v s = Some true <->
      NoDup v
      /\ Permutation (occurrences (map chars v) (chars s) 0) (map chars v)).
Proof.
  intros Hv Hp. split; [now apply admissible_relaxed_plain|].
  rewrite admissible_relaxed_plain by assumption. split.
  - now apply check_vocab_cover.
  - intros (Hnd & Hperm). apply (@check_vocab_plain _ s Hv Hp). split.
    + eapply Permutation_NoDup; [apply Permutation_sym; exact Hperm|].
      now apply NoDup_chars.
    + apply Permutation_length in Hperm. now rewrite length_map in Hperm.
Qed.

(** The vocabulary dog, cat on "cat loves dog". *)
Lemma relaxed_check_on_plain_terms_witness :
  admissible true ["dog"; "cat"] "cat loves dog"
  = check_vocab "cat loves dog" ["dog"; "cat"]
  /\ (admissible true ["dog"; "cat"] "cat loves dog" = Some true <->
      NoDup ["dog"; "cat"]
      /\ Permutation
           (occurrences (map chars ["dog"; "cat"]) (chars "cat loves dog") 0)
           (map chars ["dog"; "cat"])).
Proof.
  apply (@relaxed_check_on_plain_terms ["dog"; "cat"] "cat loves dog").
  - discriminate.
  - repeat constructor; discriminate.
Defined.

(** X14.  On plain terms the relaxed check is a relaxation: a sentence that
    the strict check admits is admitted by the relaxed check too. *)
Theorem strict_admits_less_than_relaxed (v : list string) (s : string) :
  Forall plain v ->
  admissible false v s = Some true ->
  admissible true v s = Some true.
Proof.
  intros Hp H. destruct v as [|w v]; [now rewrite admissible_empty in H|].
  rewrite admissible_relaxed_plain by (assumption || discriminate).
  now apply admissible_check_vocab in H.
Qed.

Lemma strict_admits_less_than_relaxed_witness :
  admissible true ["dog"; "cat"] "cat loves dog" = Some true.
Proof.
  apply (@strict_admits_less_than_relaxed ["dog"; "cat"] "cat loves dog").
  - repeat constructor; discriminate.
  - vm_compute. reflexivity.
Defined.

(** A vocabulary that admits a sentence, in either mode, is not empty and, if
    its terms are plain, has no repeated term. *)
Lemma admissible_vocabulary (allow_subword : bool) (v : list string) (s : string) :
  admissible allow_subword v s = Some true ->
  v <> [] /\ (Forall plain v -> NoDup v).
Proof.
  intros H. destruct v as [|w v]; [now rewrite admissible_empty in H|].
  split; [discriminate|]. intros Hp.
  apply admissible_check_vocab in H.
  assert (Hv : w :: v <> []) by discriminate.
  now destruct (@check_vocab_cover _ _ Hv Hp H).
Qed.

(** X15.  A call of [replace_single_token] with vocabularies can only return
    when no candidate's vocabulary is empty and no vocabulary of plain terms
    lists a term twice: for such a vocabulary no stage of the ladder admits a
    sentence, and the call ends in an exception. *)
Theorem replace_single_token_needs_distinct_terms
        (mask_token : string) (set_iter : list string -> list string)
        (encoding : Type) (get_encoding : string -> result (list encoding))
        (model_fills : encoding -> list (list entry))
        (get_perplexity : list string -> list Q)
        (seeds : list string) (vs : list (list string)) (topk : nat)
        (r : list string * list Q) :
  replace_single_token mask_token set_iter get_encoding model_fills get_perplexity
                       seeds (Some vs) topk
  = Ok r ->
  forall v, In v vs -> v <> [] /\ (Forall plain v -> NoDup v).
Proof.
  intros H v Hv. destruct r as [best_edit ppl].
  assert (Hvs : vs <> []) by (intros ->; contradiction).
  destruct (@replace_single_token_lengths _ _ _ _ _ _ _ _ _ _ _ H) as (Hlen & _).
  assert (Hassert : length seeds = length vs).
  { unfold replace_single_token in H. inv_bind H as u Hu.
    destruct vs as [|v0 vs0]; [congruence|]. cbn [truthy andb] in Hu.
    destruct (length seeds =? length (v0 :: vs0)) eqn:E; [|discriminate].
    now apply Nat.eqb_eq in E. }
  apply In_nth_error in Hv. destruct Hv as (n & Hn).
  assert (Hlt : n < length best_edit).
  { rewrite Hlen, Hassert. apply nth_error_Some. congruence. }
  destruct (nth_error best_edit n) as [s|] eqn:Hs;
    [|apply nth_error_Some in Hlt; congruence].
  destruct (@replace_single_token_kept _ _ _ _ _ _ _ _ _ _ _ Hvs H _ _ Hs)
    as (v' & sub & Hv' & Hadm).
  assert (v' = v) by congruence. subst v'.
  eapply admissible_vocabulary; eassumption.
Qed.

Lemma replace_single_token_needs_distinct_terms_witness :
  ["dog"; "cat"] <> [] /\ (Forall plain ["dog"; "cat"] -> NoDup ["dog"; "cat"]).
Proof.
  apply (@replace_single_token_needs_distinct_terms
           "[MASK]" first_occurrence string stub_encoding stub_fills
           stub_perplexity ["dog [MASK] cat"] [["dog"; "cat"]] 1
           (["dog is cat"], [7 # 1])).
  - vm_compute. reflexivity.
  - now left.
Defined.

(* ================================================================== *)
(** ** A shortlist of length zero *)

Lemma best_of_nothing (ppl : list Q) : exists e, best_of [] ppl = Raise e.
Proof.
  unfold best_of. destruct (py_min ppl) as [m|e]; cbn [bind]; [|eauto].
  destruct (py_index m ppl) as [i|e]; cbn [bind]; [|eauto].
  unfold index. destruct i; cbn; eauto.
Qed.

(** X16.  With [topk = 0] the call never returns for a non-empty list of seed
    sentences: the shortlist of each candidate is cut to length zero, and the
    re-ranking has nothing to take the minimum of. *)
Theorem replace_single_token_topk_zero
        (mask_token : string) (set_iter : list string -> list string)
        (encoding : Type) (get_encoding : string -> result (list encoding))
        (model_fills : encoding -> list (list entry))
        (get_perplexity : list string -> list Q)
        (seeds : list string) (vocab : option (list (list string))) :
  seeds <> [] ->
  exists e,
    replace_single_token mask_token set_iter get_encoding model_fills get_perplexity
                         seeds vocab 0
    = Raise e.
Proof.
  intros Hne.
  destruct (replace_single_token mask_token set_iter get_encoding model_fills
                                 get_perplexity seeds vocab 0)
    as [[best ppl]|e] eqn:H; [exfalso | eauto].
  unfold replace_single_token in H.
  inv_bind H as u Hu. inv_bind H as data Hdata.
  inv_bind H as greedy Hgreedy. inv_bind H as best0 Hbest.
  pose proof (mapM_length _ _ Hdata) as Hlen.
  pose proof (mapM_length _ _ Hgreedy) as Hlg.
  rewrite length_combine, length_seq, Nat.min_id, get_partition_length in Hlg.
  apply mapM_Forall2 in Hgreedy.
  destruct greedy as [|g0 greedy].
  { cbn in Hlg. destruct seeds; [congruence | cbn in Hlen; lia]. }
  inversion Hgreedy as [|[pn [s0 e0]] ? ? ? Hg0 _ Heq1 Heq2]; subst.
  cbn [fst snd] in Hg0.
  inv_bind Hg0 as topk_edit Hladder. inv_bind Hg0 as out Hout.
  unfold shortlist in Hg0. destruct out as [|x out]; [discriminate|].
  cbn [Nat.min firstn] in Hg0. injection Hg0 as <-.
  unfold regroup in Hbest. rewrite get_partition_cons in Hbest.
  cbn [map rerank] in Hbest.
  destruct (best_of_nothing
              (slice (fst (0, length (@nil string)))
                     (snd (0, length (@nil string)))
                     (get_perplexity (concat ([] :: greedy))))) as (e & He).
  rewrite He in Hbest. discriminate.
Qed.

Lemma replace_single_token_topk_zero_witness :
  exists e,
    replace_single_token "[MASK]" first_occurrence stub_encoding stub_fills
                         stub_perplexity ["dog [MASK] cat"] (Some [["dog"; "cat"]]) 0
    = Raise e.
Proof.
  apply (@replace_single_token_topk_zero
           "[MASK]" first_occurrence string stub_encoding stub_fills
           stub_perplexity ["dog [MASK] cat"] (Some [["dog"; "cat"]])).
  discriminate.
Defined.

(* ================================================================== *)
(** ** A shortlist longer than the pool of predictions *)

Lemma mapM_ok_each {A B} (f : A -> result B) (l : list A) (r : list B) (x : A) :
  mapM f l = Ok r -> In x l -> exists v, f x = Ok v.
Proof.
  intros H Hx. apply mapM_Forall2 in H.
  apply In_nth_error in Hx. destruct Hx as (n & Hn).
  revert n Hn. induction H as [|a v l r Hav _ IH]; intros [|n] Hn; cbn in Hn;
    try discriminate.
  - injection Hn as ->. eauto.
  - eauto.
Qed.

(** The first stage reads the first [_topk] predictions of every masked
    position; it raises when a position has fewer. *)
Lemma process_single_pair_short_pool mask_token vocab n total e k allow_subword
      (ranked : list entry) (fills : list (list entry))
      (others : list (list (list entry))) :
  total = (ranked :: fills) :: others ->
  0 < e -> length ranked < k ->
  exists x,
    process_single_pair mask_token vocab n total 0 e k allow_subword = Raise x.
Proof.
  intros -> He Hk.
  destruct (process_single_pair mask_token vocab n ((ranked :: fills) :: others)
                                0 e k allow_subword) as [r|x] eqn:H; [|eauto].
  exfalso. unfold process_single_pair in H.
  inv_bind H as per_i Hi.
  assert (H0 : In 0 (seq 0 (e - 0))) by (apply in_seq; lia).
  destruct (mapM_ok_each _ _ _ Hi H0) as (v & Hv).
  cbn [index nth_error bind] in Hv.
  inv_bind Hv as per_pos Hpos. cbn [mapM] in Hpos.
  inv_bind Hpos as b Hb. inv_bind Hb as opts Hopts.
  assert (Hin : In (length ranked) (seq 0 k)) by (apply in_seq; lia).
  destruct (mapM_ok_each _ _ _ Hopts Hin) as (o & Ho).
  inv_bind Ho as c Hc. apply index_ok in Hc.
  assert (Hnone : nth_error ranked (length ranked) = None)
    by (apply nth_error_None; lia).
  congruence.
Qed.

Lemma fallback_ladder_first_stage psp topk vocab seeds n (x : exn) :
  psp topk false = Raise x ->
  snd (fallback_ladder psp topk vocab seeds n) = Raise x.
Proof.
  intros H. unfold fallback_ladder, escalate. now rewrite H.
Qed.

(** X17.  The model is asked for 100 predictions per masked position
    ([topk_per_position]).  With [topk] above that pool the call never returns
    when the first seed sentence has an encoding with a masked position: the
    first stage of the ladder reads prediction number 100 of a list that has
    only 100. *)
Theorem replace_single_token_topk_above_pool
        (mask_token : string) (set_iter : list string -> list string)
        (encoding : Type) (get_encoding : string -> result (list encoding))
        (model_fills : encoding -> list (list entry))
        (get_perplexity : list string -> list Q)
        (s0 : string) (rest : list string) (vocab : option (list (list string)))
        (topk : nat) (enc0 : encoding) (encs : list encoding)
        (ranked0 : list entry) (fills : list (list entry)) :
  get_encoding s0 = Ok (enc0 :: encs) ->
  model_fills enc0 = ranked0 :: fills ->
  length ranked0 <= topk_per_position ->
  topk_per_position < topk ->
  exists e,
    replace_single_token mask_token set_iter get_encoding model_fills get_perplexity
                         (s0 :: rest) vocab topk
    = Raise e.
Proof.
  intros Henc Hfills Hpool Htopk.
  destruct (replace_single_token mask_token set_iter get_encoding model_fills
                                 get_perplexity (s0 :: rest) vocab topk)
    as [[best ppl]|e] eqn:H; [exfalso | eauto].
  unfold replace_single_token in H.
  inv_bind H as u Hu. inv_bind H as data Hdata.
  inv_bind H as greedy Hgreedy.
  cbn [mapM] in Hdata. rewrite Henc in Hdata. cbn [bind] in Hdata.
  inv_bind Hdata as data' Hdata'. injection Hdata as <-.
  rewrite get_partition_cons in Hgreedy.
  cbn [length seq combine mapM fst snd] in Hgreedy.
  inv_bind Hgreedy as g0 Hg0. inv_bind Hg0 as topk_edit Hladder.
  destruct (@process_single_pair_short_pool
              mask_token vocab 0
              (map model_fills (concat ((enc0 :: encs) :: data')))
              (S (length encs)) topk false ranked0 fills
              (map model_fills (encs ++ concat data')))
    as (x & Hx).
  - cbn [concat app map]. now rewrite Hfills.
  - lia.
  - lia.
  - rewrite (@fallback_ladder_first_stage _ _ _ _ _ _ Hx) in Hladder.
    discriminate.
Qed.

Lemma replace_single_token_topk_above_pool_witness :
  exists e,
    replace_single_token "[MASK]" first_occurrence stub_encoding stub_fills
                         stub_perplexity ["dog [MASK] cat"] (Some [["dog"; "cat"]])
                         101
    = Raise e.
Proof.
  apply (@replace_single_token_topk_above_pool
           "[MASK]" first_occurrence string stub_encoding stub_fills
           stub_perplexity "dog [MASK] cat" [] (Some [["dog"; "cat"]]) 101
           "dog [MASK] cat"
           []
           (hd [] (stub_fills "dog [MASK] cat"))
           (tl (stub_fills "dog [MASK] cat"))).
  - reflexivity.
  - reflexivity.
  - unfold topk_per_position. cbn. lia.
  - unfold topk_per_position. lia.
Defined.

(* ================================================================== *)
(** ** The labels of an encoding *)

Section EncoderFacts.

Import Encoder.

Lemma set_nth_length {A} (l : list A) (n : nat) (a : A) :
  length (set_nth l n a) = length l.
Proof.
  revert n. induction l as [|x l IH]; intros [|n]; cbn; auto.
Qed.

Lemma set_nth_same {A} (l : list A) (n : nat) (a : A) :
  n < length l -> nth_error (set_nth l n a) n = Some a.
Proof.
  revert n. induction l as [|x l IH]; intros [|n] H; cbn in *; try lia; auto.
  apply IH. lia.
Qed.

Lemma set_nth_other {A} (l : list A) (n m : nat) (a : A) :
  m <> n -> nth_error (set_nth l n a) m = nth_error l m.
Proof.
  revert n m. induction l as [|x l IH]; intros [|n] [|m] H; cbn; auto.
  congruence.
Qed.

Lemma setitem_in_range {A} (l : list A) (p : Z) (a : A) :
  (0 <= p < Z.of_nat (length l))%Z ->
  setitem l p a = Ok (set_nth l (Z.to_nat p) a).
Proof.
  intros H. unfold setitem.
  destruct (Z.ltb_spec p 0); [lia|].
  destruct (Z.leb_spec 0 p); [|lia].
  destruct (Z.ltb_spec p (Z.of_nat (length l))); [reflexivity | lia].
Qed.

(** The assignments of lines 83-84 on positions that are in range and
    pairwise different. *)
Lemma assign_labels (ps : list Z) :
  forall (ls : list Z) (l0 : list Z),
    length ps = length ls ->
    Forall (fun p => (0 <= p < Z.of_nat (length l0))%Z) ps ->
    NoDup ps ->
    exists label,
      fold_left (fun acc pi => label <- acc ;; setitem label (fst pi) (snd pi))
                (combine ps ls) (Ok l0)
      = Ok label
      /\ length label = length l0
      /\ (forall k p i,
             nth_error ps k = Some p -> nth_error ls k = Some i ->
             nth_error label (Z.to_nat p) = Some i)
      /\ (forall q, ~ In (Z.of_nat q) ps -> nth_error label q = nth_error l0 q).
Proof.
  induction ps as [|p ps IH]; intros [|i ls] l0 Hlen Hr Hnd; cbn in Hlen;
    try discriminate.
  - exists l0. cbn. repeat split; auto. intros [|k] p i H; discriminate.
  - inversion Hr as [|? ? Hp Hps]; subst. inversion Hnd as [|? ? Hnotin Hnd']; subst.
    cbn [combine fold_left fst snd bind]. rewrite setitem_in_range by exact Hp.
    destruct (IH ls (set_nth l0 (Z.to_nat p) i)) as (label & Hf & Hl & Hset & Hrest).
    + now injection Hlen.
    + rewrite set_nth_length. exact Hps.
    + exact Hnd'.
    + exists label. rewrite set_nth_length in Hl.
      split; [exact Hf|]. split; [exact Hl|]. split.
      * intros [|k] p' i' Hp' Hi'; cbn in Hp', Hi'.
        -- injection Hp' as <-. injection Hi' as <-.
           rewrite Hrest by (rewrite Z2Nat.id by lia; exact Hnotin).
           apply set_nth_same. lia.
        -- eapply Hset; eassumption.
      * intros q Hq. rewrite Hrest by (intros Hin; apply Hq; now right).
        apply set_nth_other. intros ->. apply Hq. left.
        rewrite Z2Nat.id by lia. reflexivity.
Qed.

(** X18.  Given as many label ids as positions, the positions in range and
    pairwise different, [input_ids_to_labels] returns a list as long as the
    input ids that holds each label id at its position and the ignore index
    -100 everywhere else. *)
Theorem input_ids_to_labels_positions (tk : Tokenizer) (ids ps ls : list Z) :
  length ps = length ls ->
  Forall (fun p => (0 <= p < Z.of_nat (length ids))%Z) ps ->
  NoDup ps ->
  exists label,
    input_ids_to_labels tk ids (Some ps) (Some ls) = Ok label
    /\ length label = length ids
    /\ (forall k p i,
           nth_error ps k = Some p -> nth_error ls k = Some i ->
           nth_error label (Z.to_nat p) = Some i)
    /\ (forall q, q < length ids -> ~ In (Z.of_nat q) ps ->
                  nth_error label q = Some PAD_TOKEN_LABEL_ID).
Proof.
  intros Hlen Hr Hnd. unfold input_ids_to_labels.
  rewrite Hlen, Nat.eqb_refl.
  destruct (@assign_labels ps ls (repeat PAD_TOKEN_LABEL_ID (length ids)))
    as (label & Hf & Hl & Hset & Hrest); try assumption.
  - now rewrite repeat_length.
  - exists label. rewrite repeat_length in Hl.
    split; [exact Hf|]. split; [exact Hl|]. split; [exact Hset|].
    intros q Hq Hnot. rewrite Hrest by exact Hnot.
    now apply nth_error_repeat.
Qed.

Lemma input_ids_to_labels_positions_witness :
  exists label,
    input_ids_to_labels toy_tokenizer [1; 9; 3; 11; 2; 0]%Z (Some [2%Z]) (Some [10%Z])
    = Ok label
    /\ length label = length [1; 9; 3; 11; 2; 0]%Z
    /\ (forall k p i,
           nth_error [2%Z] k = Some p -> nth_error [10%Z] k = Some i ->
           nth_error label (Z.to_nat p) = Some i)
    /\ (forall q, q < length [1; 9; 3; 11; 2; 0]%Z -> ~ In (Z.of_nat q) [2%Z] ->
                  nth_error label q = Some PAD_TOKEN_LABEL_ID).
Proof.
  apply (@input_ids_to_labels_positions
           toy_tokenizer [1; 9; 3; 11; 2; 0]%Z [2%Z] [10%Z]).
  - reflexivity.
  - repeat constructor; cbn; lia.
  - repeat constructor. intros [].
Defined.

Lemma setitem_outcome {A} (l : list A) (p : Z) (a : A) :
  ((- Z.of_nat (length l) <= p < Z.of_nat (length l))%Z
   /\ exists l', setitem l p a = Ok l' /\ length l' = length l)
  \/ (~ (- Z.of_nat (length l) <= p < Z.of_nat (length l))%Z
      /\ setitem l p a = Raise IndexError).
Proof.
  unfold setitem.
  destruct (Z.ltb_spec p 0);
    match goal with
    | |- context [(0 <=? ?q)%Z] => destruct (Z.leb_spec 0 q)
    end;
    match goal with
    | |- context [(?q <? ?n)%Z] => destruct (Z.ltb_spec q n)
    end; cbn [andb];
    try (right; split; [lia | reflexivity]);
    left; (split; [lia|]); eexists; (split; [reflexivity|]);
    apply set_nth_length.
Qed.

Lemma assign_raise (pairs : list (Z * Z)) (e : exn) :
  fold_left (fun acc pi => label <- acc ;; setitem label (fst pi) (snd pi))
            pairs (Raise e)
  = Raise e.
Proof. induction pairs as [|pi pairs IH]; [reflexivity | exact IH]. Qed.

Lemma assign_outcome (pairs : list (Z * Z)) :
  forall l0 : list Z,
    let in_range (pi : Z * Z) :=
      (- Z.of_nat (length l0) <= fst pi < Z.of_nat (length l0))%Z in
    (Forall in_range pairs
     /\ exists label,
         fold_left (fun acc pi => label <- acc ;; setitem label (fst pi) (snd pi))
                   pairs (Ok l0)
         = Ok label
         /\ length label = length l0)
    \/ (~ Forall in_range pairs
        /\ fold_left (fun acc pi => label <- acc ;; setitem label (fst pi) (snd pi))
                     pairs (Ok l0)
           = Raise IndexError).
Proof.
  induction pairs as [|[p i] pairs IH]; intros l0 in_range.
  - left. split; [constructor|]. now exists l0.
  - cbn [fold_left bind fst snd].
    destruct (setitem_outcome l0 p i) as [(Hp & l1 & -> & Hl1)|(Hp & ->)].
    + destruct (IH l1) as [(Hall & label & Hf & Hl)|(Hnot & Hf)];
        rewrite Hl1 in *.
      * left. split; [constructor; assumption|]. exists label. now split.
      * right. split; [|exact Hf]. intros Hall. apply Hnot.
        now inversion Hall.
    + right. split; [|apply assign_raise]. intros Hall.
      inversion Hall as [|? ? Hh _]; subst. now apply Hp.
Qed.

(** X19.  With as many label ids as positions, [input_ids_to_labels] returns
    exactly when every position lies between [-len(input_ids)] and
    [len(input_ids) - 1], a negative position counting from the end; the list
    returned is as long as the input ids.  Any position outside that range
    ends the call in [IndexError]. *)
Theorem input_ids_to_labels_bounds (tk : Tokenizer) (ids ps ls : list Z) :
  length ps = length ls ->
  let in_range (p : Z) :=
    (- Z.of_nat (length ids) <= p < Z.of_nat (length ids))%Z in
  (Forall in_range ps
   /\ exists label,
       input_ids_to_labels tk ids (Some ps) (Some ls) = Ok label
       /\ length label = length ids)
  \/ (~ Forall in_range ps
      /\ input_ids_to_labels tk ids (Some ps) (Some ls) = Raise IndexError).
Proof.
  intros Hlen in_range. unfold input_ids_to_labels.
  rewrite Hlen, Nat.eqb_refl.
  assert (Hfst : forall n,
             Forall (fun pi : Z * Z => (- Z.of_nat n <= fst pi < Z.of_nat n)%Z)
                    (combine ps ls)
             <-> Forall (fun p => (- Z.of_nat n <= p < Z.of_nat n)%Z) ps).
  { intros n. clear in_range. revert ls Hlen.
    induction ps as [|p ps IH]; intros [|i ls] Hlen; cbn in Hlen;
      try discriminate; cbn [combine].
    - split; constructor.
    - injection Hlen as Hlen. specialize (IH ls Hlen).
      split; intros H; inversion H; subst; constructor; cbn in *; tauto. }
  destruct (assign_outcome (combine ps ls)
                           (repeat PAD_TOKEN_LABEL_ID (length ids)))
    as [(Hall & label & Hf & Hl)|(Hnot & Hf)];
    rewrite repeat_length in *.
  - left. split; [now apply Hfst|]. exists label. now split.
  - right. split; [|exact Hf]. intros Hall. apply Hnot. now apply Hfst.
Qed.

(** The position 6 in a list of six input ids. *)
Lemma input_ids_to_labels_bounds_witness :
  input_ids_to_labels toy_tokenizer [1; 9; 3; 11; 2; 0]%Z (Some [6%Z]) (Some [10%Z])
  = Raise IndexError.
Proof.
  destruct (@input_ids_to_labels_bounds
              toy_tokenizer [1; 9; 3; 11; 2; 0]%Z [6%Z] [10%Z] eq_refl)
    as [(_ & label & H & _)|(_ & H)].
  - discriminate H.
  - exact H.
Defined.

(* ================================================================== *)
(** ** The encodings of a sentence, token by token *)

Lemma filter_none_length {A} (l : list (option A)) :
  length (filter_none l) <= length l.
Proof. induction l as [|[a|] l IH]; cbn; lia. Qed.

Lemma last_item_last_id (l : list Z) (a : Z) :
  last_item l = Ok a -> last l 0%Z = a.
Proof.
  unfold last_item. destruct (rev l) as [|x r] eqn:E; [discriminate|].
  intros H. injection H as <-.
  apply (f_equal (@rev Z)) in E. rewrite rev_involutive in E. subst l.
  cbn [rev]. apply last_last.
Qed.

(** Lines 81-84 for one position and one label id. *)
Lemma input_ids_to_labels_bounds_aux (tk : Tokenizer) (ids : list Z) (p : nat)
      (i : Z) (label : list Z) :
  input_ids_to_labels tk ids (Some [Z.of_nat p]) (Some [i]) = Ok label ->
  p < length ids /\ label = set_nth (repeat PAD_TOKEN_LABEL_ID (length ids)) p i.
Proof.
  unfold input_ids_to_labels. cbn [length Nat.eqb combine fold_left bind fst snd].
  unfold setitem. rewrite repeat_length.
  destruct (Z.ltb_spec (Z.of_nat p) 0); [lia|].
  destruct (Z.leb_spec 0 (Z.of_nat p)); [|lia].
  destruct (Z.ltb_spec (Z.of_nat p) (Z.of_nat (length ids))); cbn [andb];
    [|discriminate].
  intros Hok. injection Hok as <-. rewrite Nat2Z.id. split; [lia | reflexivity].
Qed.

(** What [encode_with_single_mask_id] returns for a position it does not
    skip. *)
Lemma encode_with_single_mask_id_labels (self : EncodePlus)
      (token_list : list string) (mp : nat) (b : BatchEncoding) :
  encode_with_single_mask_id self token_list mp = Ok (Some b) ->
  let tk := tokenizer self in
  let prefix := length (sp_token_prefix self) in
  exists token label,
    nth_error token_list mp = Some token
    /\ convert_tokens_to_ids tk token <> mask_token_id tk
    /\ labels b = Some label
    /\ length label = length (input_ids b)
    /\ last (input_ids b) 0%Z = pad_token_id tk
    /\ nth_error label (mp + prefix) = Some (convert_tokens_to_ids tk token)
    /\ (forall q, q <> mp + prefix -> q < length label ->
                  nth_error label q = Some PAD_TOKEN_LABEL_ID).
Proof.
  intros H tk prefix. unfold encode_with_single_mask_id in H.
  inv_bind H as token Htoken. apply index_ok in Htoken.
  fold tk in H.
  destruct (Z.eqb_spec (convert_tokens_to_ids tk token) (mask_token_id tk))
    as [|Hne]; [discriminate|].
  inv_bind H as last_id Hlast.
  destruct (Z.eqb_spec last_id (pad_token_id tk)) as [->|]; [|discriminate].
  inv_bind H as label Hlabel. injection H as <-. cbn [labels input_ids].
  exists token, label. split; [exact Htoken|]. split; [exact Hne|].
  split; [reflexivity|].
  apply last_item_last_id in Hlast.
  rewrite <- Nat2Z.inj_add in Hlabel. fold prefix in Hlabel.
  set (ids := input_ids (encode_plus tk _ _)) in *.
  destruct (@input_ids_to_labels_bounds_aux tk ids (mp + prefix)
              (convert_tokens_to_ids tk token) label Hlabel) as (Hlt & ->).
  rewrite set_nth_length, repeat_length.
  split; [reflexivity|]. split; [exact Hlast|]. split.
  - apply set_nth_same. now rewrite repeat_length.
  - intros q Hq Hlen. rewrite set_nth_other by exact Hq.
    now apply nth_error_repeat.
Qed.

(** X20.  In token-wise mode a call returns at most one encoding per token
    of the sentence, and no more than the maximum length leaves room for after
    the tokenizer's prefix.  Each encoding returned stands for one token of
    the sentence that is not the mask token: its labels are as long as its
    input ids, they hold the id of that token at the token's position moved
    by the prefix, and the ignore index -100 at every other position; its
    input ids end in the padding id. *)
Theorem call_token_wise_labels (self : EncodePlus) (sentence : string)
        (r : list BatchEncoding) :
  token_wise self sentence = true ->
  call self sentence = Ok r ->
  let tk := tokenizer self in
  let prefix := length (sp_token_prefix self) in
  length r <= length (tokenize tk sentence)
  /\ (Z.of_nat (length r) <= Z.max 0 (max_length self - Z.of_nat prefix))%Z
  /\ Forall (fun b =>
               exists mp token label,
                 nth_error (tokenize tk sentence) mp = Some token
                 /\ convert_tokens_to_ids tk token <> mask_token_id tk
                 /\ labels b = Some label
                 /\ length label = length (input_ids b)
                 /\ last (input_ids b) 0%Z = pad_token_id tk
                 /\ nth_error label (mp + prefix)
                    = Some (convert_tokens_to_ids tk token)
                 /\ (forall q, q <> mp + prefix -> q < length label ->
                               nth_error label q = Some PAD_TOKEN_LABEL_ID))
            r.
Proof.
  intros Hmode H tk prefix. unfold call in H. rewrite Hmode in H.
  cbn [negb] in H. inv_bind H as opts Hopts. injection H as <-.
  pose proof (mapM_length _ _ Hopts) as Hlen. rewrite length_seq in Hlen.
  pose proof (filter_none_length opts) as Hle.
  fold tk in Hlen. fold prefix in Hlen.
  split; [lia|]. split; [lia|].
  apply Forall_forall. intros b Hb. apply filter_none_In in Hb.
  apply mapM_Forall2 in Hopts.
  destruct (@Forall2_In_r _ _ _ _ _ _ Hopts Hb) as (mp & _ & Hmp).
  destruct (encode_with_single_mask_id_labels _ _ _ Hmp)
    as (token & label & Hrest).
  exists mp, token, label. exact Hrest.
Qed.

(** The sentence "dog is cat" under the small tokenizer. *)
Lemma call_token_wise_labels_witness :
  let self := mk_EncodePlus toy_tokenizer (Some true) 8 ["[CLS]"] in
  let r := [mk_encoding [1; 3; 10; 11; 2; 0; 0; 0]%Z []
                        (Some [-100; 9; -100; -100; -100; -100; -100; -100]%Z);
            mk_encoding [1; 9; 3; 11; 2; 0; 0; 0]%Z []
                        (Some [-100; -100; 10; -100; -100; -100; -100; -100]%Z);
            mk_encoding [1; 9; 10; 3; 2; 0; 0; 0]%Z []
                        (Some [-100; -100; -100; 11; -100; -100; -100; -100]%Z)] in
  length r <= length (tokenize toy_tokenizer "dog is cat")
  /\ (Z.of_nat (length r) <= Z.max 0 (8 - Z.of_nat 1))%Z
  /\ Forall (fun b =>
               exists mp token label,
                 nth_error (tokenize toy_tokenizer "dog is cat") mp = Some token
                 /\ convert_tokens_to_ids toy_tokenizer token
                    <> mask_token_id toy_tokenizer
                 /\ labels b = Some label
                 /\ length label = length (input_ids b)
                 /\ last (input_ids b) 0%Z = pad_token_id toy_tokenizer
                 /\ nth_error label (mp + 1)
                    = Some (convert_tokens_to_ids toy_tokenizer token)
                 /\ (forall q, q <> mp + 1 -> q < length label ->
                               nth_error label q = Some PAD_TOKEN_LABEL_ID))
            r.
Proof.
  intros self r.
  apply (@call_token_wise_labels self "dog is cat" r).
  - reflexivity.
  - vm_compute. reflexivity.
Defined.

(* ================================================================== *)
(** ** The scorer, sentence by sentence *)

Lemma omap_length {A B} (f : A -> outcome B) (l : list A) :
  forall r, omap f l = Returns r -> length r = length l.
Proof.
  induction l as [|a l IH]; intros r H; cbn in H.
  - now injection H as <-.
  - destruct (f a) as [b| |]; cbn in H; try discriminate.
    destruct (omap f l) as [bs| |]; cbn in H; try discriminate.
    injection H as <-. cbn. f_equal. now apply IH.
Qed.

Lemma omap_app {A B} (f : A -> outcome B) (a b : list A) :
  omap f (a ++ b)
  = obind (omap f a) (fun ra => obind (omap f b) (fun rb => Returns (ra ++ rb))).
Proof.
  induction a as [|x a IH]; cbn [app omap obind].
  - now destruct (omap f b).
  - destruct (f x) as [v| |]; cbn [obind]; try reflexivity.
    rewrite IH. destruct (omap f a) as [ra| |]; cbn [obind]; try reflexivity.
    now destruct (omap f b).
Qed.

Lemma omap_map_ext {A B C} (f : B -> outcome C) (g : A -> outcome C)
      (h : A -> B) (l : list A) :
  (forall x, f (h x) = g x) -> omap f (map h l) = omap g l.
Proof.
  intros E. induction l as [|a l IH]; [reflexivity|].
  cbn [map omap]. now rewrite E, IH.
Qed.

Section ScorerFacts.

Variable tk : Tokenizer.
Variable max_length_arg : option Z.
Variable loss : BatchEncoding -> Q.
Variable math_exp : Q -> outcome Q.

Lemma mean_exp_prefix (pre rest : list Q) :
  mean_exp math_exp (pre ++ rest) (0, length pre)
  = mean_exp math_exp pre (0, length pre).
Proof.
  unfold mean_exp. cbn [fst snd].
  pose proof (slice_prefix pre rest) as H1.
  pose proof (slice_prefix pre []) as H2. rewrite app_nil_r in H2.
  now rewrite H1, H2.
Qed.

Lemma mean_exp_shift (pre rest : list Q) (x : nat * nat) :
  mean_exp math_exp (pre ++ rest) (length pre + fst x, length pre + snd x)
  = mean_exp math_exp rest x.
Proof.
  unfold mean_exp. cbn [fst snd]. rewrite slice_app_shift.
  now replace (length pre + snd x - (length pre + fst x)) with (snd x - fst x)
    by lia.
Qed.

(** Lines 453-472 after the encoding: the scores of the sentences of a batch
    are the scores of the sentences taken alone. *)
Lemma batch_scores (data : list (list BatchEncoding)) :
  forall r,
    obind (omap (nll_of loss) (concat data))
          (fun nll => omap (mean_exp math_exp nll) (get_partition data))
    = Returns r
    <-> Forall2 (fun d v => sentence_score loss math_exp d = Returns v) data r.
Proof.
  induction data as [|d ds IH]; intros r.
  - cbn. split.
    + intros H. injection H as <-. constructor.
    + intros H. now inversion H.
  - cbn [concat]. rewrite omap_app, get_partition_cons.
    assert (Hfail : omap (nll_of loss) d = Raises KeyError
                    \/ omap (nll_of loss) d = RaisesZeroDivisionError
                    \/ (exists e, omap (nll_of loss) d = Raises e) ->
                    forall v, sentence_score loss math_exp d <> Returns v).
    { unfold sentence_score. intros [->|[->|(e & ->)]] v; discriminate. }
    destruct (omap (nll_of loss) d) as [nd|e|] eqn:Hd; cbn [obind].
    + pose proof (omap_length _ _ Hd) as Hlen.
      assert (Hscore : sentence_score loss math_exp d
                       = mean_exp math_exp nd (0, length nd)).
      { unfold sentence_score. rewrite Hd. cbn [obind]. now rewrite Hlen. }
      destruct (omap (nll_of loss) (concat ds)) as [nr|e|] eqn:Hr; cbn [obind].
      * cbn [omap]. rewrite <- Hlen, mean_exp_prefix.
        rewrite (@omap_map_ext _ _ _ (mean_exp math_exp (nd ++ nr))
                               (mean_exp math_exp nr)
                               (fun se => (length nd + fst se, length nd + snd se)))
          by (intros x; apply mean_exp_shift).
        destruct (mean_exp math_exp nd (0, length nd)) as [v|e|] eqn:Hv;
          cbn [obind];
          try (split; [discriminate
                      | intros H; inversion H as [|? v' ? r' Hv' Hrest]; subst;
                        congruence]).
        split.
        -- intros H.
           destruct (omap (mean_exp math_exp nr) (get_partition ds)) as [r'|e|]
             eqn:E; cbn [obind] in H; try discriminate.
           injection H as <-. constructor; [exact Hscore|].
           apply IH. cbn [obind]. exact E.
        -- intros H. inversion H as [|? v' ? r' Hv' Hrest]; subst.
           assert (v' = v) by congruence. subst v'.
           apply IH in Hrest. cbn [obind] in Hrest. now rewrite Hrest.
      * split.
        -- destruct (mean_exp math_exp _ _); discriminate.
        -- intros H. inversion H as [|? v' ? r' Hv' Hrest]; subst.
           apply IH in Hrest. discriminate.
      * split.
        -- destruct (mean_exp math_exp _ _); discriminate.
        -- intros H. inversion H as [|? v' ? r' Hv' Hrest]; subst.
           apply IH in Hrest. discriminate.
    + split; [discriminate|].
      intros H. inversion H as [|? v' ? r' Hv' Hrest]; subst.
      exfalso. eapply Hfail; [|exact Hv']. right. right. now exists e.
    + split; [discriminate|].
      intros H. inversion H as [|? v' ? r' Hv' Hrest]; subst.
      exfalso. eapply Hfail; [|exact Hv']. right. now left.
Qed.

Lemma init_attributes (twm : option bool) (p : EncodePlus) :
  init tk max_length_arg twm = Ok p ->
  tokenizer p = tk /\ token_wise_mask p = twm.
Proof.
  unfold init. intros H. inv_bind H as m Hm. inv_bind H as t0 Ht0.
  inv_bind H as i Hi. now injection H as <-.
Qed.

Lemma get_perplexity_returns (l : list string) (r : list Q) :
  get_perplexity tk max_length_arg loss math_exp (Many l) = Returns r
  <-> exists p data,
      init tk max_length_arg (Some true) = Ok p
      /\ mapM (call p) l = Ok data
      /\ Forall2 (fun d v => sentence_score loss math_exp d = Returns v) data r.
Proof.
  unfold get_perplexity, get_encoding.
  destruct (init tk max_length_arg (Some true)) as [p|e] eqn:Hinit;
    cbn [bind lift obind].
  - destruct (mapM (call p) l) as [data|e] eqn:Hmap; cbn [lift obind].
    + rewrite batch_scores. split.
      * intros H. exists p, data. now repeat split.
      * intros (p' & data' & Hp & Hdata & H).
        injection Hp as <-. congruence.
    + split; [discriminate|]. intros (p' & data' & Hp & Hdata & H).
      injection Hp as <-. congruence.
  - split; [discriminate|]. intros (p' & data' & Hp & Hdata & H). discriminate.
Qed.

Lemma get_perplexity_alone (s : string) (v : Q) :
  get_perplexity tk max_length_arg loss math_exp (One s) = Returns [v]
  <-> exists p d,
      init tk max_length_arg (Some true) = Ok p
      /\ call p s = Ok d
      /\ sentence_score loss math_exp d = Returns v.
Proof.
  change (get_perplexity tk max_length_arg loss math_exp (One s))
    with (get_perplexity tk max_length_arg loss math_exp (Many [s])).
  rewrite get_perplexity_returns. split.
  - intros (p & data & Hp & Hdata & H). cbn [mapM] in Hdata.
    inv_bind Hdata as d Hd. injection Hdata as <-.
    exists p, d. inversion H; subst. now repeat split.
  - intros (p & d & Hp & Hd & H). exists p, [d]. split; [exact Hp|].
    split; [cbn [mapM]; now rewrite Hd|]. now repeat constructor.
Qed.

Lemma get_perplexity_forward (l : list string) (r : list Q) :
  get_perplexity tk max_length_arg loss math_exp (Many l) = Returns r ->
  Forall2 (fun s v =>
             get_perplexity tk max_length_arg loss math_exp (One s) = Returns [v])
          l r.
Proof.
  intros H. apply get_perplexity_returns in H.
  destruct H as (p & data & Hp & Hdata & H).
  apply mapM_Forall2 in Hdata. revert r H.
  induction Hdata as [|s d l data Hs _ IH]; intros r H; inversion H; subst;
    constructor.
  - apply get_perplexity_alone. exists p, d. now repeat split.
  - now apply IH.
Qed.

Lemma get_perplexity_backward (l : list string) (r : list Q) :
  l <> [] ->
  Forall2 (fun s v =>
             get_perplexity tk max_length_arg loss math_exp (One s) = Returns [v])
          l r ->
  get_perplexity tk max_length_arg loss math_exp (Many l) = Returns r.
Proof.
  intros Hne H. apply get_perplexity_returns.
  assert (Hp : exists p, init tk max_length_arg (Some true) = Ok p).
  { destruct H as [|s v l r Hs _]; [congruence|].
    apply get_perplexity_alone in Hs. destruct Hs as (p & _ & Hp & _). eauto. }
  destruct Hp as (p & Hp). exists p.
  assert (Hdata : exists data,
             mapM (call p) l = Ok data
             /\ Forall2 (fun d v => sentence_score loss math_exp d = Returns v)
                        data r).
  { clear Hne. induction H as [|s v l r Hs _ IH].
    - exists []. split; [reflexivity | constructor].
    - destruct IH as (data & Hdata & Hr).
      apply get_perplexity_alone in Hs. destruct Hs as (p' & d & Hp' & Hd & Hv).
      assert (p' = p) by congruence. subst p'.
      exists (d :: data). split; [|now constructor].
      cbn [mapM]. now rewrite Hd, Hdata. }
  destruct Hdata as (data & Hdata & Hr). exists data. now repeat split.
Qed.

(** A sentence all of whose tokens are the mask token, or that has no token,
    gets no encoding in token-wise mode. *)
Lemma call_only_masks (p : EncodePlus) (s : string) :
  tokenizer p = tk -> token_wise_mask p = Some true ->
  (forall token, In token (tokenize tk s) ->
                 convert_tokens_to_ids tk token = mask_token_id tk) ->
  call p s = Ok [].
Proof.
  intros Htk Hmode Hall. unfold call, token_wise. rewrite Hmode, Htk.
  cbn [negb].
  set (n := Z.to_nat _).
  assert (Hn : n <= length (tokenize tk s)) by (subst n; lia).
  assert (H : forall k a,
             a + k <= length (tokenize tk s) ->
             mapM (encode_with_single_mask_id p (tokenize tk s)) (seq a k)
             = Ok (repeat None k)).
  { induction k as [|k IH]; intros a Ha; [reflexivity|].
    cbn [seq mapM repeat]. rewrite IH by lia.
    unfold encode_with_single_mask_id at 1. rewrite Htk. unfold index.
    destruct (nth_error (tokenize tk s) a) as [token|] eqn:E.
    - cbn [bind]. rewrite (Hall token) by (eapply nth_error_In; eassumption).
      now rewrite Z.eqb_refl.
    - apply nth_error_None in E. lia. }
  rewrite H by lia. cbn [bind]. f_equal.
  clear. induction n as [|n IH]; [reflexivity | exact IH].
Qed.

(** X21.  The scorer works sentence by sentence: a call on a non-empty list
    returns exactly when the call on each sentence alone returns, and the
    score of a sentence in the list is the score it gets alone, whatever the
    other sentences encoded, partitioned and scored with it. *)
Theorem get_perplexity_sentence_by_sentence (l : list string) (r : list Q) :
  l <> [] ->
  get_perplexity tk max_length_arg loss math_exp (Many l) = Returns r
  <-> Forall2 (fun s v =>
                 get_perplexity tk max_length_arg loss math_exp (One s)
                 = Returns [v])
              l r.
Proof.
  intros Hne. split; [apply get_perplexity_forward|].
  now apply get_perplexity_backward.
Qed.

(** X22.  A sentence without a token, or whose tokens are all the mask token,
    cannot be scored: alone it ends in [ZeroDivisionError] as soon as the
    encoder is set up, and no list that holds it gets its scores. *)
Theorem get_perplexity_without_tokens (s : string) :
  (forall token, In token (tokenize tk s) ->
                 convert_tokens_to_ids tk token = mask_token_id tk) ->
  (forall p, init tk max_length_arg (Some true) = Ok p ->
             get_perplexity tk max_length_arg loss math_exp (One s)
             = RaisesZeroDivisionError)
  /\ (forall l r, In s l ->
                  get_perplexity tk max_length_arg loss math_exp (Many l)
                  <> Returns r).
Proof.
  intros Hall.
  assert (Hone : forall p, init tk max_length_arg (Some true) = Ok p ->
                           get_perplexity tk max_length_arg loss math_exp (One s)
                           = RaisesZeroDivisionError).
  { intros p Hp. destruct (@init_attributes _ _ Hp) as (Htk & Hmode).
    unfold get_perplexity, get_encoding. rewrite Hp. cbn [bind mapM].
    rewrite (@call_only_masks p s Htk Hmode Hall). reflexivity. }
  split; [exact Hone|].
  intros l r Hin H.
  pose proof (@get_perplexity_forward _ _ H) as Hf.
  apply get_perplexity_returns in H. destruct H as (p & _ & Hp & _).
  apply In_nth_error in Hin. destruct Hin as (n & Hn).
  assert (Hv : exists v, get_perplexity tk max_length_arg loss math_exp (One s)
                         = Returns [v]).
  { clear -Hf Hn. revert n Hn.
    induction Hf as [|s' v l r Hs _ IH]; intros [|n] Hn; cbn in Hn;
      try discriminate.
    - injection Hn as ->. eauto.
    - eauto. }
  destruct Hv as (v & Hv). rewrite (Hone p Hp) in Hv. discriminate.
Qed.

End ScorerFacts.

(** Two sentences under the small tokenizer: scored together, then each
    alone. *)
Lemma get_perplexity_sentence_by_sentence_witness :
  Forall2 (fun s v =>
             get_perplexity toy_tokenizer (Some 8%Z) toy_loss toy_exp (One s)
             = Returns [v])
          ["dog is cat"; "cat"] [15 # 3; 3 # 1]%Q.
Proof.
  apply (proj1 (@get_perplexity_sentence_by_sentence
                  toy_tokenizer (Some 8%Z) toy_loss toy_exp
                  ["dog is cat"; "cat"] [15 # 3; 3 # 1]%Q
                  ltac:(discriminate))).
  vm_compute. reflexivity.
Defined.

Lemma get_perplexity_without_tokens_witness :
  get_perplexity toy_tokenizer (Some 8%Z) toy_loss toy_exp (One "[MASK] [MASK]")
  = RaisesZeroDivisionError.
Proof.
  refine (proj1 (@get_perplexity_without_tokens
                   toy_tokenizer (Some 8%Z) toy_loss toy_exp "[MASK] [MASK]" _)
                (mk_EncodePlus toy_tokenizer (Some true) 8 ["[CLS]"]) eq_refl).
  intros token [<-|[<-|[]]]; reflexivity.
Defined.

(* ================================================================== *)
(** ** Setting up the encoder *)

Lemma list_index_split (x : string) (l : list string) :
  forall i, list_index x l = Ok i ->
            exists rest, l = firstn i l ++ x :: rest /\ ~ In x (firstn i l).
Proof.
  induction l as [|y l IH]; intros i H; cbn in H; [discriminate|].
  destruct (String.eqb_spec y x) as [->|Hne].
  - injection H as <-. exists l. split; [reflexivity | intros []].
  - inv_bind H as j Hj. injection H as <-.
    destruct (IH j Hj) as (rest & Hl & Hnot).
    exists rest. cbn [firstn app]. split; [now rewrite <- Hl|].
    intros [Hin|Hin]; [congruence | now apply Hnot].
Qed.

(** X23.  An encoder that [EncodePlus.__init__] sets up never has a maximum
    length above the tokenizer's: it has the length asked for, except that a
    length of 0, like [None], is read as not given and leaves the tokenizer's
    own.  Its prefix is what stands, in the tokens of the encoded probe
    sentence, before the first occurrence of the probe's first token. *)
Theorem init_max_length_and_prefix (tk : Tokenizer) (max_length_arg : option Z)
        (twm : option bool) (p : EncodePlus) :
  init tk max_length_arg twm = Ok p ->
  (max_length p <= model_max_length tk)%Z
  /\ max_length p = match max_length_arg with
                    | Some m => if (m =? 0)%Z then model_max_length tk else m
                    | None => model_max_length tk
                    end
  /\ exists t0 rest,
      hd_error (tokenize tk "get tokenizer specific prefix") = Some t0
      /\ convert_ids_to_tokens tk (encode tk "get tokenizer specific prefix")
         = sp_token_prefix p ++ t0 :: rest
      /\ ~ In t0 (sp_token_prefix p).
Proof.
  unfold init. intros H. inv_bind H as m Hm. inv_bind H as t0 Ht0.
  inv_bind H as i Hi. injection H as <-. cbn [max_length sp_token_prefix].
  assert (Hmax : (m <= model_max_length tk)%Z
                 /\ m = match max_length_arg with
                        | Some m => if (m =? 0)%Z then model_max_length tk else m
                        | None => model_max_length tk
                        end).
  { destruct max_length_arg as [m0|].
    - destruct (Z.eqb_spec m0 0).
      + injection Hm as <-. split; [lia | reflexivity].
      + destruct (Z.leb_spec m0 (model_max_length tk)); [|discriminate].
        injection Hm as <-. split; [lia | reflexivity].
    - injection Hm as <-. split; [lia | reflexivity]. }
  destruct Hmax as (Hle & Heq). split; [exact Hle|]. split; [exact Heq|].
  apply index_ok in Ht0. destruct (list_index_split _ _ Hi) as (rest & Hl & Hnot).
  exists t0, rest. split; [|split; assumption].
  destruct (tokenize tk "get tokenizer specific prefix"); [discriminate|].
  exact Ht0.
Qed.

(** The small tokenizer, with a maximum length of 0. *)
Lemma init_max_length_and_prefix_witness :
  exists p,
    init toy_tokenizer (Some 0%Z) None = Ok p
    /\ max_length p = 16%Z
    /\ sp_token_prefix p = ["[CLS]"].
Proof.
  exists (mk_EncodePlus toy_tokenizer None 16 ["[CLS]"]).
  split; [reflexivity|].
  destruct (@init_max_length_and_prefix
              toy_tokenizer (Some 0%Z) None
              (mk_EncodePlus toy_tokenizer None 16 ["[CLS]"]) eq_refl)
    as (_ & Hm & _).
  split; [exact Hm | reflexivity].
Defined.

End EncoderFacts.

(* ================================================================== *)
(** ** The loop that fills the masks *)

Lemma last_cons_default {A} (rows : list A) :
  forall (x d : A), last (x :: rows) d = last rows x.
Proof.
  induction rows as [|r rows IH]; intros x d; [reflexivity|].
  change (last (x :: r :: rows) d) with (last (r :: rows) d).
  now rewrite !IH.
Qed.

(** X24.  When the loop that fills the masks of the word-pair seeds ends
    without an exception, the sentences it hands to the revision hold no mask
    token and there is at least one of them; every call of
    [replace_single_token] it made left one row of sentences and one row of
    scores behind, and the sentences handed on are the last row recorded (the
    seeds themselves when no call was made). *)
Theorem replace_mask_leaves_no_mask
        (mask_token : string)
        (rst : nat -> list string -> option (list (list string)) -> nat ->
               result (list string * list Q))
        (word_pairs : list (list string)) (topk : nat) (fuel : nat) :
  forall t seeds edit edit_ppl t' seeds' edit' edit_ppl',
    replace_mask mask_token rst fuel word_pairs topk t seeds edit edit_ppl
    = (t', Ok (seeds', edit', edit_ppl')) ->
    seeds' <> []
    /\ Forall (fun x => contains mask_token x = false) seeds'
    /\ exists rows rows_ppl,
        edit' = edit ++ rows
        /\ edit_ppl' = edit_ppl ++ rows_ppl
        /\ length rows = length rows_ppl
        /\ t' = t + length rows
        /\ last rows seeds = seeds'.
Proof.
  induction fuel as [|fuel IH]; intros t seeds e p t' seeds' e' p' H;
    cbn [replace_mask] in H; [discriminate|].
  destruct (existsb (fun x => negb (contains mask_token x)) seeds) eqn:Hany.
  - destruct (forallb (fun x => negb (contains mask_token x)) seeds) eqn:Hall;
      [|discriminate].
    injection H as <- <- <- <-. split; [|split].
    + intros ->. discriminate.
    + rewrite forallb_forall in Hall. apply Forall_forall. intros x Hx.
      now apply negb_true_iff, Hall.
    + exists [], []. rewrite !app_nil_r. repeat split. cbn [length]. lia.
  - destruct (rst t seeds (Some word_pairs) topk) as [[s1 q1]|err];
      [|discriminate].
    destruct (IH _ _ _ _ _ _ _ _ H)
      as (Hne & Hno & rows & rows_ppl & -> & -> & Hlen & -> & Hlast).
    split; [exact Hne|]. split; [exact Hno|].
    exists (s1 :: rows), (q1 :: rows_ppl). rewrite <- !app_assoc.
    repeat split; cbn [length app]; try lia.
    rewrite <- Hlast. apply last_cons_default.
Qed.

(** One blank between dog and cat, filled by the stub backend. *)
Lemma replace_mask_leaves_no_mask_witness :
  ["dog is cat"] <> []
  /\ Forall (fun x => contains "[MASK]" x = false) ["dog is cat"]
  /\ exists rows rows_ppl,
      [["dog [MASK] cat"]; ["dog is cat"]] = [["dog [MASK] cat"]] ++ rows
      /\ [[7 # 1]] = [] ++ rows_ppl
      /\ length rows = length rows_ppl
      /\ 1 = 0 + length rows
      /\ last rows ["dog [MASK] cat"] = ["dog is cat"].
Proof.
  apply (@replace_mask_leaves_no_mask
           "[MASK]" stub_replace_single_token [["dog"; "cat"]] 1 5
           0 ["dog [MASK] cat"] [["dog [MASK] cat"]] []
           1 ["dog is cat"] [["dog [MASK] cat"]; ["dog is cat"]] [[7 # 1]]).
  vm_compute. reflexivity.
Defined.
